(** * libio: streaming multi-token replace and the fixed-size byte pool

    A shallow embedding of the replacer source (the [BytesReplacer] implementations
    [byteReplace] and [replacer], the constructor [NewReplacer] and the engine
    [StreamReplacingReader]) and of [bytespool/fixed] (the [Allocator]).

    Modelling conventions.
    - A Go [[]byte] is a [list byte]; a nil slice and an empty slice are both
      [[]] (the code only ever takes [len] of them).
    - A Go [int] is a [Z]; every length met here is far below [2^63], so the
      wrap-around is not written out.
    - A Go [float64] is the rational ([Q]) it denotes.  [NewReplacer] keeps
      the exact quotient of two lengths, which it only compares (rounding is
      monotone); the [float64] the code holds is the rounding of that
      quotient, the lengths of strings being below [2^53].  Where the code
      multiplies, in [ResetEx], the ratio, the length and the product are
      rounded to the nearest [float64] (see [float64]).
    - A [panic] is the outcome [Panic]; the unbounded [for] loops of [Read]
      take fuel and give [OutOfFuel] when it runs dry.
    - An [io.Reader] is a state with a read function (class [IoReader]). *)

From Stdlib Require Import ZArith List Bool Lia QArith Qround Qabs Qpower Lqa.
From Stdlib Require Import Strings.String Strings.Byte.
Import ListNotations.
Open Scope Z_scope.

(** ** Slices *)

Definition ByteSlice := list byte.

Definition len {A : Type} (s : list A) : Z := Z.of_nat (List.length s).

(** ** Outcomes of fallible code *)

(** What a Go panic carries: the argument of an explicit [panic(...)], the
    runtime's bounds error for a slice expression [b[lo:hi]] on a capacity
    [cap], or a nil dereference. *)
Inductive panic : Type :=
| Explicit (msg : string)
| SliceBounds (lo hi cap : Z)
| NilDereference.

Inductive outcome (A : Type) : Type :=
| Ok (a : A)
| Panic (p : panic)
| OutOfFuel.

Arguments Ok {A} a.
Arguments Panic {A} p.
Arguments OutOfFuel {A}.

Definition bind {A B : Type} (m : outcome A) (k : A -> outcome B) : outcome B :=
  match m with
  | Ok a => k a
  | Panic p => Panic p
  | OutOfFuel => OutOfFuel
  end.

Notation "x <- m ;; k" := (bind m (fun x => k))
  (at level 61, m at next level, right associativity).

(** ** Package [bytes]: substring search *)

Module bytes.

Fixpoint HasPrefix (s prefix : ByteSlice) {struct prefix} : bool :=
  match prefix, s with
  | [], _ => true
  | _ :: _, [] => false
  | c :: prefix', d :: s' => Byte.eqb c d && HasPrefix s' prefix'
  end.

(** [indexFrom s sep i]: the first offset of [sep] in [s], counted from [i]. *)
Fixpoint indexFrom (s sep : ByteSlice) (i : Z) : Z :=
  if HasPrefix s sep then i
  else match s with
       | [] => -1
       | _ :: s' => indexFrom s' sep (i + 1)
       end.

(** [Index s sep]: index of the first instance of [sep] in [s], or -1. *)
Definition Index (s sep : ByteSlice) : Z := indexFrom s sep 0.

End bytes.

(** ** The [BytesReplacer] interface *)

Class BytesReplacer (T : Type) : Type := {
  GetSizingHints : T -> Z * Z * Q;
  Index : T -> ByteSlice -> Z * ByteSlice * ByteSlice
}.

Definition max (a b : Z) : Z := if a >? b then a else b.

Definition defaultBufSize : Z := 4096.

(** ** [byteReplace]: one search token and its replacement *)

Record byteReplace : Type := {
  search : ByteSlice;
  replace : ByteSlice
}.

Definition byteReplace_GetSizingHints (b : byteReplace) : Z * Z * Q :=
  let searchLen := len (search b) in
  let replaceLen := len (replace b) in
  let ratio :=
    if searchLen <? replaceLen
    then (inject_Z searchLen / inject_Z replaceLen)%Q
    else (-1)%Q in
  (searchLen, replaceLen, ratio).

Definition byteReplace_Index (b : byteReplace) (buf : ByteSlice)
  : Z * ByteSlice * ByteSlice :=
  (bytes.Index buf (search b), search b, replace b).

#[export] Instance byteReplace_BytesReplacer : BytesReplacer byteReplace := {
  GetSizingHints := byteReplace_GetSizingHints;
  Index := byteReplace_Index
}.

(** ** [replacer]: the aggregated set *)

Record replacer : Type := {
  index : Z;
  replaces : list byteReplace;
  maxSearchLen : Z;
  maxReplaceLen : Z;
  maxRatio : Q
}.

(** [a > b] on ratios. *)
Definition Qgtb (a b : Q) : bool := negb (Qle_bool a b).

(** The body of the [for i := 0; i < len(oldnews); i += 2] loop of
    [NewReplacer], two arguments at a time. *)
Fixpoint NewReplacer_loop (oldnews : list string) (res : replacer) : replacer :=
  match oldnews with
  | old :: new :: rest =>
      if len (list_byte_of_string old) =? 0 then NewReplacer_loop rest res
      else
        let er := {| search := list_byte_of_string old;
                     replace := list_byte_of_string new |} in
        let '(searchLen, replaceLen, ratio) := GetSizingHints er in
        NewReplacer_loop rest
          {| index := index res;
             replaces := replaces res ++ [er];
             maxSearchLen :=
               if searchLen >? maxSearchLen res then searchLen
               else maxSearchLen res;
             maxReplaceLen :=
               if replaceLen >? maxReplaceLen res then replaceLen
               else maxReplaceLen res;
             maxRatio :=
               if Qgtb ratio (maxRatio res) then ratio else maxRatio res |}
  | _ => res
  end.

Definition NewReplacer (oldnews : list string) : outcome replacer :=
  let res := {| index := 0; replaces := []; maxSearchLen := 0;
                maxReplaceLen := 0; maxRatio := (-1)%Q |} in
  if len oldnews mod 2 =? 1
  then Panic (Explicit "stream.NewReplacer: odd argument count")
  else Ok (NewReplacer_loop oldnews res).

Definition replacer_GetSizingHints (r : replacer) : Z * Z * Q :=
  (maxSearchLen r, maxReplaceLen r, maxRatio r).

(** The [for _, er := range r.replaces] loop of [replacer.Index]; [acc] is
    [(resIndex, resSearch, resReplace)]. *)
Fixpoint replacer_Index_loop (rs : list byteReplace) (buf : ByteSlice)
    (acc : Z * ByteSlice * ByteSlice) : Z * ByteSlice * ByteSlice :=
  match rs with
  | [] => acc
  | er :: rs' =>
      let '(idx, s, p) := Index er buf in
      let resIndex := fst (fst acc) in
      replacer_Index_loop rs' buf
        (if (idx >=? 0) && ((resIndex =? -1) || (idx <? resIndex))
         then (idx, s, p) else acc)
  end.

Definition replacer_Index (r : replacer) (buf : ByteSlice)
  : Z * ByteSlice * ByteSlice :=
  if len buf =? 0 then (-1, [], [])
  else replacer_Index_loop (replaces r) buf (-1, [], []).

#[export] Instance replacer_BytesReplacer : BytesReplacer replacer := {
  GetSizingHints := replacer_GetSizingHints;
  Index := replacer_Index
}.

(** ** Slice expressions and [copy] on the engine's buffer *)

(** [b[lo:hi]], with the runtime's bounds check ([cap b = len b] for the
    engine's buffer, which comes from [make([]byte, bufSize)]). *)
Definition slice (b : ByteSlice) (lo hi : Z) : outcome ByteSlice :=
  if (0 <=? lo) && (lo <=? hi) && (hi <=? len b)
  then Ok (firstn (Z.to_nat (hi - lo)) (skipn (Z.to_nat lo) b))
  else Panic (SliceBounds lo hi (len b)).

(** [copy(b[lo:hi], src)] once [b[lo:hi]] passed its bounds check: the first
    [min (hi - lo) (len src)] bytes of [src] land at offset [lo].  [src] is a
    value here, so an overlapping source is read before it is overwritten, as
    Go's [copy] guarantees. *)
Definition copyAt (b : ByteSlice) (lo hi : Z) (src : ByteSlice) : ByteSlice :=
  let n := Z.min (hi - lo) (len src) in
  firstn (Z.to_nat lo) b ++ firstn (Z.to_nat n) src
    ++ skipn (Z.to_nat (lo + n)) b.

(** [make([]byte, n)] *)
Definition make (n : Z) : ByteSlice := repeat x00 (Z.to_nat n).

(** ** [io.Reader] and [error] *)

Inductive error : Type :=
| EOF
| ErrOther (msg : string).

(** [ioRead r n] is [r.Read(p)] with [len(p) = n]: the bytes written to the
    front of [p], the error, and the reader afterwards. *)
Class IoReader (R : Type) : Type := {
  ioRead : R -> Z -> ByteSlice * option error * R
}.

Definition isSome {A : Type} (o : option A) : bool :=
  match o with Some _ => true | None => false end.

(** ** [float64] arithmetic *)

(** [2^k] for any integer [k]. *)
Definition pow2 (k : Z) : Q := Qpower 2 k.

(** The binary exponent of a positive rational: the [e] with
    [2^e <= q < 2^(e+1)]. *)
Definition binade (q : Q) : Z :=
  let e := Z.log2 (Qnum q) - Z.log2 (Zpos (Qden q)) in
  if Qle_bool (pow2 e) q then e else e - 1.

(** The nearest integer, the even one on a tie. *)
Definition roundEven (x : Q) : Z :=
  let f := Qfloor x in
  match Qcompare (x - inject_Z f) (1 # 2) with
  | Lt => f
  | Gt => f + 1
  | Eq => if Z.even f then f else f + 1
  end.

(** The exponent of the unit in the last place of the [float64] nearest to
    [a > 0]: 53 significant bits, and not below the subnormal [2^-1074]. *)
Definition ulpExp (a : Q) : Z := Z.max (binade a - 52) (-1074).

(** The [float64] nearest to [q], ties to even: what a conversion from [int]
    and a [float64] division or multiplication of exact operands return.
    Overflow to infinity is not modelled: the ratios and lengths met here
    stay far below [2^1024]. *)
Definition float64 (q : Q) : Q :=
  let a := Qabs q in
  if Qeq_bool a 0 then 0%Q
  else
    let e := ulpExp a in
    let v := (inject_Z (roundEven (a / pow2 e)) * pow2 e)%Q in
    Qred (if Qle_bool 0 q then v else (- v)%Q).

(** [int(x)] of a [float64]: the fraction is dropped. *)
Definition truncate (x : Q) : Z :=
  if Qle_bool 0 x then Qfloor x else Qceiling x.

(** ** [StreamReplacingReader] *)

Section Engine.

Context {R : Type} {io : IoReader R}.
Context {T : Type} {br : BytesReplacer T}.

Record StreamReplacingReader : Type := {
  sr_replacer : option T;
  sr_maxSearchTokenLen : Z;
  sr_r : option R;
  sr_err : option error;
  sr_buf : ByteSlice;
  sr_buf0 : Z;
  sr_buf1 : Z;
  sr_max : Z
}.

(** [&StreamReplacingReader{}] *)
Definition zeroReader : StreamReplacingReader :=
  {| sr_replacer := None; sr_maxSearchTokenLen := 0; sr_r := None;
     sr_err := None; sr_buf := []; sr_buf0 := 0; sr_buf1 := 0; sr_max := 0 |}.

Definition set_buf0 (st : StreamReplacingReader) (v : Z) :=
  {| sr_replacer := sr_replacer st;
     sr_maxSearchTokenLen := sr_maxSearchTokenLen st;
     sr_r := sr_r st; sr_err := sr_err st; sr_buf := sr_buf st;
     sr_buf0 := v; sr_buf1 := sr_buf1 st; sr_max := sr_max st |}.

Definition set_buf1 (st : StreamReplacingReader) (v : Z) :=
  {| sr_replacer := sr_replacer st;
     sr_maxSearchTokenLen := sr_maxSearchTokenLen st;
     sr_r := sr_r st; sr_err := sr_err st; sr_buf := sr_buf st;
     sr_buf0 := sr_buf0 st; sr_buf1 := v; sr_max := sr_max st |}.

Definition set_buf (st : StreamReplacingReader) (b : ByteSlice) :=
  {| sr_replacer := sr_replacer st;
     sr_maxSearchTokenLen := sr_maxSearchTokenLen st;
     sr_r := sr_r st; sr_err := sr_err st; sr_buf := b;
     sr_buf0 := sr_buf0 st; sr_buf1 := sr_buf1 st; sr_max := sr_max st |}.

Definition set_r_err (st : StreamReplacingReader) (r : R) (e : option error) :=
  {| sr_replacer := sr_replacer st;
     sr_maxSearchTokenLen := sr_maxSearchTokenLen st;
     sr_r := Some r; sr_err := e; sr_buf := sr_buf st;
     sr_buf0 := sr_buf0 st; sr_buf1 := sr_buf1 st; sr_max := sr_max st |}.

(** [int(ratio * float64(n))]: the ratio as the [float64] the code holds,
    the length converted, the product rounded, the fraction dropped. *)
Definition scaleLen (ratio : Q) (n : Z) : Z :=
  truncate (float64 (float64 ratio * float64 (inject_Z n))).

Definition ResetEx (r : StreamReplacingReader) (r1 : option R) (rep : T)
  : outcome StreamReplacingReader :=
  match r1 with
  | None => Panic (Explicit "io.Reader cannot be nil")
  | Some rd =>
      let '(maxSearchTokenLen, maxReplaceTokenLen, ratio) :=
        GetSizingHints rep in
      if maxSearchTokenLen =? 0
      then Panic (Explicit "search token cannot be nil/empty")
      else
        let bufSize :=
          max defaultBufSize (max maxSearchTokenLen maxReplaceTokenLen) in
        let buf :=
          if (len (sr_buf r) =? 0) || (len (sr_buf r) <? bufSize)
          then make bufSize else sr_buf r in
        Ok {| sr_replacer := Some rep;
              sr_maxSearchTokenLen := maxSearchTokenLen;
              sr_r := Some rd;
              sr_err := None;
              sr_buf := buf;
              sr_buf0 := 0;
              sr_buf1 := 0;
              sr_max := if Qgtb ratio 0 then scaleLen ratio (len buf)
                        else len buf |}
  end.

(** The inner [for] of [Read]: scan [buf[buf0:buf1]], replace in place,
    until no token is found. *)
Fixpoint scan (fuel : nat) (st : StreamReplacingReader)
  : outcome StreamReplacingReader :=
  match fuel with
  | O => OutOfFuel
  | S fuel' =>
      rep <- match sr_replacer st with
             | Some rep => Ok rep
             | None => Panic NilDereference
             end ;;
      region <- slice (sr_buf st) (sr_buf0 st) (sr_buf1 st) ;;
      let '(idx, search, replace) := Index rep region in
      if idx <? 0
      then Ok (set_buf0 st (max (sr_buf0 st)
                 (sr_buf1 st - sr_maxSearchTokenLen st + 1)))
      else
        let searchTokenLen := len search in
        if searchTokenLen =? 0
        then Panic (Explicit "search token cannot be nil/empty")
        else
          let replaceTokenLen := len replace in
          let lenDelta := replaceTokenLen - searchTokenLen in
          let idx := idx + sr_buf0 st in
          _ <- slice (sr_buf st) (idx + replaceTokenLen)
                 (sr_buf1 st + lenDelta) ;;
          rest <- slice (sr_buf st) (idx + searchTokenLen) (sr_buf1 st) ;;
          let b1 := copyAt (sr_buf st) (idx + replaceTokenLen)
                      (sr_buf1 st + lenDelta) rest in
          _ <- slice b1 idx (idx + replaceTokenLen) ;;
          let b2 := copyAt b1 idx (idx + replaceTokenLen) replace in
          scan fuel'
            (set_buf1 (set_buf0 (set_buf st b2) (idx + replaceTokenLen))
               (sr_buf1 st + lenDelta))
  end.

(** The first branch of [Read]'s loop ([r.buf0 > 0]): hand out processed
    bytes and compact the buffer. *)
Definition drain (st : StreamReplacingReader) (plen : Z)
  : outcome (Z * ByteSlice * option error * StreamReplacingReader) :=
  ready <- slice (sr_buf st) 0 (sr_buf0 st) ;;
  let n := Z.min plen (len ready) in
  let out := firstn (Z.to_nat n) ready in
  let st1 := set_buf1 (set_buf0 st (sr_buf0 st - n)) (sr_buf1 st - n) in
  if (sr_buf1 st1 =? 0) && isSome (sr_err st1)
  then Ok (n, out, sr_err st1, st1)
  else
    rest <- slice (sr_buf st1) n (sr_buf1 st1 + n) ;;
    Ok (n, out, None,
        set_buf st1 (copyAt (sr_buf st1) 0 (len (sr_buf st1)) rest)).

(** The rest of the loop body: pull from the underlying reader into
    [buf[buf1:max]], scan, and flush on error. *)
Definition fill (fuel : nat) (st : StreamReplacingReader)
  : outcome StreamReplacingReader :=
  rd <- match sr_r st with
        | Some rd => Ok rd
        | None => Panic NilDereference
        end ;;
  dst <- slice (sr_buf st) (sr_buf1 st) (sr_max st) ;;
  let '(got, e, rd') := ioRead rd (len dst) in
  let got := firstn (Z.to_nat (len dst)) got in
  let n := len got in
  let st1 :=
    set_r_err (set_buf st (copyAt (sr_buf st) (sr_buf1 st) (sr_max st) got))
      rd' e in
  st2 <- (if n >? 0 then scan fuel (set_buf1 st1 (sr_buf1 st1 + n))
          else Ok st1) ;;
  Ok (if isSome (sr_err st2) then set_buf0 st2 (sr_buf1 st2) else st2).

(** [Read(p)] with [len(p) = plen]: the count, the bytes put in [p], the
    error, and the engine afterwards. *)
Fixpoint Read (fuel : nat) (st : StreamReplacingReader) (plen : Z)
  : outcome (Z * ByteSlice * option error * StreamReplacingReader) :=
  match fuel with
  | O => OutOfFuel
  | S fuel' =>
      if sr_buf0 st >? 0 then drain st plen
      else if isSome (sr_err st) then Ok (0, [], sr_err st, st)
      else
        st' <- fill fuel' st ;;
        Read fuel' st' plen
  end.

(** [io.ReadAll]: pull [plen] bytes at a time until an error; [EOF] is
    reported as success. *)
Fixpoint ReadAll (calls fuel : nat) (st : StreamReplacingReader) (plen : Z)
  : outcome (ByteSlice * option error) :=
  match calls with
  | O => OutOfFuel
  | S calls' =>
      res <- Read fuel st plen ;;
      let '(_, out, e, st') := res in
      match e with
      | None =>
          more <- ReadAll calls' fuel st' plen ;;
          Ok (out ++ fst more, snd more)
      | Some EOF => Ok (out, None)
      | Some e' => Ok (out, Some e')
      end
  end.

End Engine.

(** [replacer.Replace] *)
Definition Replace {R : Type} {io : IoReader R} (r : replacer) (src : option R)
  : outcome (@StreamReplacingReader R replacer) :=
  ResetEx zeroReader src r.

(** Successive [Read] calls with buffers of the lengths [plens]. *)
Fixpoint ReadN {R T : Type} {io : IoReader R} {br : BytesReplacer T}
    (fuel : nat) (st : @StreamReplacingReader R T) (plens : list Z)
  : outcome (list (Z * ByteSlice * option error) * StreamReplacingReader) :=
  match plens with
  | [] => Ok ([], st)
  | plen :: rest =>
      res <- Read fuel st plen ;;
      let '(n, out, e, st') := res in
      more <- ReadN fuel st' rest ;;
      Ok ((n, out, e) :: fst more, snd more)
  end.

(** ** A reader over a byte string that hands out at most [cr_chunk] bytes per
    call and ends with [cr_final] ([strings.Reader] when the chunk is large,
    [iotest.OneByteReader] when it is 1). *)

Record ChunkReader : Type := {
  cr_data : ByteSlice;
  cr_chunk : Z;
  cr_final : error
}.

Definition ChunkReader_Read (r : ChunkReader) (n : Z)
  : ByteSlice * option error * ChunkReader :=
  if len (cr_data r) =? 0 then ([], Some (cr_final r), r)
  else
    let k := Z.min n (Z.min (cr_chunk r) (len (cr_data r))) in
    (firstn (Z.to_nat k) (cr_data r), None,
     {| cr_data := skipn (Z.to_nat k) (cr_data r);
        cr_chunk := cr_chunk r; cr_final := cr_final r |}).

#[export] Instance ChunkReader_IoReader : IoReader ChunkReader := {
  ioRead := ChunkReader_Read
}.

(** ** A reader that returns its final condition together with its last
    bytes, as [io.Reader] allows and [iotest.DataErrReader] does. *)

Record DataErrReader : Type := {
  de_data : ByteSlice;
  de_final : error
}.

Definition DataErrReader_Read (r : DataErrReader) (n : Z)
  : ByteSlice * option error * DataErrReader :=
  let k := Z.min n (len (de_data r)) in
  let rest := skipn (Z.to_nat k) (de_data r) in
  (firstn (Z.to_nat k) (de_data r),
   if len rest =? 0 then Some (de_final r) else None,
   {| de_data := rest; de_final := de_final r |}).

#[export] Instance DataErrReader_IoReader : IoReader DataErrReader := {
  ioRead := DataErrReader_Read
}.

(** ** Package [bytespool/fixed]: the fixed-size pool *)

Module fixed.

(** [freeList] is a buffered channel of capacity [freeCap]: a FIFO queue
    that a non-blocking send leaves alone when it is full. *)
Record Allocator : Type := {
  freeList : list ByteSlice;
  freeCap : Z;
  bufSize : Z
}.

(** [make(chan []byte, bufNum)] panics for a negative capacity and for one
    beyond [maxChan], the largest capacity the runtime accepts (it depends on
    the platform's allocation limit). *)
Definition NewBytePool (maxChan bufNum bufSize : Z) : outcome Allocator :=
  if (bufNum <? 0) || (maxChan <? bufNum)
  then Panic (Explicit "makechan: size out of range")
  else Ok {| freeList := []; freeCap := bufNum; bufSize := bufSize |}.

Definition Get (fp : Allocator) (size : Z) : outcome (ByteSlice * Allocator) :=
  if negb (bufSize fp =? size) then Ok ([], fp)
  else
    match freeList fp with
    | b :: rest =>
        Ok (b, {| freeList := rest; freeCap := freeCap fp;
                  bufSize := bufSize fp |})
    | [] =>
        if bufSize fp <? 0 then Panic (Explicit "makeslice: len out of range")
        else Ok (make (bufSize fp), fp)
    end.

Definition Put (fp : Allocator) (b : ByteSlice) : option error * Allocator :=
  if negb (len b =? bufSize fp)
  then (Some (ErrOther
                "invalid buffer size that's put into fixed size pool buffer"),
        fp)
  else if len (freeList fp) <? freeCap fp
       then (None, {| freeList := freeList fp ++ [b]; freeCap := freeCap fp;
                      bufSize := bufSize fp |})
       else (None, fp).

End fixed.

(** ** What the claims compare the code with *)

(** The pairs of a flat argument list, read by position: pair [i] is
    [(oldnews[2i], oldnews[2i+1])]. *)
Definition pairAt (oldnews : list string) (i : nat) : string * string :=
  (nth (2 * i) oldnews EmptyString, nth (2 * i + 1) oldnews EmptyString).

Definition flatPairs (oldnews : list string) : list (string * string) :=
  map (pairAt oldnews) (seq 0 (List.length oldnews / 2)).

Definition toByteReplace (p : string * string) : byteReplace :=
  {| search := list_byte_of_string (fst p);
     replace := list_byte_of_string (snd p) |}.

(** The pairs with a non-empty search string, in input order. *)
Definition keptPairs (oldnews : list string) : list byteReplace :=
  map toByteReplace
    (filter (fun p => negb (String.eqb (fst p) EmptyString)) (flatPairs oldnews)).

(** A pair whose replacement is longer than its search token. *)
Definition growing (er : byteReplace) : Prop :=
  len (search er) < len (replace er).

Definition pairRatio (er : byteReplace) : Q :=
  (inject_Z (len (search er)) / inject_Z (len (replace er)))%Q.

(** The reading of the growth ratio as a minimum: it is below the ratio of
    every growing pair of the set. *)
Definition ratio_is_minimum (oldnews : list string) : Prop :=
  forall res, NewReplacer oldnews = Ok res ->
  forall er, In er (replaces res) -> growing er ->
  (maxRatio res <= pairRatio er)%Q.

Definition maxLen (f : byteReplace -> ByteSlice) (l : list byteReplace) : Z :=
  fold_right Z.max 0 (map (fun er => len (f er)) l).

(** What the loop of [NewReplacer] maintains about the ratio [q] of the pairs
    [l] appended so far. *)
Definition ratioInv (l : list byteReplace) (q : Q) : Prop :=
  ((q == -1)%Q /\ forall er, In er l -> ~ growing er) \/
  ((0 < q < 1)%Q /\
   (exists er, In er l /\ growing er /\ (q == pairRatio er)%Q) /\
   (forall er, In er l -> growing er -> (pairRatio er <= q)%Q)).

Definition hintsInv (res : replacer) : Prop :=
  maxSearchLen res = maxLen search (replaces res) /\
  maxReplaceLen res = maxLen replace (replaces res) /\
  ratioInv (replaces res) (maxRatio res).

(** The first occurrence that member [er] reports on [buf]. *)
Definition memberIndex (buf : ByteSlice) (er : byteReplace) : Z :=
  bytes.Index buf (search er).

(** [res] is the leftmost first occurrence among the members [rs], the
    first-registered member winning a tie; or nothing when no member
    matches. *)
Definition leftmostFirst (rs : list byteReplace) (buf : ByteSlice)
    (res : Z * ByteSlice * ByteSlice) : Prop :=
  (res = (-1, [], []) /\ forall er, In er rs -> memberIndex buf er < 0) \/
  (exists k er,
      nth_error rs k = Some er /\
      0 <= memberIndex buf er /\
      res = (memberIndex buf er, search er, replace er) /\
      (forall j er', nth_error rs j = Some er' -> 0 <= memberIndex buf er' ->
                     memberIndex buf er <= memberIndex buf er') /\
      (forall j er', (j < k)%nat -> nth_error rs j = Some er' ->
                     0 <= memberIndex buf er' ->
                     memberIndex buf er < memberIndex buf er')).

(** The claim's reading of the capacity after [ResetEx]. *)
Definition reset_capacity_is_hint_maximum {R T : Type} {io : IoReader R}
    {br : BytesReplacer T} (r : @StreamReplacingReader R T) (rd : R) (rep : T)
  : Prop :=
  forall st, ResetEx r (Some rd) rep = Ok st ->
  len (sr_buf st) =
  Z.max 4096 (Z.max (fst (fst (GetSizingHints rep)))
                    (snd (fst (GetSizingHints rep)))).

(** What a caller sees once the condition [e] is pending over the buffered
    bytes [pending]: each call takes the next [min plen (len pending)] bytes,
    with no condition while bytes remain, and with [e] from the call that
    empties the buffer on (so zero bytes and [e] ever after). *)
Fixpoint drainSpec (e : error) (pending : ByteSlice) (plens : list Z)
  : list (Z * ByteSlice * option error) :=
  match plens with
  | [] => []
  | plen :: rest =>
      let n := Z.min plen (len pending) in
      let left := skipn (Z.to_nat n) pending in
      (n, firstn (Z.to_nat n) pending,
       if len left =? 0 then Some e else None) :: drainSpec e left rest
  end.

(** The condition [e] is recorded and everything buffered, [pending], is
    marked processed. *)
Definition flushed {R T : Type} (e : error) (pending : ByteSlice)
    (st : @StreamReplacingReader R T) : Prop :=
  sr_err st = Some e /\
  sr_buf0 st = sr_buf1 st /\
  0 <= sr_buf1 st <= len (sr_buf st) /\
  firstn (Z.to_nat (sr_buf1 st)) (sr_buf st) = pending.

(** [sep] occurs in [d] at offset [k]. *)
Definition occursAt (d sep : ByteSlice) (k : nat) : Prop :=
  bytes.HasPrefix (skipn k d) sep = true.

(** ** The whole-string replace the stream is compared with *)

(** The first pair, in registration order, whose search token starts [s]. *)
Fixpoint firstMatch (pairs : list byteReplace) (s : ByteSlice)
  : option byteReplace :=
  match pairs with
  | [] => None
  | er :: rest =>
      if bytes.HasPrefix s (search er) then Some er else firstMatch rest s
  end.

(** One left-to-right pass: at each position not inside an earlier match,
    the first matching pair is replaced and its token skipped; other bytes
    are copied.  [skip] counts the bytes of the current match still to pass. *)
Fixpoint canonicalReplace_from (pairs : list byteReplace) (s : ByteSlice)
    (skip : nat) : ByteSlice :=
  match s with
  | [] => []
  | c :: s' =>
      match skip with
      | S k => canonicalReplace_from pairs s' k
      | O =>
          match firstMatch pairs s with
          | Some er =>
              replace er
                ++ canonicalReplace_from pairs s' (List.length (search er) - 1)
          | None => c :: canonicalReplace_from pairs s' 0
          end
      end
  end.

Definition canonicalReplace (oldnews : list string) (input : ByteSlice)
  : ByteSlice :=
  canonicalReplace_from (keptPairs oldnews) input 0.

(** ** Concrete engines *)

Definition sourceOf (input : ByteSlice) (chunk : Z) : ChunkReader :=
  {| cr_data := input; cr_chunk := chunk; cr_final := EOF |}.

Definition setOf (oldnews : list string) : replacer :=
  match NewReplacer oldnews with
  | Ok r => r
  | _ => {| index := 0; replaces := []; maxSearchLen := 0;
            maxReplaceLen := 0; maxRatio := (-1)%Q |}
  end.

Definition engineOn (oldnews : list string) (input : ByteSlice) (chunk : Z)
  : @StreamReplacingReader ChunkReader replacer :=
  match Replace (setOf oldnews) (Some (sourceOf input chunk)) with
  | Ok st => st
  | _ => zeroReader
  end.

Definition afterFill (st : @StreamReplacingReader ChunkReader replacer)
  : @StreamReplacingReader ChunkReader replacer :=
  match fill 16 st with
  | Ok st' => st'
  | _ => st
  end.

(** [io.ReadAll] over the stream of [input], delivered [chunk] bytes at a
    time, through the set built from [oldnews]. *)
Definition streamAll (oldnews : list string) (input : ByteSlice) (chunk : Z)
  : outcome (ByteSlice * option error) :=
  r <- NewReplacer oldnews ;;
  st <- Replace r (Some (sourceOf input chunk)) ;;
  ReadAll (Z.to_nat 10000) (Z.to_nat 10000) st 512.

Local Open Scope string_scope.

Definition B (s : string) : ByteSlice := list_byte_of_string s.

(** The pairs of the repository's test. *)
Definition testPairs : list string :=
  ["zt"; "zhangtian"; "tzzzzzzzztzzzt"; "zt2"].

Definition growingPairs : list string := ["a"; "bb"; "c"; "dddd"].

(** 900 bytes ["x"] and then the long token of the test: the fill bound of
    the test's set, 910, falls inside the token. *)
Definition straddlingInput : ByteSlice :=
  (repeat "x"%byte 900 ++ B "tzzzzzzzztzzzt")%list.

(** A token that contains another token of the set. *)
Definition nestedPairs : list string := ["abc"; "X"; "b"; "Y"].

(** A set whose largest ratio, 1/2, comes from a pair that doubles, beside a
    pair that grows 2000-fold. *)
Definition burstPairs : list string :=
  ["a"; "bb"; "c"; string_of_list_byte (repeat "d"%byte 2000)].

(** An engine that served a set with a 5000-byte replacement. *)
Definition usedEngine : @StreamReplacingReader ChunkReader replacer :=
  engineOn ["a"; string_of_list_byte (repeat "x"%byte 5000)] [] 4096.

Local Close Scope string_scope.

(** ** Invariants and runs used by the further properties *)

(** A pool in good order: a buffer size that [make] accepts, no more
    buffers than the channel holds, every pooled buffer of the pool's size. *)
Definition wfPool (fp : fixed.Allocator) : Prop :=
  0 <= fixed.bufSize fp /\
  len (fixed.freeList fp) <= fixed.freeCap fp /\
  Forall (fun b => len b = fixed.bufSize fp) (fixed.freeList fp).

(** [Put] of the buffers [bs], one after the other; the errors are kept. *)
Fixpoint putAll (fp : fixed.Allocator) (bs : list ByteSlice)
  : list (option error) * fixed.Allocator :=
  match bs with
  | [] => ([], fp)
  | b :: rest =>
      let '(e, fp1) := fixed.Put fp b in
      let '(es, fp2) := putAll fp1 rest in
      (e :: es, fp2)
  end.

(** [n] calls of [Get] for buffers of [size] bytes. *)
Fixpoint getAll (fp : fixed.Allocator) (n : nat) (size : Z)
  : outcome (list ByteSlice * fixed.Allocator) :=
  match n with
  | O => Ok ([], fp)
  | S n' =>
      r <- fixed.Get fp size ;;
      more <- getAll (snd r) n' size ;;
      Ok (fst r :: fst more, snd more)
  end.

(** The engine's boundaries are in order and inside the buffer. *)
Definition wfEngine {R T : Type} (st : @StreamReplacingReader R T) : Prop :=
  0 <= sr_buf0 st /\ sr_buf0 st <= sr_buf1 st /\
  sr_buf1 st <= len (sr_buf st) /\ 1 <= sr_maxSearchTokenLen st.

(** [buf[buf0:buf1]], the bytes read in and not yet processed. *)
Definition unprocessed {R T : Type} (st : @StreamReplacingReader R T)
  : ByteSlice :=
  firstn (Z.to_nat (sr_buf1 st - sr_buf0 st))
    (skipn (Z.to_nat (sr_buf0 st)) (sr_buf st)).

(** [buf[0:buf1]], everything the engine holds. *)
Definition held {R T : Type} (st : @StreamReplacingReader R T) : ByteSlice :=
  firstn (Z.to_nat (sr_buf1 st)) (sr_buf st).

(** [buf[0:buf0]], the bytes ready for the caller. *)
Definition processed {R T : Type} (st : @StreamReplacingReader R T)
  : ByteSlice :=
  firstn (Z.to_nat (sr_buf0 st)) (sr_buf st).

(** Every member searches for a non-empty token, as in the sets that
    [NewReplacer] builds. *)
Definition nonEmptySearches (rep : replacer) : Prop :=
  forall er, In er (replaces rep) -> 1 <= len (search er).

(** No member's replacement is longer than its search token. *)
Definition noGrowingPair (rep : replacer) : Prop :=
  forall er, In er (replaces rep) -> len (replace er) <= len (search er).

(** The engine after the replacement of the token [s], found at offset [i]
    of the unprocessed bytes, by [p]: the body of the match branch of the
    scan, once its slice expressions passed their bounds checks. *)
Definition replaceAt {R T : Type} (st : @StreamReplacingReader R T) (i : Z)
    (s p : ByteSlice) : @StreamReplacingReader R T :=
  let idx := i + sr_buf0 st in
  let rest := firstn (Z.to_nat (sr_buf1 st - (idx + len s)))
                (skipn (Z.to_nat (idx + len s)) (sr_buf st)) in
  let b1 := copyAt (sr_buf st) (idx + len p)
              (sr_buf1 st + (len p - len s)) rest in
  let b2 := copyAt b1 idx (idx + len p) p in
  set_buf1 (set_buf0 (set_buf st b2) (idx + len p))
    (sr_buf1 st + (len p - len s)).

(** An engine of the set built from [oldnews] that holds [data], read in
    and not yet scanned. *)
Definition engineHolding (oldnews : list string) (data : ByteSlice)
  : @StreamReplacingReader ChunkReader replacer :=
  let st := engineOn oldnews [] 1 in
  set_buf1 (set_buf st (copyAt (sr_buf st) 0 (len (sr_buf st)) data))
    (len data).

Definition afterScan (st : @StreamReplacingReader ChunkReader replacer)
  : @StreamReplacingReader ChunkReader replacer :=
  match scan 64 st with
  | Ok st' => st'
  | _ => st
  end.

(** What [io.ReadAll] makes of the condition that ends the stream. *)
Definition readAllError (e : error) : option error :=
  match e with
  | EOF => None
  | _ => Some e
  end.

(** The source has nothing left and will answer [e]; no condition is
    recorded yet. *)
Definition sourceDry {T : Type} (st : @StreamReplacingReader ChunkReader T)
    (e : error) : Prop :=
  sr_err st = None /\
  exists rd, sr_r st = Some rd /\ cr_data rd = [] /\ cr_final rd = e.

(** The engine holds [pending] and no more input will come: either the
    condition [e] is already recorded, or the source is dry and the
    unprocessed tail fits below the fill bound. *)
Definition draining {T : Type} (st : @StreamReplacingReader ChunkReader T)
    (pending : ByteSlice) (e : error) : Prop :=
  held st = pending /\
  0 <= sr_buf0 st /\ sr_buf0 st <= sr_buf1 st /\
  sr_buf1 st <= len (sr_buf st) /\
  (flushed e pending st \/
   (sourceDry st e /\
    sr_buf1 st - sr_buf0 st <= sr_max st /\ sr_max st <= len (sr_buf st))).

(** The engine right after a pull that brought [data] and no condition and
    left the reader as [rd']: the bytes are in the buffer behind [buf1], not
    yet scanned. *)
Definition loaded {R T : Type} (st : @StreamReplacingReader R T)
    (data : ByteSlice) (rd' : R) : @StreamReplacingReader R T :=
  set_buf1
    (set_r_err
       (set_buf st (copyAt (sr_buf st) (sr_buf1 st) (sr_max st) data))
       rd' None)
    (sr_buf1 st + len data).

(** The source once all its bytes are taken. *)
Definition dried (rd : ChunkReader) : ChunkReader :=
  {| cr_data := []; cr_chunk := cr_chunk rd; cr_final := cr_final rd |}.

Definition afterPull (st : @StreamReplacingReader ChunkReader replacer)
  : @StreamReplacingReader ChunkReader replacer :=
  match fill 18 st with
  | Ok st' => st'
  | _ => st
  end.

(** Every member replaces its token by itself. *)
Definition identityPairs (rep : replacer) : Prop :=
  forall er, In er (replaces rep) -> replace er = search er.

(** No token of the set occurs in [x]. *)
Definition tokenFree (rep : replacer) (x : ByteSlice) : Prop :=
  forall er k, In er (replaces rep) -> ~ occursAt x (search er) k.

(** The source after [k] of its bytes are taken. *)
Definition advanced (rd : ChunkReader) (k : Z) : ChunkReader :=
  {| cr_data := skipn (Z.to_nat k) (cr_data rd);
     cr_chunk := cr_chunk rd; cr_final := cr_final rd |}.

(** An engine in the middle of a stream: no condition recorded, boundaries
    in order, an unprocessed tail shorter than the longest search token
    [m], a fill bound that leaves room beyond such a tail, and [pending] the
    bytes still to come out, those held and those the source still has. *)
Definition passing (rep : replacer) (m : Z)
    (st : @StreamReplacingReader ChunkReader replacer) (pending : ByteSlice)
    (e : error) : Prop :=
  sr_err st = None /\ sr_replacer st = Some rep /\
  sr_maxSearchTokenLen st = m /\ 1 <= m /\
  0 <= sr_buf0 st /\ sr_buf0 st <= sr_buf1 st /\
  sr_buf1 st <= len (sr_buf st) /\
  sr_buf1 st - sr_buf0 st <= m - 1 /\
  m <= sr_max st /\ sr_max st <= len (sr_buf st) /\
  exists rd,
    sr_r st = Some rd /\ 1 <= cr_chunk rd /\ cr_final rd = e /\
    pending = held st ++ cr_data rd.

(** A set with a growing replacement of 5000 bytes, hence a fill bound of
    one byte, and a search token of ten bytes. *)
Definition tightPairs : list string :=
  ["a"%string; string_of_list_byte (repeat "x"%byte 5000);
   "bbbbbbbbbb"%string; "c"%string].

(** * Theorems *)

(** ** Lengths *)

Lemma len_nonneg {A : Type} (s : list A) : 0 <= len s.
Proof. unfold len; lia. Qed.

Lemma len_nil_iff {A : Type} (s : list A) : len s = 0 <-> s = [].
Proof.
  unfold len; destruct s as [|a s]; simpl; split; intro H;
    try reflexivity; try discriminate; lia.
Qed.

Lemma len_app {A : Type} (s t : list A) : len (s ++ t) = len s + len t.
Proof. unfold len. rewrite List.length_app. lia. Qed.

(** ** Lists taken two at a time *)

Lemma list_pair_ind {A : Type} (P : list A -> Prop) :
  P [] -> (forall a, P [a]) -> (forall a b l, P l -> P (a :: b :: l)) ->
  forall l, P l.
Proof.
  intros Hnil Hone Hstep l.
  assert (H : P l /\ forall a, P (a :: l)).
  { induction l as [|b l [IH1 IH2]].
    - split; [exact Hnil | exact Hone].
    - split; [apply IH2 | intro a; apply Hstep; exact IH1]. }
  exact (proj1 H).
Qed.

Lemma flatPairs_cons2 (a b : string) (l : list string) :
  flatPairs (a :: b :: l) = (a, b) :: flatPairs l.
Proof.
  unfold flatPairs.
  replace (List.length (a :: b :: l) / 2)%nat with (S (List.length l / 2)).
  - cbn [seq map]. rewrite <- seq_shift, map_map.
    f_equal. apply map_ext. intro i. unfold pairAt.
    replace (2 * S i)%nat with (S (S (2 * i))) by lia.
    replace (2 * S i + 1)%nat with (S (S (2 * i + 1))) by lia.
    reflexivity.
  - change (List.length (a :: b :: l)) with (1 * 2 + List.length l)%nat.
    rewrite Nat.div_add_l by discriminate. reflexivity.
Qed.

Lemma flatPairs_short (l : list string) :
  (List.length l < 2)%nat -> flatPairs l = [].
Proof.
  intro H. unfold flatPairs.
  rewrite Nat.div_small by exact H. reflexivity.
Qed.

Lemma keptPairs_cons2 (a b : string) (l : list string) :
  keptPairs (a :: b :: l) =
  if String.eqb a EmptyString then keptPairs l
  else toByteReplace (a, b) :: keptPairs l.
Proof.
  unfold keptPairs. rewrite flatPairs_cons2. simpl.
  destruct (String.eqb a EmptyString); reflexivity.
Qed.

Lemma len_bytes_zero (s : string) :
  (len (list_byte_of_string s) =? 0) = String.eqb s EmptyString.
Proof. destruct s; reflexivity. Qed.

Lemma NewReplacer_loop_replaces (oldnews : list string) :
  forall res,
    replaces (NewReplacer_loop oldnews res) = replaces res ++ keptPairs oldnews.
Proof.
  induction oldnews as [|a|a b l IH] using list_pair_ind; intro res.
  - simpl. rewrite app_nil_r. reflexivity.
  - simpl. rewrite app_nil_r. reflexivity.
  - rewrite keptPairs_cons2. simpl NewReplacer_loop.
    rewrite len_bytes_zero.
    destruct (String.eqb a EmptyString).
    + apply IH.
    + rewrite IH. simpl. rewrite <- app_assoc. reflexivity.
Qed.

Lemma len_mod2_odd {A : Type} (l : list A) :
  (len l mod 2 =? 1) = Nat.odd (List.length l).
Proof.
  unfold len.
  induction l as [|a|a b l IH] using list_pair_ind; try reflexivity.
  change (List.length (a :: b :: l)) with (S (S (List.length l))).
  rewrite Nat.odd_succ_succ, <- IH.
  replace (Z.of_nat (S (S (List.length l))))
    with (Z.of_nat (List.length l) + 1 * 2) by lia.
  rewrite Z.mod_add by discriminate. reflexivity.
Qed.

(** C8.  [NewReplacer] panics exactly on an argument list of odd length;
    on an even one it returns the set of the pairs whose search string is not
    empty, in input order (the pairs with an empty search string are dropped
    without an error). *)
Theorem NewReplacer_odd_panics_else_keeps_nonempty (oldnews : list string) :
  match NewReplacer oldnews with
  | Panic _ => Nat.odd (List.length oldnews) = true
  | Ok res =>
      Nat.odd (List.length oldnews) = false /\
      replaces res = keptPairs oldnews
  | OutOfFuel => False
  end.
Proof.
  unfold NewReplacer. rewrite len_mod2_odd.
  destruct (Nat.odd (List.length oldnews)).
  - reflexivity.
  - split; [reflexivity|]. rewrite NewReplacer_loop_replaces. reflexivity.
Qed.

(** ** Sizing hints of the aggregated set *)

Lemma maxLen_snoc (f : byteReplace -> ByteSlice) (l : list byteReplace)
    (er : byteReplace) :
  maxLen f (l ++ [er]) = Z.max (maxLen f l) (len (f er)).
Proof.
  unfold maxLen. induction l as [|a l IH]; simpl.
  - pose proof (len_nonneg (f er)). lia.
  - rewrite IH. lia.
Qed.

Lemma Qgtb_true (a b : Q) : Qgtb a b = true <-> (b < a)%Q.
Proof.
  unfold Qgtb. rewrite negb_true_iff. split; intro H.
  - apply Qnot_le_lt. intro Hle. apply Qle_bool_iff in Hle. congruence.
  - destruct (Qle_bool a b) eqn:E; [|reflexivity].
    apply Qle_bool_iff in E. exfalso. exact (Qlt_not_le _ _ H E).
Qed.

Lemma Qgtb_false (a b : Q) : Qgtb a b = false <-> (a <= b)%Q.
Proof.
  unfold Qgtb. rewrite negb_false_iff. apply Qle_bool_iff.
Qed.

Lemma pairRatio_bounds (er : byteReplace) :
  0 < len (search er) -> growing er -> (0 < pairRatio er < 1)%Q.
Proof.
  unfold growing, pairRatio. intros Hpos Hgrow.
  assert (Hr : (0 < inject_Z (len (replace er)))%Q).
  { change 0%Q with (inject_Z 0). rewrite <- Zlt_Qlt. lia. }
  split.
  - apply Qlt_shift_div_l; [exact Hr|].
    rewrite Qmult_0_l. change 0%Q with (inject_Z 0). rewrite <- Zlt_Qlt. lia.
  - apply Qlt_shift_div_r; [exact Hr|].
    rewrite Qmult_1_l. rewrite <- Zlt_Qlt. exact Hgrow.
Qed.

Lemma ratioInv_snoc (l : list byteReplace) (q : Q) (er : byteReplace) :
  0 < len (search er) ->
  ratioInv l q ->
  let ratio := snd (byteReplace_GetSizingHints er) in
  ratioInv (l ++ [er]) (if Qgtb ratio q then ratio else q).
Proof.
  intros Hpos Hinv. unfold byteReplace_GetSizingHints. cbn [snd].
  destruct (len (search er) <? len (replace er)) eqn:Eg.
  - (* the new pair grows *)
    apply Z.ltb_lt in Eg. fold (pairRatio er).
    pose proof (pairRatio_bounds er Hpos Eg) as Hb.
    destruct (Qgtb (pairRatio er) q) eqn:Ec.
    + apply Qgtb_true in Ec. right. split; [exact Hb|]. split.
      * exists er. split; [apply in_or_app; right; left; reflexivity|].
        split; [exact Eg | reflexivity].
      * intros er' Hin Hg. apply in_app_or in Hin.
        destruct Hin as [Hin|[->|[]]]; [|apply Qle_refl].
        destruct Hinv as [[_ Hno]|[_ [_ Hall]]].
        -- exfalso. exact (Hno er' Hin Hg).
        -- apply Qle_trans with q; [apply Hall; assumption|].
           apply Qlt_le_weak. exact Ec.
    + apply Qgtb_false in Ec.
      destruct Hinv as [[Heq _]|[Hq [[w [Hw1 [Hw2 Hw3]]] Hall]]].
      * exfalso. rewrite Heq in Ec. destruct Hb as [Hb _].
        apply (Qlt_not_le _ _ Hb). apply Qle_trans with (-1)%Q; [exact Ec|].
        discriminate.
      * right. split; [exact Hq|]. split.
        -- exists w. split; [apply in_or_app; left; exact Hw1|]. tauto.
        -- intros er' Hin Hg. apply in_app_or in Hin.
           destruct Hin as [Hin|[->|[]]]; [apply Hall; assumption | exact Ec].
  - (* the new pair does not grow: its ratio is the sentinel -1 *)
    apply Z.ltb_ge in Eg.
    assert (Hkeep : forall er', In er' (l ++ [er]) -> growing er' ->
                                In er' l).
    { intros er' Hin Hg. apply in_app_or in Hin.
      destruct Hin as [Hin|[->|[]]]; [exact Hin|].
      unfold growing in Hg. lia. }
    destruct Hinv as [[Heq Hno]|[Hq [[w [Hw1 [Hw2 Hw3]]] Hall]]].
    + destruct (Qgtb (-1) q) eqn:Ec.
      * left. split; [reflexivity|]. intros er' Hin Hg.
        exact (Hno er' (Hkeep er' Hin Hg) Hg).
      * left. split; [exact Heq|]. intros er' Hin Hg.
        exact (Hno er' (Hkeep er' Hin Hg) Hg).
    + destruct (Qgtb (-1) q) eqn:Ec.
      * exfalso. apply Qgtb_true in Ec. destruct Hq as [Hq _].
        apply (Qlt_not_le _ _ Ec). apply Qle_trans with 0%Q;
          [discriminate | apply Qlt_le_weak; exact Hq].
      * right. split; [exact Hq|]. split.
        -- exists w. split; [apply in_or_app; left; exact Hw1|]. tauto.
        -- intros er' Hin Hg. apply Hall; [apply Hkeep|]; assumption.
Qed.

Lemma NewReplacer_loop_hints (oldnews : list string) :
  forall res, hintsInv res -> hintsInv (NewReplacer_loop oldnews res).
Proof.
  induction oldnews as [|a|a b l IH] using list_pair_ind; intros res Hinv;
    try exact Hinv.
  simpl NewReplacer_loop.
  destruct (len (list_byte_of_string a) =? 0) eqn:Ea; [apply IH; exact Hinv|].
  apply Z.eqb_neq in Ea.
  apply IH. destruct Hinv as [Hs [Hp Hq]].
  unfold hintsInv. cbn [replaces maxSearchLen maxReplaceLen maxRatio search replace].
  rewrite !maxLen_snoc. cbn [search replace]. rewrite <- Hs, <- Hp.
  split; [|split].
  - destruct (len (list_byte_of_string a) >? maxSearchLen res) eqn:E;
      [apply Z.gtb_lt in E | rewrite Z.gtb_ltb in E; apply Z.ltb_ge in E]; lia.
  - destruct (len (list_byte_of_string b) >? maxReplaceLen res) eqn:E;
      [apply Z.gtb_lt in E | rewrite Z.gtb_ltb in E; apply Z.ltb_ge in E]; lia.
  - apply (ratioInv_snoc (replaces res) (maxRatio res)
             {| search := list_byte_of_string a;
                replace := list_byte_of_string b |}); [|exact Hq].
    cbn [search]. pose proof (len_nonneg (list_byte_of_string a)). lia.
Qed.

(** C3 (amended).  The two length hints of the set built by [NewReplacer] are
    the maxima of the search and of the replacement lengths over the kept
    pairs.  The ratio hint is the MAXIMUM, over the kept pairs whose
    replacement is longer than their search token, of
    [len(search)/len(replace)], a value strictly between 0 and 1; it is the
    negative sentinel -1 when no kept pair grows. *)
Theorem NewReplacer_hints_are_maxima (oldnews : list string) :
  match NewReplacer oldnews with
  | Ok res =>
      let '(s, p, q) := GetSizingHints res in
      s = maxLen search (keptPairs oldnews) /\
      p = maxLen replace (keptPairs oldnews) /\
      (((q == -1)%Q /\ forall er, In er (keptPairs oldnews) -> ~ growing er) \/
       ((0 < q < 1)%Q /\
        (exists er,
            In er (keptPairs oldnews) /\ growing er /\ (q == pairRatio er)%Q) /\
        (forall er,
            In er (keptPairs oldnews) -> growing er -> (pairRatio er <= q)%Q)))
  | _ => Nat.odd (List.length oldnews) = true
  end.
Proof.
  unfold NewReplacer. rewrite len_mod2_odd.
  destruct (Nat.odd (List.length oldnews)); [reflexivity|].
  set (res0 := {| index := 0; replaces := []; maxSearchLen := 0;
                  maxReplaceLen := 0; maxRatio := (-1)%Q |}).
  assert (H0 : hintsInv res0).
  { unfold hintsInv, res0; cbn. split; [reflexivity|]. split; [reflexivity|].
    left. split; [reflexivity|]. intros er []. }
  pose proof (NewReplacer_loop_hints oldnews res0 H0) as [Hs [Hp Hq]].
  rewrite NewReplacer_loop_replaces in Hs, Hp, Hq. cbn [replaces res0 app] in *.
  cbn [GetSizingHints replacer_BytesReplacer replacer_GetSizingHints].
  split; [exact Hs|]. split; [exact Hp|]. exact Hq.
Qed.

Local Open Scope string_scope.

(** C3 (counterexample).  For ["a"->"bb", "c"->"dddd"] the reported ratio is
    1/2, above the ratio 1/4 of the second growing pair: it is not the
    minimum. *)
Lemma ratio_is_not_minimum : ~ ratio_is_minimum ["a"; "bb"; "c"; "dddd"].
Proof.
  intro H.
  specialize (H _ eq_refl (toByteReplace ("c", "dddd"))).
  assert (Hle : (1 # 2 <= 1 # 4)%Q).
  { apply H.
    - cbn. right. left. reflexivity.
    - unfold growing. cbn. lia. }
  revert Hle. apply Qlt_not_le. reflexivity.
Qed.

Local Close Scope string_scope.

(** ** The aggregated [Index] *)

Lemma nth_error_snoc_inv {A : Type} (l : list A) (x y : A) (j : nat) :
  nth_error (l ++ [x]) j = Some y ->
  ((j < List.length l)%nat /\ nth_error l j = Some y) \/
  (j = List.length l /\ y = x).
Proof.
  intro H. destruct (Nat.lt_ge_cases j (List.length l)) as [Hlt|Hge].
  - left. split; [exact Hlt|]. rewrite nth_error_app1 in H; assumption.
  - right. rewrite nth_error_app2 in H by exact Hge.
    destruct (j - List.length l)%nat as [|d] eqn:Ed.
    + simpl in H. inversion H. split; [lia | reflexivity].
    + simpl in H. destruct d; discriminate.
Qed.

Lemma leftmostFirst_step (pre : list byteReplace) (buf : ByteSlice)
    (acc : Z * ByteSlice * ByteSlice) (er : byteReplace) :
  leftmostFirst pre buf acc ->
  leftmostFirst (pre ++ [er]) buf
    (if (memberIndex buf er >=? 0) &&
        ((fst (fst acc) =? -1) || (memberIndex buf er <? fst (fst acc)))
     then (memberIndex buf er, search er, replace er) else acc).
Proof.
  intros [[-> Hnone]|[k [er0 [Hk [H0 [-> [Hmin Hfirst]]]]]]]; cbn [fst].
  - (* nothing found so far *)
    rewrite Z.eqb_refl, orb_true_l, andb_true_r.
    destruct (memberIndex buf er >=? 0) eqn:E.
    + apply Z.geb_le in E. right. exists (List.length pre), er.
      split; [rewrite nth_error_app2, Nat.sub_diag by lia; reflexivity|].
      split; [exact E|]. split; [reflexivity|]. split.
      * intros j er' Hj Hpos. apply nth_error_snoc_inv in Hj.
        destruct Hj as [[_ Hj]|[_ ->]]; [|lia].
        apply nth_error_In in Hj. specialize (Hnone _ Hj). lia.
      * intros j er' Hlt Hj Hpos. apply nth_error_snoc_inv in Hj.
        destruct Hj as [[_ Hj]|[Hj _]]; [|lia].
        apply nth_error_In in Hj. specialize (Hnone _ Hj). lia.
    + rewrite Z.geb_leb in E. apply Z.leb_gt in E.
      left. split; [reflexivity|]. intros er' Hin. apply in_app_or in Hin.
      destruct Hin as [Hin|[<-|[]]]; [apply Hnone; exact Hin | exact E].
  - (* [er0], the member [k], is the best so far *)
    assert (Hklt : (k < List.length pre)%nat).
    { apply nth_error_Some. congruence. }
    destruct ((memberIndex buf er >=? 0) &&
              ((memberIndex buf er0 =? -1) ||
               (memberIndex buf er <? memberIndex buf er0))) eqn:E.
    + apply andb_true_iff in E. destruct E as [E1 E2].
      apply Z.geb_le in E1. apply orb_true_iff in E2.
      destruct E2 as [E2|E2]; [apply Z.eqb_eq in E2; lia|].
      apply Z.ltb_lt in E2.
      right. exists (List.length pre), er.
      split; [rewrite nth_error_app2, Nat.sub_diag by lia; reflexivity|].
      split; [exact E1|]. split; [reflexivity|]. split.
      * intros j er' Hj Hpos. apply nth_error_snoc_inv in Hj.
        destruct Hj as [[_ Hj]|[_ ->]]; [|lia].
        specialize (Hmin _ _ Hj Hpos). lia.
      * intros j er' Hlt Hj Hpos. apply nth_error_snoc_inv in Hj.
        destruct Hj as [[_ Hj]|[Hj _]]; [|lia].
        specialize (Hmin _ _ Hj Hpos). lia.
    + right. exists k, er0.
      split; [rewrite nth_error_app1 by exact Hklt; exact Hk|].
      split; [exact H0|]. split; [reflexivity|].
      apply andb_false_iff in E. split.
      * intros j er' Hj Hpos. apply nth_error_snoc_inv in Hj.
        destruct Hj as [[_ Hj]|[_ ->]]; [exact (Hmin _ _ Hj Hpos)|].
        destruct E as [E|E].
        -- rewrite Z.geb_leb in E. apply Z.leb_gt in E. lia.
        -- apply orb_false_iff in E. destruct E as [_ E].
           apply Z.ltb_ge in E. exact E.
      * intros j er' Hlt Hj Hpos. apply nth_error_snoc_inv in Hj.
        destruct Hj as [[_ Hj]|[Hj _]]; [exact (Hfirst _ _ Hlt Hj Hpos)|lia].
Qed.

Lemma replacer_Index_loop_spec (rs : list byteReplace) (buf : ByteSlice) :
  forall pre acc,
    leftmostFirst pre buf acc ->
    leftmostFirst (pre ++ rs) buf (replacer_Index_loop rs buf acc).
Proof.
  induction rs as [|er rs IH]; intros pre acc Hacc.
  - rewrite app_nil_r. exact Hacc.
  - cbn [replacer_Index_loop Index byteReplace_BytesReplacer byteReplace_Index].
    replace (pre ++ er :: rs) with ((pre ++ [er]) ++ rs)
      by (rewrite <- app_assoc; reflexivity).
    apply IH. apply leftmostFirst_step. exact Hacc.
Qed.

Lemma replacer_Index_nonempty (r : replacer) (buf : ByteSlice) :
  buf <> [] -> leftmostFirst (replaces r) buf (replacer_Index r buf).
Proof.
  intro Hne. unfold replacer_Index.
  destruct (len buf =? 0) eqn:E.
  - apply Z.eqb_eq in E. apply len_nil_iff in E. contradiction.
  - apply (replacer_Index_loop_spec (replaces r) buf [] (-1, [], [])).
    left. split; [reflexivity|]. intros er [].
Qed.

(** C5.  On an empty buffer the aggregated [Index] returns -1 with nil tokens.
    On any other buffer it returns -1 with nil tokens when no member matches,
    and otherwise the member occurrence of smallest index together with that
    member's pair; when several members match at that smallest index, the one
    registered first is returned. *)
Theorem replacer_Index_leftmost_first_registered (r : replacer)
    (buf : ByteSlice) :
  match buf with
  | [] => Index r buf = (-1, [], [])
  | _ :: _ => leftmostFirst (replaces r) buf (Index r buf)
  end.
Proof.
  destruct buf as [|c buf]; [reflexivity|].
  apply replacer_Index_nonempty. discriminate.
Qed.

(** ** The fixed-size pool *)

(** C9.  [Put] of a buffer whose length differs from the pool's buffer size
    returns an error and leaves the pool, its free list included, exactly as
    it was. *)
Theorem Put_wrong_size_is_error_and_pool_unchanged (fp : fixed.Allocator)
    (b : ByteSlice) :
  len b <> fixed.bufSize fp ->
  exists e, fixed.Put fp b = (Some e, fp) /\
            fixed.freeList (snd (fixed.Put fp b)) = fixed.freeList fp.
Proof.
  intro Hne. unfold fixed.Put.
  apply Z.eqb_neq in Hne. rewrite Hne. cbn [negb].
  eexists. split; reflexivity.
Qed.

(** C9 on a pool of 2-byte buffers and a 3-byte buffer. *)
Lemma Put_wrong_size_witness :
  exists e,
    fixed.Put {| fixed.freeList := [[x01; x02]]; fixed.freeCap := 4;
                 fixed.bufSize := 2 |} [x01; x02; x03] =
    (Some e, {| fixed.freeList := [[x01; x02]]; fixed.freeCap := 4;
                fixed.bufSize := 2 |}) /\
    fixed.freeList
      (snd (fixed.Put {| fixed.freeList := [[x01; x02]]; fixed.freeCap := 4;
                         fixed.bufSize := 2 |} [x01; x02; x03])) =
    [[x01; x02]].
Proof.
  apply (Put_wrong_size_is_error_and_pool_unchanged
           {| fixed.freeList := [[x01; x02]]; fixed.freeCap := 4;
              fixed.bufSize := 2 |} [x01; x02; x03]).
  vm_compute. discriminate.
Defined.

(** ** [float64] rounding *)

Lemma Qabs_eq (q : Q) : (0 <= q)%Q -> Qabs q = q.
Proof.
  destruct q as [n d]. unfold Qle, Qabs. cbn. intro H.
  rewrite Z.abs_eq by lia. reflexivity.
Qed.

Lemma pow2_pos (k : Z) : (0 < pow2 k)%Q.
Proof. apply Qpower_0_lt. reflexivity. Qed.

Lemma pow2_nonpos (e : Z) :
  e <= 0 -> (pow2 e == / inject_Z (2 ^ (- e)))%Q.
Proof.
  intro He. unfold pow2.
  replace e with (- (- e)) at 1 by lia.
  rewrite Qpower_opp. rewrite Zpower_Qpower by lia. reflexivity.
Qed.

Lemma roundEven_le (x : Q) (k : Z) :
  (x <= inject_Z k)%Q -> roundEven x <= k.
Proof.
  intro H. unfold roundEven.
  pose proof (Qfloor_le x) as Hf.
  assert (Hk : Qfloor x <= k).
  { rewrite <- (Qfloor_Z k). apply Qfloor_resp_le. exact H. }
  assert (Hup : (inject_Z (Qfloor x) < x)%Q -> Qfloor x + 1 <= k).
  { intro Hlt. assert (Hz : (inject_Z (Qfloor x) < inject_Z k)%Q) by lra.
    rewrite <- Zlt_Qlt in Hz. lia. }
  destruct (Qcompare_spec (x - inject_Z (Qfloor x)) (1 # 2)) as [E|E|E].
  - destruct (Z.even (Qfloor x)); [exact Hk|]. apply Hup. lra.
  - exact Hk.
  - apply Hup. lra.
Qed.

Lemma roundEven_ge (x : Q) (k : Z) :
  (inject_Z k <= x)%Q -> k <= roundEven x.
Proof.
  intro H. unfold roundEven.
  assert (Hk : k <= Qfloor x).
  { rewrite <- (Qfloor_Z k). apply Qfloor_resp_le. exact H. }
  destruct (Qcompare (x - inject_Z (Qfloor x)) (1 # 2));
    [destruct (Z.even (Qfloor x))| |]; lia.
Qed.

(** What [float64] is on a positive rational whose unit in the last place
    is at most 1. *)
Lemma float64_fine (q : Q) :
  (0 < q)%Q -> ulpExp q <= 0 ->
  let t := 2 ^ (- ulpExp q) in
  (float64 q ==
   inject_Z (roundEven (q / pow2 (ulpExp q))) / inject_Z t)%Q /\
  (q / pow2 (ulpExp q) == q * inject_Z t)%Q /\ 0 < t.
Proof.
  intros Hq He t.
  assert (Ht : 0 < t) by (unfold t; apply Z.pow_pos_nonneg; lia).
  assert (Htq : (0 < inject_Z t)%Q).
  { change 0%Q with (inject_Z 0). rewrite <- Zlt_Qlt. exact Ht. }
  pose proof (pow2_nonpos (ulpExp q) He) as Hp. fold t in Hp.
  split; [|split; [|exact Ht]].
  - unfold float64. rewrite (Qabs_eq q) by lra.
    destruct (Qeq_bool q 0) eqn:E0.
    { apply Qeq_bool_iff in E0. lra. }
    assert (E1 : Qle_bool 0 q = true) by (apply Qle_bool_iff; lra).
    rewrite E1, Qred_correct.
    set (m := inject_Z (roundEven (q / pow2 (ulpExp q)))). clearbody m.
    rewrite Hp. reflexivity.
  - rewrite Hp. field. lra.
Qed.

Lemma float64_le_int (q : Q) (k : Z) :
  (0 < q)%Q -> ulpExp q <= 0 -> (q <= inject_Z k)%Q ->
  (float64 q <= inject_Z k)%Q.
Proof.
  intros Hq He Hk.
  destruct (float64_fine q Hq He) as [Hf [Hx Ht]].
  set (t := 2 ^ (- ulpExp q)) in *.
  assert (Htq : (0 < inject_Z t)%Q).
  { change 0%Q with (inject_Z 0). rewrite <- Zlt_Qlt. exact Ht. }
  assert (Hm : roundEven (q / pow2 (ulpExp q)) <= k * t).
  { apply roundEven_le. rewrite Hx, inject_Z_mult.
    apply Qmult_le_compat_r; lra. }
  rewrite Hf. apply Qle_shift_div_r; [exact Htq|].
  rewrite <- inject_Z_mult, <- Zle_Qle. exact Hm.
Qed.

Lemma float64_ge_int (q : Q) (k : Z) :
  (0 < q)%Q -> ulpExp q <= 0 -> (inject_Z k <= q)%Q ->
  (inject_Z k <= float64 q)%Q.
Proof.
  intros Hq He Hk.
  destruct (float64_fine q Hq He) as [Hf [Hx Ht]].
  set (t := 2 ^ (- ulpExp q)) in *.
  assert (Htq : (0 < inject_Z t)%Q).
  { change 0%Q with (inject_Z 0). rewrite <- Zlt_Qlt. exact Ht. }
  assert (Hm : k * t <= roundEven (q / pow2 (ulpExp q))).
  { apply roundEven_ge. rewrite Hx, inject_Z_mult.
    apply Qmult_le_compat_r; lra. }
  rewrite Hf. apply Qle_shift_div_l; [exact Htq|].
  rewrite <- inject_Z_mult, <- Zle_Qle. exact Hm.
Qed.

(** Below [2^53] the unit in the last place is at most 1. *)
Lemma ulpExp_fine (q : Q) :
  (0 < q)%Q -> (q < inject_Z (2 ^ 53))%Q -> ulpExp q <= 0.
Proof.
  intros Hq Hlt. unfold ulpExp.
  enough (binade q <= 52) by lia.
  unfold binade.
  destruct q as [n d]. cbn [Qnum Qden].
  assert (Hn : 0 < n) by (unfold Qlt in Hq; cbn in Hq; lia).
  assert (Hnd : n < 2 ^ 53 * Z.pos d) by (unfold Qlt in Hlt; cbn in Hlt; lia).
  assert (He0 : Z.log2 n - Z.log2 (Z.pos d) <= 53).
  { assert (H1 : Z.log2 n <= Z.log2 (Z.pos d * 2 ^ 53))
      by (apply Z.log2_le_mono; lia).
    rewrite Z.log2_mul_pow2 in H1 by lia. lia. }
  destruct (Qle_bool (pow2 (Z.log2 n - Z.log2 (Z.pos d))) (n # d)) eqn:E;
    [|lia].
  apply Qle_bool_iff in E.
  destruct (Z.eq_dec (Z.log2 n - Z.log2 (Z.pos d)) 53) as [E53|]; [|lia].
  rewrite E53 in E. exfalso.
  assert (Hp : (pow2 53 == inject_Z (2 ^ 53))%Q).
  { unfold pow2. rewrite Zpower_Qpower by lia. reflexivity. }
  rewrite Hp in E. lra.
Qed.

Lemma float64_nonneg (q : Q) : (0 <= q)%Q -> (0 <= float64 q)%Q.
Proof.
  intro Hq. unfold float64. rewrite (Qabs_eq q Hq).
  destruct (Qeq_bool q 0); [lra|].
  assert (E1 : Qle_bool 0 q = true) by (apply Qle_bool_iff; exact Hq).
  rewrite E1, Qred_correct.
  apply Qmult_le_0_compat; [|apply Qlt_le_weak, pow2_pos].
  change 0%Q with (inject_Z 0). rewrite <- Zle_Qle.
  apply roundEven_ge. change (inject_Z 0) with 0%Q.
  apply Qle_shift_div_l; [apply pow2_pos | lra].
Qed.

Lemma float64_zero (q : Q) : (q == 0)%Q -> float64 q = 0%Q.
Proof.
  intro H. unfold float64.
  assert (E : Qeq_bool (Qabs q) 0 = true).
  { apply Qeq_bool_iff. rewrite H. reflexivity. }
  rewrite E. reflexivity.
Qed.

(** Integers below [2^53] are their own [float64]. *)
Lemma float64_int (n : Z) :
  0 <= n < 2 ^ 53 -> (float64 (inject_Z n) == inject_Z n)%Q.
Proof.
  intros [H0 H1].
  destruct (Z.eq_dec n 0) as [->|Hn]; [reflexivity|].
  assert (Hq : (0 < inject_Z n)%Q).
  { change 0%Q with (inject_Z 0). rewrite <- Zlt_Qlt. lia. }
  assert (He : ulpExp (inject_Z n) <= 0).
  { apply ulpExp_fine; [exact Hq|]. rewrite <- Zlt_Qlt. exact H1. }
  apply Qle_antisym.
  - apply float64_le_int; [exact Hq | exact He | lra].
  - apply float64_ge_int; [exact Hq | exact He | lra].
Qed.

Lemma truncate_nonneg (x : Q) : (0 <= x)%Q -> truncate x = Qfloor x.
Proof.
  intro H. unfold truncate.
  assert (E : Qle_bool 0 x = true) by (apply Qle_bool_iff; exact H).
  rewrite E. reflexivity.
Qed.

(** The scaled length lies between the floor and the ceiling of the exact
    product of the [float64] ratio and the length, and inside [0, n]. *)
Lemma scaleLen_bounds (q : Q) (n : Z) :
  (0 < q <= 1)%Q -> 0 <= n < 2 ^ 53 ->
  Qfloor (float64 q * inject_Z n) <= scaleLen q n
    <= Qceiling (float64 q * inject_Z n) /\
  0 <= scaleLen q n <= n.
Proof.
  intros [Hq0 Hq1] Hn.
  assert (Hf0 : (0 <= float64 q)%Q) by (apply float64_nonneg; lra).
  assert (Hf1 : (float64 q <= 1)%Q).
  { apply (float64_le_int q 1 Hq0); [|exact Hq1].
    apply ulpExp_fine; [exact Hq0|].
    apply Qle_lt_trans with 1%Q; [exact Hq1 | reflexivity]. }
  pose proof (float64_int n Hn) as Hfn.
  assert (Hnq : (0 <= inject_Z n)%Q).
  { change 0%Q with (inject_Z 0). rewrite <- Zle_Qle. lia. }
  set (y := (float64 q * inject_Z n)%Q).
  set (y' := (float64 q * float64 (inject_Z n))%Q).
  assert (Hyy : (y' == y)%Q) by (unfold y, y'; rewrite Hfn; reflexivity).
  assert (Hy0 : (0 <= y)%Q) by (unfold y; apply Qmult_le_0_compat; assumption).
  assert (Hyn : (y <= inject_Z n)%Q).
  { unfold y. rewrite <- (Qmult_1_l (inject_Z n)) at 2.
    apply Qmult_le_compat_r; assumption. }
  assert (Hfl : (0 <= float64 y')%Q) by (apply float64_nonneg; lra).
  unfold scaleLen. fold y'. rewrite truncate_nonneg by exact Hfl.
  assert (Hlow : Qfloor y <= Qfloor (float64 y')).
  { destruct (Qlt_le_dec 0 y') as [Hpos|Hz].
    - rewrite <- (Qfloor_Z (Qfloor y)). apply Qfloor_resp_le.
      apply float64_ge_int; [exact Hpos| |].
      + apply ulpExp_fine; [exact Hpos|].
        apply Qle_lt_trans with (inject_Z n); [lra|].
        rewrite <- Zlt_Qlt. lia.
      + rewrite Hyy. apply Qfloor_le.
    - rewrite (float64_zero y') by lra.
      apply Qfloor_resp_le. lra. }
  assert (Hcn : Qceiling y <= n).
  { rewrite <- (Qceiling_Z n). apply Qceiling_resp_le. exact Hyn. }
  assert (Hup : Qfloor (float64 y') <= Qceiling y).
  { destruct (Qlt_le_dec 0 y') as [Hpos|Hz].
    - rewrite <- (Qfloor_Z (Qceiling y)). apply Qfloor_resp_le.
      apply float64_le_int; [exact Hpos| |].
      + apply ulpExp_fine; [exact Hpos|].
        apply Qle_lt_trans with (inject_Z n); [lra|].
        rewrite <- Zlt_Qlt. lia.
      + rewrite Hyy. apply Qle_ceiling.
    - rewrite (float64_zero y') by lra.
      change (Qfloor 0) with 0. rewrite <- (Qceiling_Z 0).
      apply Qceiling_resp_le. exact Hy0. }
  assert (H0 : 0 <= Qfloor y).
  { rewrite <- (Qfloor_Z 0). apply Qfloor_resp_le. exact Hy0. }
  lia.
Qed.

Lemma scaleLen_nonneg (q : Q) (n : Z) :
  (0 <= q)%Q -> 0 <= n -> 0 <= scaleLen q n.
Proof.
  intros Hq Hn.
  assert (Hnq : (0 <= inject_Z n)%Q).
  { change 0%Q with (inject_Z 0). rewrite <- Zle_Qle. exact Hn. }
  assert (Hy : (0 <= float64 q * float64 (inject_Z n))%Q).
  { apply Qmult_le_0_compat; apply float64_nonneg; assumption. }
  unfold scaleLen. rewrite truncate_nonneg by (apply float64_nonneg; exact Hy).
  rewrite <- (Qfloor_Z 0). apply Qfloor_resp_le.
  apply float64_nonneg. exact Hy.
Qed.

(** Beyond [2^53] the conversion of a length rounds: both lengths of the
    pair round to [2^54 + 8], the ratio is 1, and the scaled length exceeds
    the length itself. *)
Example scaleLen_beyond_exact_lengths :
  let n := 2 ^ 54 + 7 in
  scaleLen (inject_Z (n - 1) / inject_Z n) n = n + 1.
Proof. vm_compute. reflexivity. Qed.

(** ** [ResetEx] *)

Lemma max_Zmax (a b : Z) : max a b = Z.max a b.
Proof.
  unfold max. destruct (a >? b) eqn:E.
  - apply Z.gtb_lt in E. lia.
  - rewrite Z.gtb_ltb in E. apply Z.ltb_ge in E. lia.
Qed.

Lemma len_make (n : Z) : 0 <= n -> len (make n) = n.
Proof. intro H. unfold len, make. rewrite repeat_length. lia. Qed.

(** C4 (amended).  [ResetEx] with a reader and a set whose maximal search
    length is not 0 succeeds.  The buffer it leaves has capacity
    [max(4096, maxSearchLen, maxReplaceLen)], unless the engine already held
    a buffer at least that long, which is kept with its own length.  The fill
    bound is that actual capacity when the reported ratio is not positive.
    Otherwise it is [int(ratio * float64(capacity))] as [float64] arithmetic
    gives it: ratio and capacity as [float64], their product rounded to the
    nearest [float64], the fraction dropped.  For a ratio of at most 1 and a
    capacity below [2^53] that is the floor of the exact product of the
    [float64] ratio and the capacity, or one more when the product rounds up
    to a whole number, and it lies between 0 and the capacity.  Both
    boundaries are reset to 0 and the terminal condition is cleared. *)
Theorem ResetEx_capacity_and_fill_bound {R T : Type} {io : IoReader R}
    {br : BytesReplacer T} (r : @StreamReplacingReader R T) (rd : R) (rep : T) :
  fst (fst (GetSizingHints rep)) <> 0 ->
  exists st,
    ResetEx r (Some rd) rep = Ok st /\
    len (sr_buf st) =
      Z.max (len (sr_buf r))
        (Z.max 4096 (Z.max (fst (fst (GetSizingHints rep)))
                           (snd (fst (GetSizingHints rep))))) /\
    ((snd (GetSizingHints rep) <= 0)%Q -> sr_max st = len (sr_buf st)) /\
    ((0 < snd (GetSizingHints rep))%Q ->
     sr_max st =
       truncate
         (float64 (float64 (snd (GetSizingHints rep))
                   * float64 (inject_Z (len (sr_buf st))))) /\
     ((snd (GetSizingHints rep) <= 1)%Q -> len (sr_buf st) < 2 ^ 53 ->
      Qfloor (float64 (snd (GetSizingHints rep))
              * inject_Z (len (sr_buf st)))
        <= sr_max st
        <= Qceiling (float64 (snd (GetSizingHints rep))
                     * inject_Z (len (sr_buf st))) /\
      0 <= sr_max st <= len (sr_buf st))) /\
    sr_buf0 st = 0 /\ sr_buf1 st = 0 /\ sr_err st = None.
Proof.
  intro Hs. unfold ResetEx.
  destruct (GetSizingHints rep) as [[s p] q]. cbn [fst snd] in *.
  apply Z.eqb_neq in Hs. rewrite Hs.
  eexists. split; [reflexivity|]. cbn [sr_buf sr_max sr_buf0 sr_buf1 sr_err].
  rewrite !max_Zmax. unfold defaultBufSize.
  set (B := Z.max 4096 (Z.max s p)).
  assert (HB : 4096 <= B) by (unfold B; lia).
  assert (Hcap : len (if (len (sr_buf r) =? 0) || (len (sr_buf r) <? B)
                      then make B else sr_buf r) = Z.max (len (sr_buf r)) B).
  { destruct ((len (sr_buf r) =? 0) || (len (sr_buf r) <? B)) eqn:E.
    - rewrite len_make by lia. apply orb_true_iff in E.
      destruct E as [E|E]; [apply Z.eqb_eq in E | apply Z.ltb_lt in E]; lia.
    - apply orb_false_iff in E. destruct E as [_ E]. apply Z.ltb_ge in E. lia. }
  split; [exact Hcap|]. split; [|split].
  - intro Hq. apply Qgtb_false in Hq. rewrite Hq. reflexivity.
  - intro Hq. pose proof Hq as Hq'. apply Qgtb_true in Hq'. rewrite Hq'.
    split; [reflexivity|].
    intros Hq1 Hlen.
    set (buf := if (len (sr_buf r) =? 0) || (len (sr_buf r) <? B)
                then make B else sr_buf r) in *.
    fold (scaleLen q (len buf)).
    apply scaleLen_bounds; [split; assumption|].
    pose proof (len_nonneg buf). lia.
  - repeat split.
Qed.

(** ** Facts on slices and [copy] *)

Lemma slice_inv (b : ByteSlice) (lo hi : Z) (r : ByteSlice) :
  slice b lo hi = Ok r ->
  0 <= lo /\ lo <= hi /\ hi <= len b /\
  r = firstn (Z.to_nat (hi - lo)) (skipn (Z.to_nat lo) b).
Proof.
  unfold slice.
  destruct (0 <=? lo) eqn:E1; [|discriminate].
  destruct (lo <=? hi) eqn:E2; [|discriminate].
  destruct (hi <=? len b) eqn:E3; [|discriminate].
  cbn [andb]. intro H. inversion H.
  apply Z.leb_le in E1, E2, E3. repeat split; assumption.
Qed.

Lemma slice_ok (b : ByteSlice) (lo hi : Z) :
  0 <= lo -> lo <= hi -> hi <= len b ->
  slice b lo hi = Ok (firstn (Z.to_nat (hi - lo)) (skipn (Z.to_nat lo) b)).
Proof.
  intros H1 H2 H3. unfold slice.
  apply Z.leb_le in H1, H2, H3. rewrite H1, H2, H3. reflexivity.
Qed.

Lemma len_slice (b : ByteSlice) (lo hi : Z) :
  0 <= lo -> lo <= hi -> hi <= len b ->
  len (firstn (Z.to_nat (hi - lo)) (skipn (Z.to_nat lo) b)) = hi - lo.
Proof.
  unfold len. intros H1 H2 H3.
  rewrite length_firstn, length_skipn. lia.
Qed.

Lemma len_copyAt (b : ByteSlice) (lo hi : Z) (src : ByteSlice) :
  0 <= lo -> lo <= hi -> hi <= len b -> len (copyAt b lo hi src) = len b.
Proof.
  unfold len, copyAt. intros H1 H2 H3.
  rewrite !length_app, !length_firstn, length_skipn. unfold len. lia.
Qed.

Lemma firstn_copyAt_front (b rest : ByteSlice) :
  len rest <= len b ->
  firstn (Z.to_nat (len rest)) (copyAt b 0 (len b) rest) = rest.
Proof.
  intro H. unfold copyAt.
  rewrite Z.sub_0_r, Z.min_r by exact H.
  unfold len at 1 2. rewrite !Nat2Z.id.
  change (Z.to_nat 0) with 0%nat. cbn [firstn app].
  rewrite firstn_all, firstn_app, firstn_all, Nat.sub_diag.
  cbn [firstn]. apply app_nil_r.
Qed.

(** ** The terminal condition *)

Section Terminal.

Context {R T : Type} {io : IoReader R} {br : BytesReplacer T}.
Let engine := @StreamReplacingReader R T.

Lemma scan_inv (fuel : nat) :
  forall st st' : engine,
    scan fuel st = Ok st' ->
    sr_err st' = sr_err st /\ sr_r st' = sr_r st /\
    0 <= sr_buf1 st' <= len (sr_buf st').
Proof.
  induction fuel as [|fuel IH]; intros st st' H; [discriminate|].
  cbn [scan] in H. unfold bind in H.
  destruct (sr_replacer st) as [rep|]; [|discriminate].
  destruct (slice (sr_buf st) (sr_buf0 st) (sr_buf1 st)) as [region| |] eqn:Es;
    try discriminate.
  destruct (Index rep region) as [[idx s] p].
  destruct (idx <? 0).
  - inversion H. cbn. apply slice_inv in Es. repeat split; lia.
  - destruct (len s =? 0); [discriminate|].
    destruct (slice (sr_buf st) (idx + sr_buf0 st + len p)
                (sr_buf1 st + (len p - len s))); try discriminate.
    destruct (slice (sr_buf st) (idx + sr_buf0 st + len s) (sr_buf1 st));
      try discriminate.
    destruct (slice _ (idx + sr_buf0 st) (idx + sr_buf0 st + len p));
      try discriminate.
    apply IH in H. cbn in H. exact H.
Qed.

Lemma fill_inv (fuel : nat) (st st' : engine) :
  fill fuel st = Ok st' ->
  (exists rd dst got rd',
      sr_r st = Some rd /\
      slice (sr_buf st) (sr_buf1 st) (sr_max st) = Ok dst /\
      ioRead rd (len dst) = (got, sr_err st', rd') /\
      sr_r st' = Some rd') /\
  0 <= sr_buf1 st' <= len (sr_buf st') /\
  (isSome (sr_err st') = true -> sr_buf0 st' = sr_buf1 st').
Proof.
  unfold fill, bind. intro H.
  destruct (sr_r st) as [rd|]; [|discriminate].
  destruct (slice (sr_buf st) (sr_buf1 st) (sr_max st)) as [dst| |] eqn:Es;
    try discriminate.
  destruct (ioRead rd (len dst)) as [[got e] rd'] eqn:Er.
  set (got' := firstn (Z.to_nat (len dst)) got) in *.
  set (st1 := set_r_err _ rd' e) in *.
  assert (H1 : sr_err st1 = e /\ sr_r st1 = Some rd' /\
               0 <= sr_buf1 st1 <= len (sr_buf st1) /\
               sr_buf1 st1 = sr_buf1 st).
  { unfold st1. cbn. apply slice_inv in Es.
    rewrite len_copyAt by lia. repeat split; lia. }
  destruct H1 as [He [Hr [Hb Hb1]]]. clearbody st1 got'.
  assert (Hdone : forall st2 : engine,
             sr_err st2 = e -> sr_r st2 = Some rd' ->
             0 <= sr_buf1 st2 <= len (sr_buf st2) ->
             Ok (if isSome (sr_err st2) then set_buf0 st2 (sr_buf1 st2)
                 else st2) = Ok st' ->
             (exists rd0 dst0 got0 rd0',
                 Some rd = Some rd0 /\ Ok dst = Ok dst0 /\
                 ioRead rd0 (len dst0) = (got0, sr_err st', rd0') /\
                 sr_r st' = Some rd0') /\
             0 <= sr_buf1 st' <= len (sr_buf st') /\
             (isSome (sr_err st') = true -> sr_buf0 st' = sr_buf1 st')).
  { intros st2 He2 Hr2 Hb2 H2. inversion H2 as [H']. clear H2.
    destruct (isSome (sr_err st2)) eqn:Ei; subst st'; cbn.
    - split; [|split; [exact Hb2|reflexivity]].
      exists rd, dst, got, rd'. rewrite He2. repeat split; assumption.
    - split; [|split; [exact Hb2|rewrite Ei; discriminate]].
      exists rd, dst, got, rd'. rewrite He2. repeat split; assumption. }
  destruct (len got' >? 0).
  - destruct (scan fuel (set_buf1 st1 (sr_buf1 st1 + len got')))
      as [st2| |] eqn:Esc; try discriminate.
    apply scan_inv in Esc. cbn in Esc. destruct Esc as [He2 [Hr2 Hb2]].
    apply (Hdone st2); try congruence; exact Hb2.
  - apply (Hdone st1); assumption.
Qed.

Lemma len_skipn_Z (l : ByteSlice) (n : Z) :
  0 <= n <= len l -> len (skipn (Z.to_nat n) l) = len l - n.
Proof. unfold len. intro H. rewrite length_skipn. lia. Qed.

(** One [Read] once the condition is pending. *)
Lemma Read_flushed (fuel : nat) (st : engine) (e : error)
    (pending : ByteSlice) (plen : Z) :
  flushed e pending st -> 0 <= plen ->
  let n := Z.min plen (len pending) in
  let left := skipn (Z.to_nat n) pending in
  exists st',
    Read (S fuel) st plen =
      Ok (n, firstn (Z.to_nat n) pending,
          if len left =? 0 then Some e else None, st') /\
    flushed e left st' /\ sr_r st' = sr_r st.
Proof.
  intros [He [H01 [Hb Hp]]] Hplen n left.
  assert (Hlen : len pending = sr_buf1 st).
  { subst pending. unfold len in *. rewrite length_firstn. lia. }
  assert (Hn : 0 <= n <= len pending) by (unfold n; lia).
  assert (Hleft : len left = sr_buf1 st - n).
  { unfold left. rewrite len_skipn_Z by exact Hn. lia. }
  cbn [Read]. destruct (sr_buf0 st >? 0) eqn:E0.
  - unfold drain, bind.
    rewrite slice_ok by lia.
    rewrite Z.sub_0_r, H01. change (Z.to_nat 0) with 0%nat. cbn [skipn].
    rewrite Hp. fold n.
    cbn [sr_buf1 sr_err sr_buf sr_buf0 set_buf0 set_buf1 set_buf].
    rewrite He. cbn [isSome]. rewrite andb_true_r, Hleft.
    destruct (sr_buf1 st - n =? 0) eqn:Ez.
    + eexists. split; [reflexivity|].
      split; [|reflexivity]. apply Z.eqb_eq in Ez.
      unfold flushed. cbn. rewrite Ez. repeat split; try lia; try assumption.
      symmetry. apply len_nil_iff. lia.
    + apply Z.eqb_neq in Ez.
      rewrite slice_ok by lia.
      eexists. split; [reflexivity|]. split; [|reflexivity].
      unfold flushed.
      cbn [sr_err sr_buf0 sr_buf1 sr_buf set_buf set_buf0 set_buf1].
      replace (sr_buf1 st - n + n - n) with (sr_buf1 st - n) by lia.
      set (rest := firstn (Z.to_nat (sr_buf1 st - n))
                     (skipn (Z.to_nat n) (sr_buf st))).
      assert (Hrest : len rest = sr_buf1 st - n).
      { unfold rest. apply len_slice; lia. }
      rewrite len_copyAt by lia.
      repeat split; try lia; try assumption.
      rewrite <- Hrest. rewrite firstn_copyAt_front by lia.
      unfold rest, left. rewrite <- Hp.
      rewrite skipn_firstn_comm. f_equal. lia.
  - rewrite He. cbn [isSome].
    rewrite Z.gtb_ltb in E0. apply Z.ltb_ge in E0.
    assert (Hz : sr_buf1 st = 0) by lia.
    assert (Hnil : pending = []) by (apply len_nil_iff; lia).
    assert (Hn0 : n = 0) by lia.
    exists st. subst left. rewrite Hn0, Hnil. cbn.
    split; [reflexivity|]. split; [|reflexivity].
    unfold flushed. rewrite Hz in *. repeat split; try lia; try assumption.
Qed.

(** Every later [Read] once the condition is pending. *)
Lemma ReadN_flushed (fuel : nat) (e : error) (plens : list Z) :
  Forall (fun plen => 0 <= plen) plens ->
  forall (st : engine) (pending : ByteSlice),
    flushed e pending st ->
    exists st',
      ReadN (S fuel) st plens = Ok (drainSpec e pending plens, st') /\
      sr_r st' = sr_r st /\ sr_err st' = Some e.
Proof.
  induction 1 as [|plen plens Hplen _ IH]; intros st pending Hfl.
  - exists st. split; [reflexivity|]. split; [reflexivity|]. apply Hfl.
  - destruct (Read_flushed fuel st e pending plen Hfl Hplen)
      as [st1 [Hread [Hfl1 Hr1]]].
    destruct (IH st1 _ Hfl1) as [st2 [Hrest [Hr2 He2]]].
    exists st2. cbn [ReadN drainSpec]. unfold bind.
    rewrite Hread, Hrest. cbn [fst snd].
    split; [reflexivity|]. split; [congruence | exact He2].
Qed.

End Terminal.

Lemma drainSpec_empty (e : error) (plens : list Z) :
  Forall (fun plen => 0 <= plen) plens ->
  drainSpec e [] plens = map (fun _ => (0, [], Some e)) plens.
Proof.
  induction 1 as [|plen plens Hplen _ IH]; [reflexivity|].
  cbn [drainSpec map]. change (len (@nil byte)) with 0.
  rewrite Z.min_r by exact Hplen. cbn. rewrite IH. reflexivity.
Qed.

(** ** The retained tail *)

Lemma HasPrefix_nil_l (sep : ByteSlice) :
  1 <= len sep -> bytes.HasPrefix [] sep = false.
Proof. destruct sep; [unfold len; simpl; lia | reflexivity]. Qed.

Lemma HasPrefix_length (s sep : ByteSlice) :
  bytes.HasPrefix s sep = true -> (List.length sep <= List.length s)%nat.
Proof.
  revert s. induction sep as [|c sep IH]; intros s H; simpl; [lia|].
  destruct s as [|d s]; [discriminate|].
  simpl in H. apply andb_true_iff in H. destruct H as [_ H].
  apply IH in H. simpl. lia.
Qed.

Lemma HasPrefix_app_inv (d more sep : ByteSlice) :
  bytes.HasPrefix (d ++ more) sep = true ->
  (List.length sep <= List.length d)%nat ->
  bytes.HasPrefix d sep = true.
Proof.
  revert d. induction sep as [|c sep IH]; intros d H Hlen; [reflexivity|].
  destruct d as [|x d]; [simpl in Hlen; lia|].
  simpl in H |- *. apply andb_true_iff in H. destruct H as [H1 H2].
  rewrite H1. cbn [andb]. apply IH; [exact H2 | simpl in Hlen; lia].
Qed.

Lemma indexFrom_neg (s sep : ByteSlice) :
  forall i, 0 <= i -> bytes.indexFrom s sep i < 0 ->
  forall k, bytes.HasPrefix (skipn k s) sep = false.
Proof.
  induction s as [|c s IH]; intros i Hi H k.
  - rewrite skipn_nil. simpl in H.
    destruct (bytes.HasPrefix [] sep); [lia | reflexivity].
  - cbn [bytes.indexFrom] in H.
    destruct (bytes.HasPrefix (c :: s) sep) eqn:E; [lia|].
    destruct k as [|k]; [exact E|]. cbn [skipn].
    apply (IH (i + 1)); [lia | exact H].
Qed.

Lemma indexFrom_found (s sep : ByteSlice) :
  forall i k, bytes.HasPrefix (skipn k s) sep = true ->
  i <= bytes.indexFrom s sep i <= i + Z.of_nat k.
Proof.
  induction s as [|c s IH]; intros i k H.
  - rewrite skipn_nil in H. simpl. rewrite H. lia.
  - cbn [bytes.indexFrom].
    destruct (bytes.HasPrefix (c :: s) sep) eqn:E; [lia|].
    destruct k as [|k]; [simpl in H; congruence|]. cbn [skipn] in H.
    specialize (IH (i + 1) k H). lia.
Qed.

(** A token absent from [d] that occurs in [d ++ more] ends beyond [d]. *)
Lemma occurrence_straddles (d more sep : ByteSlice) (k : nat) :
  (forall j, bytes.HasPrefix (skipn j d) sep = false) ->
  occursAt (d ++ more) sep k ->
  (List.length d < k + List.length sep)%nat.
Proof.
  intros Hnone Hocc. unfold occursAt in Hocc.
  destruct (Nat.lt_ge_cases (List.length d) (k + List.length sep))
    as [Hlt|Hge]; [exact Hlt|].
  exfalso. rewrite skipn_app in Hocc.
  replace (k - List.length d)%nat with 0%nat in Hocc by lia.
  cbn [skipn] in Hocc. apply HasPrefix_app_inv in Hocc.
  - rewrite Hnone in Hocc. discriminate.
  - rewrite length_skipn. lia.
Qed.

Lemma replacer_Index_neg_members (rep : replacer) (region : ByteSlice) :
  fst (fst (replacer_Index rep region)) < 0 ->
  forall er, In er (replaces rep) -> 1 <= len (search er) ->
  forall j, bytes.HasPrefix (skipn j region) (search er) = false.
Proof.
  intros Hneg er Hin Hlen j.
  destruct region as [|c region].
  - rewrite skipn_nil. apply HasPrefix_nil_l. exact Hlen.
  - pose proof (replacer_Index_nonempty rep (c :: region)) as Hspec.
    destruct Hspec as [[_ Hnone]|[k [er0 [_ [H0 [Heq _]]]]]];
      [discriminate| |].
    + apply (indexFrom_neg (c :: region) (search er) 0); [lia|].
      apply Hnone. exact Hin.
    + rewrite Heq in Hneg. cbn [fst] in Hneg. lia.
Qed.

Lemma replacer_Index_finds (rep : replacer) (d : ByteSlice) (er : byteReplace)
    (k : nat) :
  In er (replaces rep) -> 1 <= len (search er) ->
  occursAt d (search er) k ->
  0 <= fst (fst (replacer_Index rep d)) <= Z.of_nat k.
Proof.
  intros Hin Hlen Hocc.
  assert (Hne : d <> []).
  { intro Hd. subst d. unfold occursAt in Hocc. rewrite skipn_nil in Hocc.
    rewrite HasPrefix_nil_l in Hocc by exact Hlen. discriminate. }
  pose proof (indexFrom_found d (search er) 0 k Hocc) as Hfound.
  fold (bytes.Index d (search er)) in Hfound. fold (memberIndex d er) in Hfound.
  destruct (replacer_Index_nonempty rep d Hne)
    as [[_ Hnone]|[k0 [er0 [_ [H0 [Heq [Hmin _]]]]]]].
  - specialize (Hnone er Hin). lia.
  - rewrite Heq. cbn [fst].
    destruct (In_nth_error _ _ Hin) as [j Hj].
    specialize (Hmin j er Hj). lia.
Qed.

(** X17.  The no-match branch of the scan.  When the scan of [buf[buf0:buf1]]
    finds no token, [scan] returns with [buf0] advanced to
    [max(buf0, buf1 - maxSearchTokenLen + 1)] and nothing else changed, so at
    most [maxSearchTokenLen - 1] bytes stay unprocessed.  This advance loses
    no token completed by later bytes: whatever bytes [more] later reads
    append, every occurrence of a member's token in the old region followed
    by [more] starts inside the retained tail, hence is an occurrence in what
    the next scan sees ([kept ++ more]), where the aggregated [Index] reports
    a match at or before it. *)
Lemma no_match_retains_tail {R : Type} {io : IoReader R}
    (fuel : nat) (st : @StreamReplacingReader R replacer) (rep : replacer)
    (region : ByteSlice) :
  sr_replacer st = Some rep ->
  slice (sr_buf st) (sr_buf0 st) (sr_buf1 st) = Ok region ->
  fst (fst (Index rep region)) < 0 ->
  1 <= sr_maxSearchTokenLen st ->
  (forall er, In er (replaces rep) ->
              1 <= len (search er) <= sr_maxSearchTokenLen st) ->
  let buf0' := Z.max (sr_buf0 st)
                 (sr_buf1 st - sr_maxSearchTokenLen st + 1) in
  let kept := skipn (Z.to_nat (buf0' - sr_buf0 st)) region in
  scan (S fuel) st = Ok (set_buf0 st buf0') /\
  slice (sr_buf st) buf0' (sr_buf1 st) = Ok kept /\
  0 <= sr_buf1 st - buf0' <= sr_maxSearchTokenLen st - 1 /\
  forall more er k,
    In er (replaces rep) -> occursAt (region ++ more) (search er) k ->
    buf0' - sr_buf0 st <= Z.of_nat k /\
    occursAt (kept ++ more) (search er) (k - Z.to_nat (buf0' - sr_buf0 st)) /\
    0 <= fst (fst (Index rep (kept ++ more)))
      <= Z.of_nat k - (buf0' - sr_buf0 st).
Proof.
  intros Hrep Hslice Hneg Hm Htok buf0' kept.
  pose proof (slice_inv _ _ _ _ Hslice) as [Hlo [Hle [Hhi Hregion]]].
  assert (Hlen : len region = sr_buf1 st - sr_buf0 st).
  { rewrite Hregion. apply len_slice; assumption. }
  split; [|split; [|split]].
  - cbn [scan]. unfold bind. rewrite Hrep, Hslice.
    destruct (Index rep region) as [[idx s] p]. cbn [fst] in Hneg.
    apply Z.ltb_lt in Hneg. rewrite Hneg. rewrite max_Zmax. reflexivity.
  - rewrite slice_ok by (unfold buf0'; lia).
    f_equal. unfold kept. rewrite Hregion.
    rewrite skipn_firstn_comm, skipn_skipn. f_equal; [|f_equal]; lia.
  - unfold buf0'. lia.
  - intros more er k Hin Hocc.
    destruct (Htok er Hin) as [Hs1 Hs2].
    pose proof (replacer_Index_neg_members rep region Hneg er Hin Hs1)
      as Hnone.
    pose proof (occurrence_straddles region more (search er) k Hnone Hocc)
      as Hstr.
    assert (Hk : buf0' - sr_buf0 st <= Z.of_nat k).
    { unfold buf0'. unfold len in *. lia. }
    assert (Hocc' : occursAt (kept ++ more) (search er)
                      (k - Z.to_nat (buf0' - sr_buf0 st))).
    { unfold occursAt in *. unfold kept.
      replace (skipn (Z.to_nat (buf0' - sr_buf0 st)) region ++ more)
        with (skipn (Z.to_nat (buf0' - sr_buf0 st)) (region ++ more)).
      - rewrite skipn_skipn.
        replace (k - Z.to_nat (buf0' - sr_buf0 st)
                 + Z.to_nat (buf0' - sr_buf0 st))%nat with k by lia.
        exact Hocc.
      - rewrite skipn_app.
        replace (Z.to_nat (buf0' - sr_buf0 st) - List.length region)%nat
          with 0%nat; [reflexivity|].
        unfold buf0'. unfold len in *. lia. }
    split; [exact Hk|]. split; [exact Hocc'|].
    pose proof (replacer_Index_finds rep (kept ++ more) er _ Hin Hs1 Hocc')
      as Hfind.
    cbn [Index replacer_BytesReplacer]. lia.
Qed.

(** ** The engine on concrete streams *)

Local Open Scope string_scope.

(** C1 (failing inputs).  With the test's pairs and the input
    ["tzzzzzzzztzzzt"] delivered one byte per underlying read, the stream
    yields ["tzzzzzzzzhangtianzzzhangtian"]: the shorter token ["zt"] is
    replaced as soon as it is complete, inside the longer token that started
    earlier.  The whole-string replace gives ["zt2"], and so does the stream
    when the input arrives in one piece.  The same happens with a reader that
    fills whatever it is given, once the engine's own fill bound (910 bytes
    for these pairs) falls inside the long token: 900 bytes ["x"] followed by
    the token. *)
Theorem stream_differs_from_canonical_on_split_token :
  streamAll testPairs (B "tzzzzzzzztzzzt") 1 =
    Ok (B "tzzzzzzzzhangtianzzzhangtian", None) /\
  canonicalReplace testPairs (B "tzzzzzzzztzzzt") = B "zt2" /\
  streamAll testPairs (B "tzzzzzzzztzzzt") 4096 = Ok (B "zt2", None) /\
  sr_max (engineOn testPairs straddlingInput 4096) = 910 /\
  streamAll testPairs straddlingInput 4096 =
    Ok ((repeat "x"%byte 900 ++ B "tzzzzzzzzhangtianzzzhangtian")%list, None) /\
  canonicalReplace testPairs straddlingInput =
    (repeat "x"%byte 900 ++ B "zt2")%list.
Proof. repeat split; vm_compute; reflexivity. Qed.

(** C2 (failing input).  For ["a"->"bb", "c"->"dddd"] the set reports the
    ratio 1/2, so the fill bound is 2048 of 4096 bytes.  On 2048 bytes ["c"]
    read in one piece, the 683rd replacement asks for the write boundary
    [buf1 + lenDelta = 4097] on a buffer of 4096 bytes: the slice expression
    [r.buf[2732:4097]] panics. *)
Theorem write_boundary_overflows_on_worst_ratio_tokens :
  (fst (fst (GetSizingHints (setOf growingPairs))),
   snd (fst (GetSizingHints (setOf growingPairs)))) = (1, 4) /\
  (snd (GetSizingHints (setOf growingPairs)) == 1 # 2)%Q /\
  sr_max (engineOn growingPairs (repeat "c"%byte 2048) 4096) = 2048 /\
  len (sr_buf (engineOn growingPairs (repeat "c"%byte 2048) 4096)) = 4096 /\
  streamAll growingPairs (repeat "c"%byte 2048) 4096 =
    Panic (SliceBounds 2732 4097 4096).
Proof. repeat split; vm_compute; reflexivity. Qed.

(** C4 (counterexample).  An engine whose buffer has 5000 bytes keeps it when
    it is reset with the set ["a"->"b"], whose hints are (1, 1, -1): the
    capacity is 5000, not [max(4096, 1, 1) = 4096]. *)
Lemma reset_keeps_longer_buffer :
  ~ reset_capacity_is_hint_maximum usedEngine (sourceOf [] 4096)
      (setOf ["a"; "b"]).
Proof.
  unfold reset_capacity_is_hint_maximum. intro H.
  remember (ResetEx usedEngine (Some (sourceOf [] 4096)) (setOf ["a"; "b"]))
    as o eqn:E.
  assert (Hlen : match o with
                 | Ok st => len (sr_buf st) = 5000
                 | _ => False
                 end).
  { subst o. vm_compute. reflexivity. }
  destruct o as [st| |]; try contradiction.
  specialize (H st eq_refl). rewrite Hlen in H. vm_compute in H. discriminate.
Qed.

(** C4 on a fresh engine and the set of the test's pairs. *)
Lemma ResetEx_capacity_and_fill_bound_witness :
  exists st,
    ResetEx zeroReader (Some (sourceOf (B "zt zt") 4096)) (setOf testPairs)
      = Ok st /\
    len (sr_buf st) =
      Z.max (len (sr_buf (@zeroReader ChunkReader replacer)))
        (Z.max 4096 (Z.max (fst (fst (GetSizingHints (setOf testPairs))))
                           (snd (fst (GetSizingHints (setOf testPairs)))))) /\
    ((snd (GetSizingHints (setOf testPairs)) <= 0)%Q ->
     sr_max st = len (sr_buf st)) /\
    ((0 < snd (GetSizingHints (setOf testPairs)))%Q ->
     sr_max st =
       truncate
         (float64 (float64 (snd (GetSizingHints (setOf testPairs)))
                   * float64 (inject_Z (len (sr_buf st))))) /\
     ((snd (GetSizingHints (setOf testPairs)) <= 1)%Q ->
      len (sr_buf st) < 2 ^ 53 ->
      Qfloor (float64 (snd (GetSizingHints (setOf testPairs)))
              * inject_Z (len (sr_buf st)))
        <= sr_max st
        <= Qceiling (float64 (snd (GetSizingHints (setOf testPairs)))
                     * inject_Z (len (sr_buf st))) /\
      0 <= sr_max st <= len (sr_buf st))) /\
    sr_buf0 st = 0 /\ sr_buf1 st = 0 /\ sr_err st = None.
Proof.
  apply (ResetEx_capacity_and_fill_bound zeroReader
           (sourceOf (B "zt zt") 4096) (setOf testPairs)).
  vm_compute. discriminate.
Defined.

(** The fill bound and the exact floor.  For ["aaa"] replaced by 4146 bytes
    the quotient [3/4146] rounds down, its product with the capacity 4146
    stays below 3, and the fill bound is 2 where the exact product is 3.  For
    2048 bytes replaced by 6144 the [float64] ratio is below [1/3], the
    product with 6144 rounds up to 2048, and the fill bound is 2048 where the
    floor of the exact product of the [float64] ratio is 2047. *)
Example fill_bound_and_exact_floor :
  sr_max (engineOn ["aaa"; string_of_list_byte (repeat "x"%byte 4146)]
            [] 1) = 2 /\
  Qfloor ((3 # 4146) * inject_Z 4146)%Q = 3 /\
  scaleLen (2048 # 6144) 6144 = 2048 /\
  Qfloor (float64 (2048 # 6144) * inject_Z 6144)%Q = 2047.
Proof. repeat split; vm_compute; reflexivity. Qed.

(** The no-match branch after the first byte of ["zt"]. *)
Example no_match_retains_tail_on_zt :
  let st := afterFill (engineOn ["zt"; "zhangtian"] (B "zt") 1) in
  let rep := setOf ["zt"; "zhangtian"] in
  let region := B "z" in
  let buf0' := Z.max (sr_buf0 st)
                 (sr_buf1 st - sr_maxSearchTokenLen st + 1) in
  let kept := skipn (Z.to_nat (buf0' - sr_buf0 st)) region in
  scan 1 st = Ok (set_buf0 st buf0') /\
  slice (sr_buf st) buf0' (sr_buf1 st) = Ok kept /\
  0 <= sr_buf1 st - buf0' <= sr_maxSearchTokenLen st - 1 /\
  forall more er k,
    In er (replaces rep) -> occursAt (region ++ more)%list (search er) k ->
    buf0' - sr_buf0 st <= Z.of_nat k /\
    occursAt (kept ++ more)%list (search er)
      (k - Z.to_nat (buf0' - sr_buf0 st)) /\
    0 <= fst (fst (Index rep (kept ++ more)%list))
      <= Z.of_nat k - (buf0' - sr_buf0 st).
Proof.
  intros st rep region.
  apply (no_match_retains_tail 0 st rep region).
  - vm_compute. reflexivity.
  - vm_compute. reflexivity.
  - vm_compute. reflexivity.
  - vm_compute. discriminate.
  - intros er Hin. vm_compute in Hin. destruct Hin as [<-|[]].
    vm_compute. split; discriminate.
Defined.

(** C6 (failing input).  With the pairs ["abc"->"X", "b"->"Y"] and the input
    ["abc"] delivered one byte per underlying read, the scans after the first
    byte find nothing and keep it unprocessed, as the no-match branch
    promises; the scan after the second byte finds ["b"], replaces it and
    sets [buf0 = 2], past the ["a"] of the token still being completed.  The
    stream yields ["aYc"]: the split token ["abc"] is not found, although the
    whole-string replace, and the stream on the input in one piece, give
    ["X"]. *)
Theorem split_token_containing_a_token_is_lost :
  sr_buf0 (afterFill (engineOn nestedPairs (B "abc") 1)) = 0 /\
  sr_buf1 (afterFill (engineOn nestedPairs (B "abc") 1)) = 1 /\
  sr_buf0 (afterFill (afterFill (engineOn nestedPairs (B "abc") 1))) = 2 /\
  streamAll nestedPairs (B "abc") 1 = Ok (B "aYc", None) /\
  canonicalReplace nestedPairs (B "abc") = B "X" /\
  streamAll nestedPairs (B "abc") 4096 = Ok (B "X", None).
Proof. repeat split; vm_compute; reflexivity. Qed.

(** C7 (failing input).  With the pairs ["a"->"bb"] and ["c"->2000 bytes]
    the hints are (1, 2000, 0.5), the buffer has 4096 bytes and the fill
    bound is 2048.  A reader hands over the three bytes ["ccc"] together with
    [EOF].  The first [Read] pulls them and records the condition, then
    scans what it pulled: two replacements bring [buf1] to 4001, and the
    third evaluates [buf[6000:6000]] on the 4096-byte buffer and panics.
    Processed is not set to filled, no byte is handed out and the condition
    never reaches the caller.  Two bytes ["cc"] with the same condition still
    fit: they are replaced and handed out, 4000 bytes, with [EOF]. *)
Theorem condition_with_bytes_is_lost_in_overflow :
  let src := {| de_data := B "ccc"; de_final := EOF |} in
  let src2 := {| de_data := B "cc"; de_final := EOF |} in
  ioRead src 2048 = (B "ccc", Some EOF, {| de_data := []; de_final := EOF |}) /\
  (st <- Replace (setOf burstPairs) (Some src) ;;
   Ok (sr_maxSearchTokenLen st, len (sr_buf st), sr_max st))
    = Ok (1, 4096, 2048) /\
  (st <- Replace (setOf burstPairs) (Some src) ;;
   res <- Read 16 st 4096 ;;
   Ok (fst res)) = Panic (SliceBounds 6000 6000 4096) /\
  (st <- Replace (setOf burstPairs) (Some src2) ;;
   res <- Read 16 st 4096 ;;
   Ok (fst res)) = Ok (4000, repeat "d"%byte 4000, Some EOF).
Proof. repeat split; vm_compute; reflexivity. Qed.

(** The one-byte-at-a-time run of the boundary property, and a drain under a
    pending end of stream. *)
Example split_token_is_replaced :
  streamAll ["zt"; "zhangtian"] (B "a zt b") 1 = Ok (B "a zhangtian b", None).
Proof. vm_compute. reflexivity. Qed.

Example pending_condition_is_drained_then_repeated :
  let st := afterFill (afterFill (engineOn ["zt"; "zhangtian"] (B "zz") 2)) in
  sr_err st = Some EOF /\
  exists st',
    ReadN 1 st [1; 0; 5; 5; 5] =
      Ok ([(1, B "z", None); (0, [], None); (1, B "z", Some EOF);
           (0, [], Some EOF); (0, [], Some EOF)], st').
Proof. vm_compute. split; [reflexivity|]. eexists. reflexivity. Qed.

Local Close Scope string_scope.

(** * Further properties of the code *)

(** ** The fixed-size pool *)

Lemma Put_keeps_wfPool (fp : fixed.Allocator) (b : ByteSlice) :
  wfPool fp -> wfPool (snd (fixed.Put fp b)).
Proof.
  intros [Hsz [Hcap Hall]]. unfold fixed.Put.
  destruct (len b =? fixed.bufSize fp) eqn:Eb; cbn [negb].
  - apply Z.eqb_eq in Eb.
    destruct (len (fixed.freeList fp) <? fixed.freeCap fp) eqn:Ec; cbn.
    + apply Z.ltb_lt in Ec. unfold wfPool. cbn.
      split; [exact Hsz|]. split.
      * rewrite len_app. unfold len at 2. cbn. lia.
      * apply Forall_app. split; [exact Hall|]. constructor; [exact Eb|constructor].
    + unfold wfPool. auto.
  - cbn. unfold wfPool. auto.
Qed.

(** X1.  A pool in good order stays so under [Put] and [Get]: it never
    holds more buffers than its capacity nor a buffer of another size.
    [Get] on such a pool does not fail; asked for the pool's size it returns
    a buffer of exactly that size, asked for any other size it returns nil
    and leaves the pool as it was. *)
Theorem pool_stays_in_order (fp : fixed.Allocator) :
  wfPool fp ->
  (forall b, wfPool (snd (fixed.Put fp b))) /\
  (forall size, exists b fp',
      fixed.Get fp size = Ok (b, fp') /\ wfPool fp' /\
      (size = fixed.bufSize fp -> len b = size) /\
      (size <> fixed.bufSize fp -> b = [] /\ fp' = fp)).
Proof.
  intro Hwf. split; [intro b; apply Put_keeps_wfPool; exact Hwf|].
  intro size. destruct Hwf as [Hsz [Hcap Hall]]. unfold fixed.Get.
  destruct (fixed.bufSize fp =? size) eqn:Es; cbn [negb].
  - apply Z.eqb_eq in Es.
    destruct (fixed.freeList fp) as [|b rest] eqn:Ef.
    + apply Z.ltb_ge in Hsz. rewrite Hsz.
      exists (make (fixed.bufSize fp)), fp.
      split; [reflexivity|]. split.
      * unfold wfPool. rewrite Ef. apply Z.ltb_ge in Hsz. auto.
      * split; [|intro; congruence].
        intros _. rewrite len_make; [lia|]. apply Z.ltb_ge in Hsz. exact Hsz.
    + eexists. eexists. split; [reflexivity|].
      inversion Hall as [|b' rest' Hb Hrest]. subst.
      split.
      * unfold wfPool. cbn. split; [exact Hsz|]. split; [|exact Hrest].
        unfold len in *. cbn in Hcap. lia.
      * split; [intros _; lia | intro; congruence].
  - apply Z.eqb_neq in Es. exists [], fp.
    split; [reflexivity|]. split; [unfold wfPool; auto|].
    split; [intro; congruence | auto].
Qed.

Lemma pool_stays_in_order_witness :
  let fp := {| fixed.freeList := [[x01; x02]]; fixed.freeCap := 4;
               fixed.bufSize := 2 |} in
  (forall b, wfPool (snd (fixed.Put fp b))) /\
  (forall size, exists b fp',
      fixed.Get fp size = Ok (b, fp') /\ wfPool fp' /\
      (size = fixed.bufSize fp -> len b = size) /\
      (size <> fixed.bufSize fp -> b = [] /\ fp' = fp)).
Proof.
  intro fp. apply (pool_stays_in_order fp).
  unfold wfPool. cbn. split; [lia|]. split; [vm_compute; discriminate|].
  constructor; [reflexivity|constructor].
Defined.

Lemma putAll_accepts (bs : list ByteSlice) :
  forall fp,
    Forall (fun b => len b = fixed.bufSize fp) bs ->
    len (fixed.freeList fp) + len bs <= fixed.freeCap fp ->
    putAll fp bs =
      (map (fun _ => None) bs,
       {| fixed.freeList := fixed.freeList fp ++ bs;
          fixed.freeCap := fixed.freeCap fp;
          fixed.bufSize := fixed.bufSize fp |}).
Proof.
  induction bs as [|b bs IH]; intros fp Hall Hcap.
  - cbn. rewrite app_nil_r. destruct fp; reflexivity.
  - inversion Hall as [|b' bs' Hb Hrest]. subst.
    cbn [putAll]. unfold fixed.Put.
    apply Z.eqb_eq in Hb. rewrite Hb. cbn [negb].
    assert (Hlt : (len (fixed.freeList fp) <? fixed.freeCap fp) = true).
    { apply Z.ltb_lt. unfold len in *. cbn in Hcap. lia. }
    rewrite Hlt.
    rewrite IH.
    + cbn. rewrite <- app_assoc. reflexivity.
    + exact Hrest.
    + cbn. rewrite len_app. unfold len in *. cbn in *. lia.
Qed.

Lemma getAll_pops (bs : list ByteSlice) :
  forall rest cap size,
    getAll {| fixed.freeList := bs ++ rest; fixed.freeCap := cap;
              fixed.bufSize := size |} (List.length bs) size =
    Ok (bs, {| fixed.freeList := rest; fixed.freeCap := cap;
               fixed.bufSize := size |}).
Proof.
  induction bs as [|b bs IH]; intros rest cap size; [reflexivity|].
  cbn [getAll List.length app]. unfold fixed.Get. cbn [fixed.bufSize fixed.freeList fixed.freeCap].
  rewrite Z.eqb_refl. cbn [negb bind fst snd].
  rewrite IH. reflexivity.
Qed.

(** X2.  The pool is a queue.  Buffers of the pool's size put into a pool
    with room for all of them are all accepted without an error, and as many
    [Get] calls then return first the buffers that were already pooled and
    then the new ones, each in the order it was put, unchanged, leaving the
    pool empty. *)
Theorem pool_is_first_in_first_out (fp : fixed.Allocator)
    (bs : list ByteSlice) :
  Forall (fun b => len b = fixed.bufSize fp) bs ->
  len (fixed.freeList fp) + len bs <= fixed.freeCap fp ->
  fst (putAll fp bs) = map (fun _ => None) bs /\
  getAll (snd (putAll fp bs))
    (List.length (fixed.freeList fp) + List.length bs) (fixed.bufSize fp) =
  Ok (fixed.freeList fp ++ bs,
      {| fixed.freeList := []; fixed.freeCap := fixed.freeCap fp;
         fixed.bufSize := fixed.bufSize fp |}).
Proof.
  intros Hall Hcap. rewrite putAll_accepts by assumption. cbn [fst snd].
  split; [reflexivity|].
  rewrite <- List.length_app.
  rewrite <- (app_nil_r (fixed.freeList fp ++ bs)) at 1.
  apply getAll_pops.
Qed.

Lemma pool_is_first_in_first_out_witness :
  let fp := {| fixed.freeList := [[x01; x02]]; fixed.freeCap := 4;
               fixed.bufSize := 2 |} in
  let bs := [[x03; x04]; [x05; x06]] in
  fst (putAll fp bs) = map (fun _ => None) bs /\
  getAll (snd (putAll fp bs))
    (List.length (fixed.freeList fp) + List.length bs) (fixed.bufSize fp) =
  Ok (fixed.freeList fp ++ bs,
      {| fixed.freeList := []; fixed.freeCap := fixed.freeCap fp;
         fixed.bufSize := fixed.bufSize fp |}).
Proof.
  intros fp bs. apply (pool_is_first_in_first_out fp bs).
  - repeat constructor.
  - vm_compute. discriminate.
Defined.

(** ** The sets that [NewReplacer] builds *)

Lemma len_le_maxLen (f : byteReplace -> ByteSlice) (l : list byteReplace)
    (er : byteReplace) :
  In er l -> len (f er) <= maxLen f l.
Proof.
  unfold maxLen. induction l as [|a l IH]; intros Hin; [destruct Hin|].
  cbn [map fold_right]. destruct Hin as [->|Hin]; [lia|].
  specialize (IH Hin). lia.
Qed.

Lemma keptPairs_nonempty_search (oldnews : list string) (er : byteReplace) :
  In er (keptPairs oldnews) -> 1 <= len (search er).
Proof.
  unfold keptPairs. intro Hin. apply in_map_iff in Hin.
  destruct Hin as [p [<- Hp]]. apply filter_In in Hp. destruct Hp as [_ Hp].
  cbn [toByteReplace search].
  pose proof (len_bytes_zero (fst p)) as Hz.
  pose proof (len_nonneg (list_byte_of_string (fst p))) as Hpos.
  destruct (String.eqb (fst p) EmptyString); [discriminate|].
  apply Z.eqb_neq in Hz. lia.
Qed.

Lemma NewReplacer_Ok_inv (oldnews : list string) (res : replacer) :
  NewReplacer oldnews = Ok res ->
  replaces res = keptPairs oldnews /\
  maxSearchLen res = maxLen search (keptPairs oldnews) /\
  maxReplaceLen res = maxLen replace (keptPairs oldnews) /\
  ratioInv (keptPairs oldnews) (maxRatio res).
Proof.
  unfold NewReplacer.
  destruct (len oldnews mod 2 =? 1); [discriminate|].
  intro H. inversion H as [Hres]. clear H.
  set (res0 := {| index := 0; replaces := []; maxSearchLen := 0;
                  maxReplaceLen := 0; maxRatio := (-1)%Q |}).
  assert (H0 : hintsInv res0).
  { unfold hintsInv, res0; cbn. split; [reflexivity|]. split; [reflexivity|].
    left. split; [reflexivity|]. intros er []. }
  pose proof (NewReplacer_loop_hints oldnews res0 H0) as [Hs [Hp Hq]].
  rewrite NewReplacer_loop_replaces in Hs, Hp, Hq. cbn [replaces res0 app] in *.
  split; [rewrite NewReplacer_loop_replaces; reflexivity|].
  split; [exact Hs|]. split; [exact Hp | exact Hq].
Qed.

(** X3.  In a set built by [NewReplacer] every member searches for a
    non-empty token, and the two length hints bound every member: no search
    token is longer than [maxSearchLen], no replacement longer than
    [maxReplaceLen]. *)
Theorem NewReplacer_members_within_hints (oldnews : list string)
    (res : replacer) :
  NewReplacer oldnews = Ok res ->
  forall er, In er (replaces res) ->
    1 <= len (search er) <= maxSearchLen res /\
    len (replace er) <= maxReplaceLen res.
Proof.
  intros Hnew er Hin.
  destruct (NewReplacer_Ok_inv oldnews res Hnew) as [Hr [Hs [Hp _]]].
  rewrite Hr in Hin. rewrite Hs, Hp.
  split; [split|].
  - apply (keptPairs_nonempty_search oldnews). exact Hin.
  - apply (len_le_maxLen search). exact Hin.
  - apply (len_le_maxLen replace). exact Hin.
Qed.

Lemma NewReplacer_members_within_hints_witness :
  1 <= len (search (toByteReplace ("zt"%string, "zhangtian"%string)))
    <= maxSearchLen (setOf testPairs) /\
  len (replace (toByteReplace ("zt"%string, "zhangtian"%string)))
    <= maxReplaceLen (setOf testPairs).
Proof.
  apply (NewReplacer_members_within_hints testPairs (setOf testPairs)).
  - vm_compute. reflexivity.
  - vm_compute. left. reflexivity.
Defined.

(** X4.  [Replace] on a set built by [NewReplacer] and a reader panics
    ("search token cannot be nil/empty") exactly when no pair was kept, that
    is when every search string of the argument list was empty or the list
    was empty.  Otherwise it returns an engine with both boundaries at 0, no
    condition pending, a maximal search length of at least 1, a buffer of at
    least 4096 bytes that is long enough for every search token and every
    replacement, and a fill bound that is not negative and, for a buffer of
    less than [2^53] bytes (where the conversion to [float64] is exact), at
    most the buffer length. *)
Theorem Replace_succeeds_iff_a_pair_is_kept {R : Type} {io : IoReader R}
    (oldnews : list string) (res : replacer) (rd : R) :
  NewReplacer oldnews = Ok res ->
  (keptPairs oldnews = [] ->
   Replace res (Some rd) =
     Panic (Explicit "search token cannot be nil/empty")) /\
  (keptPairs oldnews <> [] ->
   exists st,
     Replace res (Some rd) = Ok st /\
     wfEngine st /\ sr_buf0 st = 0 /\ sr_buf1 st = 0 /\ sr_err st = None /\
     sr_replacer st = Some res /\ sr_r st = Some rd /\
     sr_maxSearchTokenLen st = maxSearchLen res /\
     4096 <= len (sr_buf st) /\
     0 <= sr_max st /\
     (len (sr_buf st) < 2 ^ 53 -> sr_max st <= len (sr_buf st)) /\
     forall er, In er (replaces res) ->
       len (search er) <= len (sr_buf st) /\
       len (replace er) <= len (sr_buf st)).
Proof.
  intro Hnew.
  destruct (NewReplacer_Ok_inv oldnews res Hnew) as [Hr [Hs [Hp Hq]]].
  unfold Replace, ResetEx.
  cbn [GetSizingHints replacer_BytesReplacer replacer_GetSizingHints].
  split.
  - intro Hnil. rewrite Hs, Hnil. reflexivity.
  - intro Hne.
    destruct (keptPairs oldnews) as [|er0 l] eqn:Ek; [contradiction|].
    assert (Hin0 : In er0 (keptPairs oldnews)) by (rewrite Ek; left; reflexivity).
    pose proof (keptPairs_nonempty_search oldnews er0 Hin0) as H1.
    pose proof (len_le_maxLen search (keptPairs oldnews) er0 Hin0) as H2.
    rewrite <- Ek in *. rewrite <- Hs in H2.
    assert (Hm : (maxSearchLen res =? 0) = false) by (apply Z.eqb_neq; lia).
    rewrite Hm. eexists. split; [reflexivity|].
    cbn [sr_buf sr_buf0 sr_buf1 sr_err sr_replacer sr_r sr_max
         sr_maxSearchTokenLen zeroReader].
    change (len (@nil byte)) with 0. cbn [Z.eqb orb].
    rewrite !max_Zmax. unfold defaultBufSize.
    set (cap := Z.max 4096 (Z.max (maxSearchLen res) (maxReplaceLen res))).
    assert (Hcap : 4096 <= cap) by (unfold cap; lia).
    rewrite len_make by lia.
    unfold wfEngine.
    cbn [sr_buf sr_buf0 sr_buf1 sr_maxSearchTokenLen].
    rewrite len_make by lia.
    split; [repeat split; lia|].
    do 7 (split; [first [reflexivity | lia]|]).
    split; [|split].
    + destruct (Qgtb (maxRatio res) 0) eqn:Eq; [|lia].
      apply Qgtb_true in Eq.
      apply scaleLen_nonneg; [apply Qlt_le_weak; exact Eq | lia].
    + intro Hlen.
      destruct (Qgtb (maxRatio res) 0) eqn:Eq; [|lia].
      destruct Hq as [[Hq _]|[Hq _]].
      * apply Qgtb_true in Eq. rewrite Hq in Eq. discriminate.
      * apply scaleLen_bounds; [|lia].
        split; [apply Hq | apply Qlt_le_weak, Hq].
    + intros er H. rewrite Hr in H.
      pose proof (len_le_maxLen search _ _ H).
      pose proof (len_le_maxLen replace _ _ H). lia.
Qed.

Lemma Replace_succeeds_iff_a_pair_is_kept_witness :
  (keptPairs testPairs = [] ->
   Replace (setOf testPairs) (Some (sourceOf [] 1)) =
     Panic (Explicit "search token cannot be nil/empty")) /\
  (keptPairs testPairs <> [] ->
   exists st,
     Replace (setOf testPairs) (Some (sourceOf [] 1)) = Ok st /\
     wfEngine st /\ sr_buf0 st = 0 /\ sr_buf1 st = 0 /\ sr_err st = None /\
     sr_replacer st = Some (setOf testPairs) /\
     sr_r st = Some (sourceOf [] 1) /\
     sr_maxSearchTokenLen st = maxSearchLen (setOf testPairs) /\
     4096 <= len (sr_buf st) /\
     0 <= sr_max st /\
     (len (sr_buf st) < 2 ^ 53 -> sr_max st <= len (sr_buf st)) /\
     forall er, In er (replaces (setOf testPairs)) ->
       len (search er) <= len (sr_buf st) /\
       len (replace er) <= len (sr_buf st)).
Proof.
  apply (Replace_succeeds_iff_a_pair_is_kept testPairs (setOf testPairs)
           (sourceOf [] 1)).
  vm_compute. reflexivity.
Defined.

(** ** The aggregated [Index] and the occurrences of the tokens *)

Lemma indexFrom_sound (s sep : ByteSlice) :
  forall i, 0 <= i -> 0 <= bytes.indexFrom s sep i ->
  i <= bytes.indexFrom s sep i /\
  bytes.HasPrefix (skipn (Z.to_nat (bytes.indexFrom s sep i - i)) s) sep
    = true /\
  bytes.indexFrom s sep i - i <= len s.
Proof.
  induction s as [|c s IH]; intros i Hi H; cbn [bytes.indexFrom] in *.
  - destruct (bytes.HasPrefix [] sep) eqn:E; [|lia].
    rewrite Z.sub_diag. cbn. split; [lia|]. split; [exact E|lia].
  - destruct (bytes.HasPrefix (c :: s) sep) eqn:E.
    + rewrite Z.sub_diag. cbn [Z.to_nat skipn].
      split; [lia|]. split; [exact E|]. apply len_nonneg.
    + destruct (IH (i + 1)) as [H1 [H2 H3]]; [lia | exact H |].
      split; [lia|]. split.
      * replace (Z.to_nat (bytes.indexFrom s sep (i + 1) - i))
          with (S (Z.to_nat (bytes.indexFrom s sep (i + 1) - (i + 1))))
          by lia.
        cbn [skipn]. exact H2.
      * unfold len in *. cbn [List.length]. lia.
Qed.

Lemma occursAt_bound (d sep : ByteSlice) (k : nat) :
  occursAt d sep k -> 1 <= len sep -> Z.of_nat k + len sep <= len d.
Proof.
  unfold occursAt. intros H Hsep. apply HasPrefix_length in H.
  rewrite length_skipn in H. unfold len in *. lia.
Qed.

(** X5.  What the aggregated [Index] reports is real and leftmost.  When
    it returns an index [i >= 0] with the tokens [s] and [p], these are the
    search token and the replacement of one member, [s] occurs in the buffer
    at offset [i], and no token of any member occurs at a smaller offset.
    When it returns a negative index, that index is -1, the tokens are nil,
    and (for members with non-empty search tokens) no member's token occurs
    anywhere in the buffer. *)
Theorem replacer_Index_reports_leftmost_occurrence (rep : replacer)
    (buf : ByteSlice) :
  let '(i, s, p) := Index rep buf in
  (0 <= i ->
   (exists er, In er (replaces rep) /\ s = search er /\ p = replace er) /\
   occursAt buf s (Z.to_nat i) /\
   forall er k, In er (replaces rep) -> occursAt buf (search er) k ->
                i <= Z.of_nat k) /\
  (i < 0 ->
   i = -1 /\ s = [] /\ p = [] /\
   (nonEmptySearches rep ->
    forall er k, In er (replaces rep) -> ~ occursAt buf (search er) k)).
Proof.
  cbn [Index replacer_BytesReplacer].
  destruct buf as [|c buf].
  - cbn. split; [lia|]. intros _. repeat split.
    intros Hne er k Hin Hocc. unfold occursAt in Hocc.
    rewrite skipn_nil in Hocc.
    rewrite HasPrefix_nil_l in Hocc by (apply Hne; exact Hin). discriminate.
  - pose proof (replacer_Index_nonempty rep (c :: buf)) as Hspec.
    destruct (replacer_Index rep (c :: buf)) as [[i s] p].
    destruct Hspec as [[Heq Hnone]|[k0 [er0 [Hk0 [H0 [Heq [Hmin _]]]]]]];
      [discriminate| |].
    + inversion Heq. subst. split; [lia|]. intros _. repeat split.
      intros _ er k Hin Hocc.
      pose proof (indexFrom_found (c :: buf) (search er) 0 k Hocc) as Hf.
      specialize (Hnone er Hin). unfold memberIndex, bytes.Index in Hnone. lia.
    + inversion Heq. subst. split; [|lia]. intros _. split; [|split].
      * exists er0. split; [eapply nth_error_In; exact Hk0|]. auto.
      * unfold memberIndex, bytes.Index in *.
        destruct (indexFrom_sound (c :: buf) (search er0) 0) as [_ [Hs _]];
          [lia | exact H0 |].
        rewrite Z.sub_0_r in Hs. exact Hs.
      * intros er k Hin Hocc.
        pose proof (indexFrom_found (c :: buf) (search er) 0 k Hocc) as Hf.
        destruct (In_nth_error _ _ Hin) as [j Hj].
        specialize (Hmin j er Hj). unfold memberIndex, bytes.Index in *. lia.
Qed.

(** ** One replacement in the buffer *)

Lemma firstn_app_exact {A : Type} (a b : list A) (n : nat) :
  n = List.length a -> firstn n (a ++ b) = a.
Proof.
  intros ->. rewrite firstn_app, firstn_all, Nat.sub_diag. cbn.
  apply app_nil_r.
Qed.

Lemma skipn_app_exact {A : Type} (a b : list A) (n : nat) :
  n = List.length a -> skipn n (a ++ b) = b.
Proof.
  intros ->. rewrite skipn_app, skipn_all, Nat.sub_diag. reflexivity.
Qed.

Lemma firstn_len {A : Type} (l : list A) : firstn (Z.to_nat (len l)) l = l.
Proof. unfold len. rewrite Nat2Z.id. apply firstn_all. Qed.

Section Replacement.

Context {R T : Type} {io : IoReader R} {br : BytesReplacer T}.

Variable st : @StreamReplacingReader R T.
Variables (i : Z) (s p : ByteSlice).

Hypothesis Hbuf0 : 0 <= sr_buf0 st.
Hypothesis Hi : 0 <= i.
Hypothesis Hend : i + sr_buf0 st + len s <= sr_buf1 st.
Hypothesis Hbuf1 : sr_buf1 st <= len (sr_buf st).
Hypothesis Hfit : sr_buf1 st + (len p - len s) <= len (sr_buf st).

Let idx := i + sr_buf0 st.
Let rest := firstn (Z.to_nat (sr_buf1 st - (idx + len s)))
              (skipn (Z.to_nat (idx + len s)) (sr_buf st)).

Lemma len_rest : len rest = sr_buf1 st - (idx + len s).
Proof.
  unfold rest. pose proof (len_nonneg s).
  replace (sr_buf1 st - (idx + len s)) with (sr_buf1 st - (idx + len s)) by lia.
  apply len_slice; unfold idx; lia.
Qed.

(** The buffer after the replacement: the bytes before the match, the
    replacement, the bytes that followed the match, and the old bytes beyond
    the new [buf1]. *)
Lemma replaceAt_buf :
  sr_buf (replaceAt st i s p) =
  firstn (Z.to_nat idx) (sr_buf st) ++ p ++ rest
    ++ skipn (Z.to_nat (sr_buf1 st + (len p - len s))) (sr_buf st).
Proof.
  pose proof len_rest as Hrest. pose proof (len_nonneg s) as Hs.
  pose proof (len_nonneg p) as Hp.
  unfold replaceAt. fold idx. fold rest.
  cbn [sr_buf set_buf set_buf0 set_buf1].
  set (b1 := copyAt (sr_buf st) (idx + len p)
               (sr_buf1 st + (len p - len s)) rest).
  assert (Hb1 : b1 = firstn (Z.to_nat (idx + len p)) (sr_buf st) ++ rest
                  ++ skipn (Z.to_nat (sr_buf1 st + (len p - len s)))
                       (sr_buf st)).
  { unfold b1, copyAt.
    replace (Z.min (sr_buf1 st + (len p - len s) - (idx + len p)) (len rest))
      with (len rest) by lia.
    rewrite firstn_len.
    do 3 f_equal. lia. }
  unfold copyAt.
  replace (Z.min (idx + len p - idx) (len p)) with (len p) by lia.
  rewrite firstn_len.
  assert (Hlenf : List.length (firstn (Z.to_nat (idx + len p)) (sr_buf st))
                  = Z.to_nat (idx + len p)).
  { rewrite length_firstn. unfold len in *. unfold idx in *. lia. }
  f_equal.
  - rewrite Hb1, firstn_app, Hlenf, firstn_firstn.
    replace (Z.to_nat idx - Z.to_nat (idx + len p))%nat with 0%nat
      by (unfold idx; lia).
    cbn [firstn]. rewrite app_nil_r. f_equal. unfold idx. lia.
  - f_equal. rewrite Hb1. apply skipn_app_exact.
    rewrite Hlenf. reflexivity.
Qed.

Lemma replaceAt_len : len (sr_buf (replaceAt st i s p)) = len (sr_buf st).
Proof.
  pose proof len_rest as Hrest. pose proof (len_nonneg s) as Hs.
  pose proof (len_nonneg p) as Hp.
  rewrite replaceAt_buf. rewrite !len_app, Hrest.
  unfold len at 1 4. rewrite length_firstn, length_skipn.
  unfold len in *. unfold idx in *. lia.
Qed.

Lemma replaceAt_processed :
  processed (replaceAt st i s p) =
  processed st ++ firstn (Z.to_nat i) (unprocessed st) ++ p.
Proof.
  pose proof (len_nonneg s) as Hs. pose proof (len_nonneg p) as Hp.
  unfold processed at 1. rewrite replaceAt_buf.
  unfold replaceAt. fold idx. cbn [sr_buf0 set_buf set_buf0 set_buf1].
  rewrite app_assoc. rewrite firstn_app_exact.
  - rewrite app_assoc. f_equal.
    unfold processed, unprocessed.
    rewrite firstn_firstn.
    replace (Nat.min (Z.to_nat i) (Z.to_nat (sr_buf1 st - sr_buf0 st)))
      with (Z.to_nat i) by lia.
    rewrite <- (firstn_skipn (Z.to_nat (sr_buf0 st))
                  (firstn (Z.to_nat idx) (sr_buf st))).
    f_equal.
    + rewrite firstn_firstn. f_equal. unfold idx. lia.
    + rewrite skipn_firstn_comm. f_equal. unfold idx. lia.
  - rewrite length_app, length_firstn. unfold len in *. unfold idx in *. lia.
Qed.

Lemma replaceAt_unprocessed :
  unprocessed (replaceAt st i s p) =
  skipn (Z.to_nat (i + len s)) (unprocessed st).
Proof.
  pose proof len_rest as Hrest. pose proof (len_nonneg s) as Hs.
  pose proof (len_nonneg p) as Hp.
  unfold unprocessed at 1. rewrite replaceAt_buf.
  unfold replaceAt. fold idx. cbn [sr_buf0 sr_buf1 set_buf set_buf0 set_buf1].
  rewrite app_assoc. rewrite skipn_app_exact.
  - rewrite firstn_app_exact.
    + unfold rest, unprocessed. rewrite skipn_firstn_comm, skipn_skipn.
      f_equal; [|f_equal]; unfold idx; lia.
    + unfold len in *. unfold idx in *. lia.
  - rewrite length_app, length_firstn. unfold len in *. unfold idx in *. lia.
Qed.

End Replacement.

(** ** The scan loop *)

Section Scan.

Context {R T : Type} {io : IoReader R} {br : BytesReplacer T}.

Lemma scan_S_inv (fuel : nat) (st st' : @StreamReplacingReader R T) :
  scan (S fuel) st = Ok st' ->
  exists rep region i s p,
    sr_replacer st = Some rep /\
    slice (sr_buf st) (sr_buf0 st) (sr_buf1 st) = Ok region /\
    Index rep region = (i, s, p) /\
    ((i < 0 /\
      st' = set_buf0 st (Z.max (sr_buf0 st)
                           (sr_buf1 st - sr_maxSearchTokenLen st + 1))) \/
     (0 <= i /\ 1 <= len s /\
      i + sr_buf0 st + len s <= sr_buf1 st /\
      sr_buf1 st + (len p - len s) <= len (sr_buf st) /\
      scan fuel (replaceAt st i s p) = Ok st')).
Proof.
  intro H. cbn [scan] in H. unfold bind in H.
  destruct (sr_replacer st) as [rep|] eqn:Er; [|discriminate].
  destruct (slice (sr_buf st) (sr_buf0 st) (sr_buf1 st)) as [region| |] eqn:Es;
    try discriminate.
  destruct (Index rep region) as [[i s] p] eqn:Ei.
  exists rep, region, i, s, p.
  split; [reflexivity|]. split; [reflexivity|]. split; [exact Ei|].
  destruct (i <? 0) eqn:Eneg.
  - left. apply Z.ltb_lt in Eneg. split; [exact Eneg|].
    inversion H. rewrite max_Zmax. reflexivity.
  - right. apply Z.ltb_ge in Eneg.
    destruct (len s =? 0) eqn:Ez; [discriminate|]. apply Z.eqb_neq in Ez.
    pose proof (len_nonneg s) as Hs.
    destruct (slice (sr_buf st) (i + sr_buf0 st + len p)
                (sr_buf1 st + (len p - len s))) as [x1| |] eqn:E1;
      try discriminate.
    destruct (slice (sr_buf st) (i + sr_buf0 st + len s) (sr_buf1 st))
      as [rest| |] eqn:E2; try discriminate.
    destruct (slice _ (i + sr_buf0 st) (i + sr_buf0 st + len p))
      as [x3| |] eqn:E3; try discriminate.
    apply slice_inv in E1. apply slice_inv in E2.
    destruct E1 as [_ [_ [Hfit _]]]. destruct E2 as [_ [Hend [_ Hrest]]].
    split; [exact Eneg|]. split; [lia|]. split; [exact Hend|].
    split; [exact Hfit|].
    unfold replaceAt. rewrite <- Hrest. exact H.
Qed.

Lemma slice_uses_no_fuel (b : ByteSlice) (lo hi : Z) :
  slice b lo hi <> OutOfFuel.
Proof.
  unfold slice. destruct ((0 <=? lo) && (lo <=? hi) && (hi <=? len b));
    discriminate.
Qed.

(** X6.  The scan loop ends: with more fuel than there are unprocessed
    bytes it never runs out of fuel, whatever the [BytesReplacer] answers,
    because every replacement consumes at least one unprocessed byte. *)
Theorem scan_ends_within_the_unprocessed_bytes (fuel : nat) :
  forall st : @StreamReplacingReader R T,
    (Z.to_nat (sr_buf1 st - sr_buf0 st) < fuel)%nat ->
    scan fuel st <> OutOfFuel.
Proof.
  induction fuel as [|fuel IH]; intros st Hfuel; [lia|].
  cbn [scan]. unfold bind.
  destruct (sr_replacer st) as [rep|]; [|discriminate].
  destruct (slice (sr_buf st) (sr_buf0 st) (sr_buf1 st)) as [region| |] eqn:Es;
    try discriminate;
    try (exfalso; eapply slice_uses_no_fuel; eassumption).
  destruct (Index rep region) as [[i s] p].
  destruct (i <? 0) eqn:Eneg; [discriminate|]. apply Z.ltb_ge in Eneg.
  destruct (len s =? 0) eqn:Ez; [discriminate|]. apply Z.eqb_neq in Ez.
  pose proof (len_nonneg s) as Hs.
  destruct (slice (sr_buf st) (i + sr_buf0 st + len p)
              (sr_buf1 st + (len p - len s))) as [x1| |] eqn:E1;
    try discriminate;
    try (exfalso; eapply slice_uses_no_fuel; eassumption).
  destruct (slice (sr_buf st) (i + sr_buf0 st + len s) (sr_buf1 st))
    as [rest| |] eqn:E2; try discriminate;
    try (exfalso; eapply slice_uses_no_fuel; eassumption).
  destruct (slice _ (i + sr_buf0 st) (i + sr_buf0 st + len p))
    as [x3| |] eqn:E3; try discriminate;
    try (exfalso; eapply slice_uses_no_fuel; eassumption).
  apply IH. cbn [sr_buf0 sr_buf1 set_buf set_buf0 set_buf1].
  apply slice_inv in E2. lia.
Qed.

Lemma held_split (st : @StreamReplacingReader R T) :
  0 <= sr_buf0 st -> sr_buf0 st <= sr_buf1 st ->
  held st = processed st ++ unprocessed st.
Proof.
  intros H0 H1. unfold held, processed, unprocessed.
  rewrite <- (firstn_skipn (Z.to_nat (sr_buf0 st))
                (firstn (Z.to_nat (sr_buf1 st)) (sr_buf st))).
  f_equal.
  - rewrite firstn_firstn. f_equal. lia.
  - rewrite skipn_firstn_comm. f_equal. lia.
Qed.

(** What a scan that returns leaves in place. *)
Lemma scan_keeps (fuel : nat) :
  forall st st' : @StreamReplacingReader R T,
    scan fuel st = Ok st' ->
    sr_replacer st' = sr_replacer st /\
    sr_maxSearchTokenLen st' = sr_maxSearchTokenLen st /\
    sr_max st' = sr_max st /\
    len (sr_buf st') = len (sr_buf st) /\
    0 <= sr_buf0 st /\ sr_buf0 st <= sr_buf0 st' /\
    sr_buf1 st' <= len (sr_buf st') /\
    (1 <= sr_maxSearchTokenLen st -> sr_buf0 st' <= sr_buf1 st') /\
    firstn (Z.to_nat (sr_buf0 st)) (sr_buf st') = processed st.
Proof.
  induction fuel as [|fuel IH]; intros st st' H; [discriminate|].
  destruct (scan_S_inv fuel st st' H)
    as [rep [region [i [s [p [Hrep [Hsl [Hidx Hcase]]]]]]]].
  apply slice_inv in Hsl. destruct Hsl as [H0 [H01 [H1 _]]].
  destruct Hcase as [[Hneg ->]|[Hi [Hs [Hend [Hfit Hrec]]]]].
  - cbn. repeat split; try reflexivity; try lia.
  - apply IH in Hrec.
    destruct Hrec as [Hr [Hm [Hmax [Hlen [Hb0 [Hmono [Hb1 [Hord Hproc]]]]]]]].
    rewrite replaceAt_len in Hlen by assumption.
    pose proof (len_nonneg p) as Hp.
    assert (Hb0' : sr_buf0 (replaceAt st i s p) = i + sr_buf0 st + len p)
      by reflexivity.
    change (sr_replacer (replaceAt st i s p)) with (sr_replacer st) in Hr.
    change (sr_maxSearchTokenLen (replaceAt st i s p))
      with (sr_maxSearchTokenLen st) in Hm, Hord.
    change (sr_max (replaceAt st i s p)) with (sr_max st) in Hmax.
    split; [exact Hr|]. split; [exact Hm|]. split; [exact Hmax|].
    split; [exact Hlen|]. split; [exact H0|]. split; [lia|].
    split; [exact Hb1|]. split; [exact Hord|].
    + assert (Hpre : firstn (Z.to_nat (sr_buf0 st))
                       (firstn (Z.to_nat (sr_buf0 (replaceAt st i s p)))
                          (sr_buf st')) =
                     firstn (Z.to_nat (sr_buf0 st)) (sr_buf st')).
      { rewrite firstn_firstn. f_equal. lia. }
      rewrite <- Hpre, Hproc.
      rewrite replaceAt_processed by assumption.
      apply firstn_app_exact.
      unfold processed. rewrite length_firstn. unfold len in *. lia.
Qed.

End Scan.

(** ** The scan and the whole-string replace *)

Lemma canonical_skip (pairs : list byteReplace) :
  forall s k,
    canonicalReplace_from pairs s k =
    canonicalReplace_from pairs (skipn k s) 0.
Proof.
  induction s as [|c s IH]; intros k.
  - destruct k; reflexivity.
  - destruct k as [|k]; [reflexivity|]. cbn [canonicalReplace_from skipn].
    apply IH.
Qed.

Lemma firstMatch_None (pairs : list byteReplace) (x : ByteSlice) :
  (forall er, In er pairs -> bytes.HasPrefix x (search er) = false) ->
  firstMatch pairs x = None.
Proof.
  induction pairs as [|er pairs IH]; intro H; [reflexivity|].
  cbn [firstMatch]. rewrite (H er) by (left; reflexivity).
  apply IH. intros er' Hin. apply H. right. exact Hin.
Qed.

Lemma firstMatch_nth (pairs : list byteReplace) (x : ByteSlice) :
  forall k er,
    nth_error pairs k = Some er ->
    bytes.HasPrefix x (search er) = true ->
    (forall j er', (j < k)%nat -> nth_error pairs j = Some er' ->
                   bytes.HasPrefix x (search er') = false) ->
    firstMatch pairs x = Some er.
Proof.
  induction pairs as [|a pairs IH]; intros k er Hk Hp Hbefore.
  - destruct k; discriminate.
  - destruct k as [|k].
    + cbn in Hk. inversion Hk. subst a. cbn [firstMatch]. rewrite Hp.
      reflexivity.
    + cbn [firstMatch].
      rewrite (Hbefore 0%nat a ltac:(lia) eq_refl).
      apply (IH k); [exact Hk | exact Hp |].
      intros j er' Hj Hnth. apply (Hbefore (S j)); [lia | exact Hnth].
Qed.

Lemma canonical_copy (pairs : list byteReplace) :
  forall i r,
    (i <= List.length r)%nat ->
    (forall j er, (j < i)%nat -> In er pairs ->
                  bytes.HasPrefix (skipn j r) (search er) = false) ->
    canonicalReplace_from pairs r 0 =
    firstn i r ++ canonicalReplace_from pairs (skipn i r) 0.
Proof.
  induction i as [|i IH]; intros r Hlen Hno; [reflexivity|].
  destruct r as [|c r]; [cbn in Hlen; lia|].
  cbn [canonicalReplace_from firstn skipn app].
  rewrite firstMatch_None.
  - f_equal. apply IH; [cbn in Hlen; lia|].
    intros j er Hj Hin. apply (Hno (S j) er); [lia | exact Hin].
  - intros er Hin. apply (Hno 0%nat er); [lia | exact Hin].
Qed.

Lemma canonical_match (pairs : list byteReplace) (r : ByteSlice)
    (er : byteReplace) :
  1 <= len (search er) ->
  bytes.HasPrefix r (search er) = true ->
  firstMatch pairs r = Some er ->
  canonicalReplace_from pairs r 0 =
  replace er
    ++ canonicalReplace_from pairs (skipn (List.length (search er)) r) 0.
Proof.
  intros Hs Hp Hfm.
  destruct r as [|c t].
  - rewrite HasPrefix_nil_l in Hp by exact Hs. discriminate.
  - cbn [canonicalReplace_from]. rewrite Hfm. f_equal.
    rewrite canonical_skip.
    unfold len in Hs.
    destruct (List.length (search er)) as [|n]; [lia|].
    replace (S n - 1)%nat with n by lia. reflexivity.
Qed.

(** One step of the whole-string replace, read off the answer of the
    aggregated [Index]. *)
Lemma canonical_follows_Index (rep : replacer) (r : ByteSlice) :
  nonEmptySearches rep ->
  let '(i, s, p) := replacer_Index rep r in
  (i < 0 -> canonicalReplace_from (replaces rep) r 0 = r) /\
  (0 <= i ->
   canonicalReplace_from (replaces rep) r 0 =
   firstn (Z.to_nat i) r ++ p
     ++ canonicalReplace_from (replaces rep)
          (skipn (Z.to_nat (i + len s)) r) 0).
Proof.
  intro Hne.
  destruct (replacer_Index rep r) as [[i s] p] eqn:Eidx.
  split.
  - intro Hneg.
    assert (Hno : forall er, In er (replaces rep) ->
                  forall j, bytes.HasPrefix (skipn j r) (search er) = false).
    { intros er Hin. apply (replacer_Index_neg_members rep r);
        [rewrite Eidx; exact Hneg | exact Hin | apply Hne; exact Hin]. }
    rewrite (canonical_copy (replaces rep) (List.length r) r);
      [|lia | intros j er _ Hin; apply Hno; exact Hin].
    rewrite firstn_all, skipn_all. cbn. apply app_nil_r.
  - intro Hpos.
    assert (Hr : r <> []).
    { intro Hr. subst r. cbn in Eidx. inversion Eidx. lia. }
    pose proof (replacer_Index_nonempty rep r Hr) as Hspec.
    rewrite Eidx in Hspec.
    destruct Hspec as [[Heq _]|[k0 [er0 [Hk0 [H0 [Heq [Hmin Hfirst]]]]]]].
    { inversion Heq. lia. }
    inversion Heq. subst i s p. clear Heq.
    unfold memberIndex, bytes.Index in *.
    destruct (indexFrom_sound r (search er0) 0) as [_ [Hocc Hle]];
      [lia | exact H0 |].
    rewrite Z.sub_0_r in Hocc, Hle.
    set (i := bytes.indexFrom r (search er0) 0) in *.
    assert (Hin0 : In er0 (replaces rep)) by (eapply nth_error_In; exact Hk0).
    pose proof (Hne er0 Hin0) as Hs0.
    rewrite (canonical_copy (replaces rep) (Z.to_nat i) r).
    + f_equal.
      rewrite (canonical_match (replaces rep) (skipn (Z.to_nat i) r) er0);
        [|exact Hs0 | exact Hocc |].
      * f_equal. rewrite skipn_skipn. f_equal. f_equal. unfold len. lia.
      * apply (firstMatch_nth (replaces rep) _ k0 er0 Hk0 Hocc).
        intros j er' Hj Hnth.
        destruct (bytes.HasPrefix (skipn (Z.to_nat i) r) (search er')) eqn:E;
          [|reflexivity].
        exfalso.
        pose proof (indexFrom_found r (search er') 0 (Z.to_nat i) E) as Hf.
        specialize (Hfirst j er' Hj Hnth). lia.
    + unfold len in Hle. lia.
    + intros j er Hj Hin.
      destruct (bytes.HasPrefix (skipn j r) (search er)) eqn:E;
        [|reflexivity].
      exfalso.
      pose proof (indexFrom_found r (search er) 0 j E) as Hf.
      destruct (In_nth_error _ _ Hin) as [n Hn].
      specialize (Hmin n er Hn). lia.
Qed.

Lemma scan_canonical {R : Type} {io : IoReader R} (fuel : nat) :
  forall (st st' : @StreamReplacingReader R replacer) (rep : replacer),
    nonEmptySearches rep ->
    sr_replacer st = Some rep ->
    scan fuel st = Ok st' ->
    held st' =
    processed st ++ canonicalReplace_from (replaces rep) (unprocessed st) 0.
Proof.
  induction fuel as [|fuel IH]; intros st st' rep Hne Hrep H; [discriminate|].
  destruct (scan_S_inv fuel st st' H)
    as [rep' [region [i [s [p [Hrep' [Hsl [Hidx Hcase]]]]]]]].
  rewrite Hrep in Hrep'. inversion Hrep'. subst rep'. clear Hrep'.
  apply slice_inv in Hsl. destruct Hsl as [H0 [H01 [H1 Hregion]]].
  fold (unprocessed st) in Hregion. subst region.
  pose proof (canonical_follows_Index rep (unprocessed st) Hne) as Hstep.
  cbn [Index replacer_BytesReplacer] in Hidx. rewrite Hidx in Hstep.
  destruct Hstep as [Hnone Hsome].
  destruct Hcase as [[Hneg ->]|[Hi [Hs [Hend [Hfit Hrec]]]]].
  - rewrite (Hnone Hneg).
    change (held (set_buf0 st _)) with (held st).
    apply held_split; assumption.
  - rewrite (Hsome Hi).
    rewrite (IH (replaceAt st i s p) st' rep Hne Hrep Hrec).
    rewrite replaceAt_processed, replaceAt_unprocessed by assumption.
    rewrite <- !app_assoc. reflexivity.
Qed.

(** X7.  A scan that returns has rewritten the unprocessed bytes into
    their whole-string replace: the engine then holds the bytes that were
    already processed, untouched, followed by the left-to-right,
    leftmost-match, first-registered-wins replacement of the bytes that were
    unprocessed.  The buffer keeps its length and [buf0] does not move
    back. *)
Theorem scan_rewrites_the_unprocessed_bytes_canonically {R : Type}
    {io : IoReader R} (fuel : nat)
    (st st' : @StreamReplacingReader R replacer) (rep : replacer) :
  nonEmptySearches rep ->
  sr_replacer st = Some rep ->
  scan fuel st = Ok st' ->
  held st' =
    processed st ++ canonicalReplace_from (replaces rep) (unprocessed st) 0 /\
  firstn (Z.to_nat (sr_buf0 st)) (sr_buf st') = processed st /\
  len (sr_buf st') = len (sr_buf st) /\
  sr_buf0 st <= sr_buf0 st' /\
  sr_buf1 st' <= len (sr_buf st').
Proof.
  intros Hne Hrep H.
  split; [exact (scan_canonical fuel st st' rep Hne Hrep H)|].
  destruct (scan_keeps fuel st st' H) as [_ [_ [_ [Hlen [_ [Hm [Hb1 [_ Hp]]]]]]]].
  repeat split; assumption.
Qed.

Local Open Scope string_scope.

Lemma scan_rewrites_the_unprocessed_bytes_canonically_witness :
  let st := engineHolding testPairs (B "a zt b") in
  let st' := afterScan st in
  held st' =
    (processed st
       ++ canonicalReplace_from (replaces (setOf testPairs))
            (unprocessed st) 0)%list /\
  firstn (Z.to_nat (sr_buf0 st)) (sr_buf st') = processed st /\
  len (sr_buf st') = len (sr_buf st) /\
  sr_buf0 st <= sr_buf0 st' /\
  sr_buf1 st' <= len (sr_buf st').
Proof.
  intros st st'.
  apply (scan_rewrites_the_unprocessed_bytes_canonically 64 st st'
           (setOf testPairs)).
  - intros er Hin; vm_compute in Hin;
    destruct Hin as [<-|[<-|[]]]; vm_compute; discriminate.
  - vm_compute. reflexivity.
  - vm_compute. reflexivity.
Defined.

Lemma scan_ends_within_the_unprocessed_bytes_witness :
  scan 7 (engineHolding testPairs (B "a zt b")) <> OutOfFuel.
Proof.
  apply (scan_ends_within_the_unprocessed_bytes 7
           (engineHolding testPairs (B "a zt b"))).
  vm_compute. lia.
Defined.

Local Close Scope string_scope.

(** ** Sets without a growing pair *)

Lemma replacer_Index_sound (rep : replacer) (buf : ByteSlice) (i : Z)
    (s p : ByteSlice) :
  replacer_Index rep buf = (i, s, p) -> 0 <= i ->
  exists er,
    In er (replaces rep) /\ s = search er /\ p = replace er /\
    occursAt buf s (Z.to_nat i).
Proof.
  intros Hidx Hi.
  assert (Hne : buf <> []).
  { intro Hb. subst buf. cbn in Hidx. inversion Hidx. lia. }
  pose proof (replacer_Index_nonempty rep buf Hne) as Hspec.
  rewrite Hidx in Hspec.
  destruct Hspec as [[Heq _]|[k0 [er0 [Hk0 [H0 [Heq _]]]]]].
  { inversion Heq. lia. }
  inversion Heq. subst i s p.
  exists er0. split; [eapply nth_error_In; exact Hk0|].
  split; [reflexivity|]. split; [reflexivity|].
  unfold memberIndex, bytes.Index in *.
  destruct (indexFrom_sound buf (search er0) 0) as [_ [Hs _]];
    [lia | exact H0 |].
  rewrite Z.sub_0_r in Hs. exact Hs.
Qed.

Section ScanForward.

Context {R T : Type} {io : IoReader R} {br : BytesReplacer T}.

Variable st : @StreamReplacingReader R T.
Variable rep : T.
Variables (i : Z) (s p : ByteSlice).

Hypothesis Hrep : sr_replacer st = Some rep.
Hypothesis Hbuf0 : 0 <= sr_buf0 st.
Hypothesis Hord : sr_buf0 st <= sr_buf1 st.
Hypothesis Hbuf1 : sr_buf1 st <= len (sr_buf st).
Hypothesis Hidx : Index rep (unprocessed st) = (i, s, p).

Lemma scan_S_nomatch (fuel : nat) :
  i < 0 ->
  scan (S fuel) st =
  Ok (set_buf0 st (Z.max (sr_buf0 st)
                     (sr_buf1 st - sr_maxSearchTokenLen st + 1))).
Proof.
  intro Hneg. cbn [scan]. unfold bind. rewrite Hrep.
  rewrite slice_ok by assumption. fold (unprocessed st). rewrite Hidx.
  apply Z.ltb_lt in Hneg. rewrite Hneg, max_Zmax. reflexivity.
Qed.

Lemma scan_S_match (fuel : nat) :
  0 <= i -> 1 <= len s ->
  i + sr_buf0 st + len s <= sr_buf1 st ->
  sr_buf1 st + (len p - len s) <= len (sr_buf st) ->
  scan (S fuel) st = scan fuel (replaceAt st i s p).
Proof.
  intros Hi Hs Hend Hfit. pose proof (len_nonneg p) as Hp.
  cbn [scan]. unfold bind. rewrite Hrep.
  rewrite slice_ok by assumption. fold (unprocessed st). rewrite Hidx.
  assert (E1 : (i <? 0) = false) by (apply Z.ltb_ge; lia).
  assert (E2 : (len s =? 0) = false) by (apply Z.eqb_neq; lia).
  rewrite E1, E2.
  rewrite (slice_ok (sr_buf st) (i + sr_buf0 st + len p)) by lia.
  rewrite (slice_ok (sr_buf st) (i + sr_buf0 st + len s)) by lia.
  rewrite slice_ok by (rewrite ?len_copyAt; lia).
  reflexivity.
Qed.

End ScanForward.

Lemma scan_never_overflows {R : Type} {io : IoReader R} (fuel : nat) :
  forall (st : @StreamReplacingReader R replacer) (rep : replacer),
    nonEmptySearches rep -> noGrowingPair rep ->
    sr_replacer st = Some rep ->
    0 <= sr_buf0 st -> sr_buf0 st <= sr_buf1 st ->
    sr_buf1 st <= len (sr_buf st) ->
    (Z.to_nat (sr_buf1 st - sr_buf0 st) < fuel)%nat ->
    exists st', scan fuel st = Ok st'.
Proof.
  induction fuel as [|fuel IH];
    intros st rep Hne Hng Hrep H0 H01 H1 Hfuel; [lia|].
  destruct (Index rep (unprocessed st)) as [[i s] p] eqn:Hidx.
  destruct (Z.lt_ge_cases i 0) as [Hneg|Hpos].
  - eexists. apply (scan_S_nomatch st rep i s p Hrep H0 H01 H1 Hidx).
    exact Hneg.
  - cbn [Index replacer_BytesReplacer] in Hidx.
    destruct (replacer_Index_sound rep _ i s p Hidx Hpos)
      as [er [Hin [-> [-> Hocc]]]].
    pose proof (Hne er Hin) as Hs. pose proof (Hng er Hin) as Hg.
    pose proof (occursAt_bound _ _ _ Hocc Hs) as Hend.
    pose proof (len_nonneg (replace er)) as Hp.
    assert (Hlenu : len (unprocessed st) = sr_buf1 st - sr_buf0 st).
    { unfold unprocessed. apply len_slice; assumption. }
    rewrite Hlenu in Hend. rewrite Z2Nat.id in Hend by exact Hpos.
    rewrite (scan_S_match st rep i (search er) (replace er) Hrep H0 H01 H1)
      by (cbn [Index replacer_BytesReplacer]; try assumption; lia).
    apply (IH _ rep Hne Hng); [exact Hrep | | | |].
    + cbn [sr_buf0 replaceAt set_buf set_buf0 set_buf1]. lia.
    + cbn [sr_buf0 sr_buf1 replaceAt set_buf set_buf0 set_buf1]. lia.
    + rewrite replaceAt_len by lia.
      cbn [sr_buf1 replaceAt set_buf set_buf0 set_buf1]. lia.
    + cbn [sr_buf0 sr_buf1 replaceAt set_buf set_buf0 set_buf1]. lia.
Qed.

Local Open Scope string_scope.

(** X8.  A set in which no replacement is longer than its search token
    never overflows the buffer: on an engine whose boundaries are in order,
    the scan with such a set (and non-empty search tokens) returns, with
    neither a panic nor a lack of fuel, as soon as the fuel exceeds the
    number of unprocessed bytes; and what the engine then holds is the
    processed bytes followed by the whole-string replace of the unprocessed
    ones. *)
Theorem scan_succeeds_without_growing_pair {R : Type} {io : IoReader R}
    (fuel : nat) (st : @StreamReplacingReader R replacer) (rep : replacer) :
  nonEmptySearches rep -> noGrowingPair rep ->
  sr_replacer st = Some rep ->
  0 <= sr_buf0 st -> sr_buf0 st <= sr_buf1 st ->
  sr_buf1 st <= len (sr_buf st) ->
  (Z.to_nat (sr_buf1 st - sr_buf0 st) < fuel)%nat ->
  exists st',
    scan fuel st = Ok st' /\
    held st' =
      (processed st
         ++ canonicalReplace_from (replaces rep) (unprocessed st) 0)%list.
Proof.
  intros Hne Hng Hrep H0 H01 H1 Hfuel.
  destruct (scan_never_overflows fuel st rep Hne Hng Hrep H0 H01 H1 Hfuel)
    as [st' Hscan].
  exists st'. split; [exact Hscan|].
  exact (scan_canonical fuel st st' rep Hne Hrep Hscan).
Qed.

Lemma scan_succeeds_without_growing_pair_witness :
  let st := engineHolding nestedPairs (B "abc b") in
  exists st',
    scan 8 st = Ok st' /\
    held st' =
      (processed st
         ++ canonicalReplace_from (replaces (setOf nestedPairs))
              (unprocessed st) 0)%list.
Proof.
  intro st.
  apply (scan_succeeds_without_growing_pair 8 st (setOf nestedPairs)).
  - intros er Hin; vm_compute in Hin;
    destruct Hin as [<-|[<-|[]]]; vm_compute; discriminate.
  - intros er Hin; vm_compute in Hin;
    destruct Hin as [<-|[<-|[]]]; vm_compute; discriminate.
  - vm_compute. reflexivity.
  - vm_compute. discriminate.
  - vm_compute. discriminate.
  - vm_compute. discriminate.
  - vm_compute. lia.
Defined.

Local Close Scope string_scope.

(** ** [Read]: handing out and pulling *)

Lemma copyAt_nil (b : ByteSlice) (lo hi : Z) :
  0 <= lo -> lo <= hi -> copyAt b lo hi [] = b.
Proof.
  intros H0 H1. unfold copyAt. change (len (@nil byte)) with 0.
  rewrite Z.min_r by lia. rewrite Z.add_0_r. cbn [Z.to_nat firstn app].
  apply firstn_skipn.
Qed.

Lemma firstn_copyAt_append (b src : ByteSlice) (lo hi : Z) :
  0 <= lo -> hi <= len b -> len src <= hi - lo ->
  firstn (Z.to_nat (lo + len src)) (copyAt b lo hi src) =
  firstn (Z.to_nat lo) b ++ src.
Proof.
  intros H0 H1 H2. pose proof (len_nonneg src) as Hs. unfold copyAt.
  rewrite Z.min_r by lia. rewrite firstn_len.
  rewrite app_assoc. apply firstn_app_exact.
  rewrite length_app, length_firstn. unfold len in *. lia.
Qed.

Section Reading.

Context {R T : Type} {io : IoReader R} {br : BytesReplacer T}.

Lemma len_held (st : @StreamReplacingReader R T) :
  0 <= sr_buf1 st -> sr_buf1 st <= len (sr_buf st) ->
  len (held st) = sr_buf1 st.
Proof.
  intros H0 H1. unfold held, len in *. rewrite length_firstn. lia.
Qed.

Lemma processed_of_held (st : @StreamReplacingReader R T) :
  0 <= sr_buf0 st -> sr_buf0 st <= sr_buf1 st ->
  processed st = firstn (Z.to_nat (sr_buf0 st)) (held st).
Proof.
  intros H0 H1. unfold processed, held. rewrite firstn_firstn.
  f_equal. lia.
Qed.

(** The first branch of [Read]: the bytes handed out, the boundaries
    afterwards, and the compaction, which keeps what is left in order. *)
Lemma drain_spec (st : @StreamReplacingReader R T) (plen : Z) :
  0 <= sr_buf0 st -> sr_buf0 st <= sr_buf1 st ->
  sr_buf1 st <= len (sr_buf st) -> 0 <= plen ->
  let n := Z.min plen (sr_buf0 st) in
  exists st',
    drain st plen =
      Ok (n, firstn (Z.to_nat n) (processed st),
          if sr_buf1 st - n =? 0 then sr_err st else None, st') /\
    sr_buf0 st' = sr_buf0 st - n /\
    sr_buf1 st' = sr_buf1 st - n /\
    len (sr_buf st') = len (sr_buf st) /\
    held st' = skipn (Z.to_nat n) (held st) /\
    sr_r st' = sr_r st /\ sr_err st' = sr_err st /\
    sr_replacer st' = sr_replacer st /\
    sr_maxSearchTokenLen st' = sr_maxSearchTokenLen st /\
    sr_max st' = sr_max st.
Proof.
  intros H0 H01 H1 Hplen n.
  assert (Hn : 0 <= n <= sr_buf0 st) by (unfold n; lia).
  unfold drain, bind. rewrite slice_ok by lia.
  rewrite Z.sub_0_r. change (Z.to_nat 0) with 0%nat. cbn [skipn].
  fold (processed st).
  assert (Hlp : len (processed st) = sr_buf0 st).
  { unfold processed, len in *. rewrite length_firstn. lia. }
  rewrite Hlp. fold n.
  cbn [sr_buf1 sr_err sr_buf sr_buf0 set_buf0 set_buf1 set_buf].
  assert (Hheld : len (held st) = sr_buf1 st) by (apply len_held; lia).
  destruct (sr_buf1 st - n =? 0) eqn:Ez.
  - apply Z.eqb_eq in Ez. destruct (sr_err st) as [e|] eqn:Ee; cbn [isSome andb].
    + eexists. split; [reflexivity|].
      cbn [sr_buf1 sr_err sr_buf sr_buf0 sr_r sr_replacer sr_max
           sr_maxSearchTokenLen set_buf0 set_buf1 set_buf].
      repeat split; try reflexivity; try assumption.
      unfold held at 1.
      cbn [sr_buf1 sr_buf set_buf0 set_buf1 set_buf].
      rewrite Ez. cbn [Z.to_nat firstn].
      symmetry. apply len_nil_iff. rewrite len_skipn_Z by lia. lia.
    + rewrite slice_ok by lia.
      eexists. split; [reflexivity|].
      cbn [sr_buf1 sr_err sr_buf sr_buf0 sr_r sr_replacer sr_max
           sr_maxSearchTokenLen set_buf0 set_buf1 set_buf].
      rewrite len_copyAt by lia.
      repeat split; try reflexivity; try assumption.
      unfold held at 1.
      cbn [sr_buf1 sr_buf set_buf0 set_buf1 set_buf].
      rewrite Ez. cbn [Z.to_nat firstn].
      symmetry. apply len_nil_iff. rewrite len_skipn_Z by lia. lia.
  - apply Z.eqb_neq in Ez. cbn [andb].
    rewrite slice_ok by lia.
    eexists. split; [reflexivity|].
    cbn [sr_buf1 sr_err sr_buf sr_buf0 sr_r sr_replacer sr_max
         sr_maxSearchTokenLen set_buf0 set_buf1 set_buf].
    rewrite len_copyAt by lia.
    repeat split; try reflexivity; try assumption.
    unfold held.
    cbn [sr_buf1 sr_buf set_buf0 set_buf1 set_buf].
    replace (sr_buf1 st - n + n - n) with (sr_buf1 st - n) by lia.
    set (rest := firstn (Z.to_nat (sr_buf1 st - n))
                   (skipn (Z.to_nat n) (sr_buf st))).
    assert (Hrest : len rest = sr_buf1 st - n).
    { unfold rest. apply len_slice; lia. }
    rewrite <- Hrest. rewrite firstn_copyAt_front by lia.
    unfold rest. rewrite skipn_firstn_comm. f_equal. lia.
Qed.

Lemma scan_shrinks (fuel : nat) :
  forall st st' : @StreamReplacingReader R T,
    scan fuel st = Ok st' ->
    sr_buf1 st' - sr_buf0 st' <= sr_buf1 st - sr_buf0 st.
Proof.
  induction fuel as [|fuel IH]; intros st st' H; [discriminate|].
  destruct (scan_S_inv fuel st st' H)
    as [rep [region [i [s [p [Hrep [Hsl [Hidx Hcase]]]]]]]].
  destruct Hcase as [[Hneg ->]|[Hi [Hs [Hend [Hfit Hrec]]]]].
  - cbn. lia.
  - apply IH in Hrec.
    cbn [sr_buf0 sr_buf1 replaceAt set_buf set_buf0 set_buf1] in Hrec. lia.
Qed.

(** The pull: what [fill] leaves when it returns. *)
Lemma fill_keeps (fuel : nat) (st st' : @StreamReplacingReader R T) :
  0 <= sr_buf0 st -> sr_buf0 st <= sr_buf1 st ->
  1 <= sr_maxSearchTokenLen st ->
  fill fuel st = Ok st' ->
  0 <= sr_buf0 st' /\ sr_buf0 st' <= sr_buf1 st' /\
  sr_buf1 st' <= len (sr_buf st') /\
  len (sr_buf st') = len (sr_buf st) /\
  sr_replacer st' = sr_replacer st /\
  sr_maxSearchTokenLen st' = sr_maxSearchTokenLen st /\
  sr_max st' = sr_max st.
Proof.
  intros H0 H01 Hm H. unfold fill, bind in H.
  destruct (sr_r st) as [rd|]; [|discriminate].
  destruct (slice (sr_buf st) (sr_buf1 st) (sr_max st)) as [dst| |] eqn:Es;
    try discriminate.
  destruct (ioRead rd (len dst)) as [[got e] rd'].
  apply slice_inv in Es. destruct Es as [Hs0 [Hs1 [Hs2 Hdst]]].
  assert (Hld : len dst = sr_max st - sr_buf1 st).
  { rewrite Hdst. apply len_slice; assumption. }
  set (got' := firstn (Z.to_nat (len dst)) got) in *.
  assert (Hgot : 0 <= len got' <= len dst).
  { unfold got', len. rewrite length_firstn. unfold len in *. lia. }
  set (st1 := set_r_err _ rd' e) in *.
  assert (Hl1 : len (sr_buf st1) = len (sr_buf st)).
  { unfold st1. cbn. apply len_copyAt; lia. }
  assert (Hdone : forall st2 : @StreamReplacingReader R T,
             0 <= sr_buf0 st2 -> sr_buf0 st2 <= sr_buf1 st2 ->
             sr_buf1 st2 <= len (sr_buf st2) ->
             len (sr_buf st2) = len (sr_buf st) ->
             sr_replacer st2 = sr_replacer st ->
             sr_maxSearchTokenLen st2 = sr_maxSearchTokenLen st ->
             sr_max st2 = sr_max st ->
             Ok (if isSome (sr_err st2) then set_buf0 st2 (sr_buf1 st2)
                 else st2) = Ok st' ->
             0 <= sr_buf0 st' /\ sr_buf0 st' <= sr_buf1 st' /\
             sr_buf1 st' <= len (sr_buf st') /\
             len (sr_buf st') = len (sr_buf st) /\
             sr_replacer st' = sr_replacer st /\
             sr_maxSearchTokenLen st' = sr_maxSearchTokenLen st /\
             sr_max st' = sr_max st).
  { intros st2 A0 A1 A2 A3 A4 A5 A6 H2. inversion H2 as [H']. clear H2.
    destruct (isSome (sr_err st2)); subst st'; cbn;
      repeat split; try assumption; lia. }
  destruct (len got' >? 0).
  - destruct (scan fuel (set_buf1 st1 (sr_buf1 st1 + len got')))
      as [st2| |] eqn:Esc; try discriminate.
    destruct (scan_keeps fuel _ _ Esc)
      as [Kr [Km [Kx [Kl [K0 [Kmono [K1 [Kord _]]]]]]]].
    change (sr_buf0 (set_buf1 st1 (sr_buf1 st1 + len got')))
      with (sr_buf0 st) in Kmono.
    change (sr_maxSearchTokenLen (set_buf1 st1 (sr_buf1 st1 + len got')))
      with (sr_maxSearchTokenLen st) in Km, Kord.
    change (sr_max (set_buf1 st1 (sr_buf1 st1 + len got')))
      with (sr_max st) in Kx.
    change (sr_replacer (set_buf1 st1 (sr_buf1 st1 + len got')))
      with (sr_replacer st) in Kr.
    change (sr_buf (set_buf1 st1 (sr_buf1 st1 + len got')))
      with (sr_buf st1) in Kl.
    apply (Hdone st2);
      [lia | apply Kord; exact Hm | exact K1 | congruence | exact Kr
       | exact Km | exact Kx | exact H].
  - apply (Hdone st1);
      [exact H0 | exact H01 | rewrite Hl1; change (sr_buf1 st1)
                                 with (sr_buf1 st); lia
       | exact Hl1 | reflexivity | reflexivity | reflexivity | exact H].
Qed.

End Reading.

(** X9.  [Read] keeps the engine in order and honours the length of the
    caller's buffer: from an engine whose boundaries satisfy
    [0 <= buf0 <= buf1 <= len(buf)], a [Read] that returns leaves such an
    engine again, with a buffer of the same length and the same set and
    bounds, and it reports between 0 and [len(p)] bytes, exactly as many as
    it wrote. *)
Theorem Read_keeps_the_engine_in_order {R T : Type} {io : IoReader R}
    {br : BytesReplacer T} (fuel : nat) :
  forall (st st' : @StreamReplacingReader R T) (plen n : Z)
         (out : ByteSlice) (e : option error),
    wfEngine st -> 0 <= plen ->
    Read fuel st plen = Ok (n, out, e, st') ->
    wfEngine st' /\
    len (sr_buf st') = len (sr_buf st) /\
    0 <= n <= plen /\ len out = n /\
    sr_replacer st' = sr_replacer st /\
    sr_maxSearchTokenLen st' = sr_maxSearchTokenLen st /\
    sr_max st' = sr_max st.
Proof.
  induction fuel as [|fuel IH];
    intros st st' plen n out e [H0 [H01 [H1 Hm]]] Hplen H; [discriminate|].
  cbn [Read] in H.
  destruct (sr_buf0 st >? 0) eqn:E0.
  - destruct (drain_spec st plen H0 H01 H1 Hplen)
      as [st1 [Hd [D0 [D1 [Dl [_ [_ [_ [Dr [Dm Dx]]]]]]]]]].
    rewrite Hd in H. inversion H. subst. clear H.
    unfold wfEngine. rewrite D0, D1, Dl, Dm.
    assert (Hlp : len (processed st) = sr_buf0 st).
    { unfold processed, len in *. rewrite length_firstn. lia. }
    repeat split; try assumption; try lia.
    unfold len in *. rewrite length_firstn. lia.
  - destruct (isSome (sr_err st)).
    + inversion H. subst. clear H. unfold wfEngine.
      repeat split; try assumption; try reflexivity; lia.
    + unfold bind in H.
      destruct (fill fuel st) as [st1| |] eqn:Ef; try discriminate.
      destruct (fill_keeps fuel st st1 H0 H01 Hm Ef)
        as [F0 [F01 [F1 [Fl [Fr [Fm Fx]]]]]].
      assert (Hwf1 : wfEngine st1).
      { unfold wfEngine. rewrite Fm. repeat split; assumption. }
      destruct (IH st1 st' plen n out e Hwf1 Hplen H)
        as [Hwf [Hl [Hn [Ho [Hr [Hm' Hx]]]]]].
      split; [exact Hwf|]. split; [congruence|]. split; [exact Hn|].
      split; [exact Ho|]. split; [congruence|]. split; congruence.
Qed.

(** X10.  Processed bytes go out first.  When [buf0 > 0], [Read] hands
    out the first [min(len(p), buf0)] processed bytes without touching the
    underlying reader, moves what the engine still holds to the front of the
    buffer in the same order, and lowers both boundaries by the count; a
    pending condition is reported only by the call that empties the
    buffer. *)
Theorem Read_hands_out_processed_bytes_first {R T : Type} {io : IoReader R}
    {br : BytesReplacer T} (fuel : nat) (st : @StreamReplacingReader R T)
    (plen : Z) :
  wfEngine st -> 0 < sr_buf0 st -> 0 <= plen ->
  let n := Z.min plen (sr_buf0 st) in
  exists st',
    Read (S fuel) st plen =
      Ok (n, firstn (Z.to_nat n) (processed st),
          if sr_buf1 st - n =? 0 then sr_err st else None, st') /\
    sr_r st' = sr_r st /\ sr_err st' = sr_err st /\
    held st' = skipn (Z.to_nat n) (held st) /\
    sr_buf0 st' = sr_buf0 st - n /\ sr_buf1 st' = sr_buf1 st - n.
Proof.
  intros [H0 [H01 [H1 Hm]]] Hpos Hplen n.
  destruct (drain_spec st plen H0 H01 H1 Hplen)
    as [st1 [Hd [D0 [D1 [_ [Dh [Dr [De _]]]]]]]].
  exists st1. cbn [Read].
  assert (E0 : (sr_buf0 st >? 0) = true) by (apply Z.gtb_lt; lia).
  rewrite E0. repeat split; assumption.
Qed.

Local Open Scope string_scope.

Lemma Read_hands_out_processed_bytes_first_witness :
  let st := afterScan (engineHolding testPairs (B "a zt b")) in
  let n := Z.min 4 (sr_buf0 st) in
  exists st',
    Read 1 st 4 =
      Ok (n, firstn (Z.to_nat n) (processed st),
          if (sr_buf1 st - n =? 0)%Z then sr_err st else None, st') /\
    sr_r st' = sr_r st /\ sr_err st' = sr_err st /\
    held st' = skipn (Z.to_nat n) (held st) /\
    sr_buf0 st' = sr_buf0 st - n /\ sr_buf1 st' = sr_buf1 st - n.
Proof.
  intro st.
  apply (Read_hands_out_processed_bytes_first 0 st 4).
  - unfold wfEngine. vm_compute. repeat split; discriminate.
  - vm_compute. reflexivity.
  - lia.
Defined.

Lemma Read_keeps_the_engine_in_order_witness :
  let st := engineOn testPairs (B "a zt b") 4096 in
  exists st' n out e,
    Read 16 st 4 = Ok (n, out, e, st') /\
    wfEngine st' /\
    len (sr_buf st') = len (sr_buf st) /\
    0 <= n <= 4 /\ len out = n /\
    sr_replacer st' = sr_replacer st /\
    sr_maxSearchTokenLen st' = sr_maxSearchTokenLen st /\
    sr_max st' = sr_max st.
Proof.
  intro st.
  destruct (Read 16 st 4) as [[[[n out] e] st']| |] eqn:E;
    [|vm_compute in E; discriminate|vm_compute in E; discriminate].
  exists st', n, out, e. split; [reflexivity|].
  apply (Read_keeps_the_engine_in_order 16 st st' 4 n out e).
  - unfold wfEngine. vm_compute. repeat split; discriminate.
  - lia.
  - exact E.
Defined.

Local Close Scope string_scope.

(** ** Reading a stream to its end *)

Section Draining.

Context {T : Type} {br : BytesReplacer T}.

Let engine := @StreamReplacingReader ChunkReader T.

Lemma fill_on_dry_source (fuel : nat) (st : engine) (e : error) :
  sourceDry st e -> sr_buf0 st = 0 ->
  0 <= sr_buf1 st -> sr_buf1 st <= sr_max st ->
  sr_max st <= len (sr_buf st) ->
  exists st',
    fill fuel st = Ok st' /\ flushed e (held st) st' /\
    held st' = held st.
Proof.
  intros [Herr [rd [Hr [Hdata Hfin]]]] H0 H1 Hmax Hlen.
  unfold fill, bind. rewrite Hr. rewrite slice_ok by lia.
  cbn [ioRead ChunkReader_IoReader]. unfold ChunkReader_Read.
  rewrite Hdata. change (len (@nil byte)) with 0. cbn [Z.eqb].
  rewrite firstn_nil. change (len (@nil byte)) with 0. cbn [Z.gtb Z.compare].
  rewrite copyAt_nil by lia. cbn [sr_err set_r_err isSome].
  eexists. split; [reflexivity|].
  unfold flushed, held. cbn. rewrite Hfin.
  repeat split; try reflexivity; lia.
Qed.

(** One [Read] of an engine that only drains. *)
Lemma Read_draining (fuel : nat) (st : engine) (pending : ByteSlice)
    (e : error) (plen : Z) :
  draining st pending e -> 1 <= plen ->
  exists n e' st',
    Read (S (S fuel)) st plen =
      Ok (n, firstn (Z.to_nat n) pending, e', st') /\
    0 <= n <= len pending /\
    draining st' (skipn (Z.to_nat n) pending) e /\
    ((e' = Some e /\ skipn (Z.to_nat n) pending = []) \/
     (e' = None /\ 1 <= n)).
Proof.
  intros [Hheld [H0 [H01 [H1 Hcase]]]] Hplen.
  assert (Hlen : len pending = sr_buf1 st).
  { rewrite <- Hheld. apply len_held; lia. }
  assert (Hflushed : forall f (st1 : engine) pend,
             flushed e pend st1 ->
             exists n e' st',
               Read (S f) st1 plen =
                 Ok (n, firstn (Z.to_nat n) pend, e', st') /\
               0 <= n <= len pend /\
               draining st' (skipn (Z.to_nat n) pend) e /\
               ((e' = Some e /\ skipn (Z.to_nat n) pend = []) \/
                (e' = None /\ 1 <= n))).
  { intros f st1 pend Hfl.
    destruct (Read_flushed f st1 e pend plen Hfl ltac:(lia))
      as [st2 [Hread [Hfl2 _]]].
    pose proof (len_nonneg pend) as Hpn.
    exists (Z.min plen (len pend)),
      (if len (skipn (Z.to_nat (Z.min plen (len pend))) pend) =? 0
       then Some e else None), st2.
    split; [exact Hread|]. split; [lia|]. split.
    - destruct Hfl2 as [F1 [F2 [F3 F4]]].
      unfold draining. split; [exact F4|].
      split; [lia|]. split; [lia|]. split; [lia|].
      left. unfold flushed. auto.
    - destruct (len (skipn (Z.to_nat (Z.min plen (len pend))) pend) =? 0)
        eqn:Ez.
      + left. split; [reflexivity|]. apply len_nil_iff.
        apply Z.eqb_eq. exact Ez.
      + right. split; [reflexivity|]. apply Z.eqb_neq in Ez.
        rewrite len_skipn_Z in Ez by lia. lia. }
  destruct Hcase as [Hfl|[Hdry [Htail Hmax]]].
  - apply Hflushed. exact Hfl.
  - destruct (Z.lt_ge_cases 0 (sr_buf0 st)) as [Hpos|Hzero].
    + (* processed bytes first *)
      destruct (drain_spec st plen H0 H01 H1 ltac:(lia))
        as [st1 [Hd [D0 [D1 [Dl [Dh [Dr [De [_ [_ Dx]]]]]]]]]].
      destruct Hdry as [Herr Hsrc].
      exists (Z.min plen (sr_buf0 st)), None, st1.
      cbn [Read].
      assert (E0 : (sr_buf0 st >? 0) = true) by (apply Z.gtb_lt; lia).
      rewrite E0.
      split.
      * rewrite Hd. rewrite Herr.
        rewrite (processed_of_held st H0 H01), Hheld.
        rewrite firstn_firstn.
        replace (Nat.min (Z.to_nat (Z.min plen (sr_buf0 st)))
                   (Z.to_nat (sr_buf0 st)))
          with (Z.to_nat (Z.min plen (sr_buf0 st))) by lia.
        destruct (sr_buf1 st - Z.min plen (sr_buf0 st) =? 0); reflexivity.
      * split; [lia|]. split.
        -- unfold draining. rewrite Dh, Hheld, D0, D1, Dl, Dx.
           split; [reflexivity|].
           split; [lia|]. split; [lia|]. split; [lia|].
           right. split; [|lia].
           unfold sourceDry. rewrite De, Dr. split; assumption.
        -- right. split; [reflexivity | lia].
    + (* the pull finds the source dry *)
      assert (Hb0 : sr_buf0 st = 0) by lia.
      destruct (fill_on_dry_source (S fuel) st e Hdry Hb0)
        as [st1 [Hfill [Hfl _]]]; try lia.
      rewrite Hheld in Hfl.
      destruct (Hflushed fuel st1 pending Hfl) as [n [e' [st2 [Hr Hrest]]]].
      exists n, e', st2. split; [|exact Hrest].
      cbn [Read].
      assert (E0 : (sr_buf0 st >? 0) = false).
      { rewrite Z.gtb_ltb. apply Z.ltb_ge. lia. }
      rewrite E0. destruct Hdry as [Herr _]. rewrite Herr. cbn [isSome].
      unfold bind. rewrite Hfill. exact Hr.
Qed.

Lemma ReadAll_draining (calls : nat) :
  forall (fuel : nat) (st : engine) (pending : ByteSlice) (e : error)
         (plen : Z),
    draining st pending e -> 1 <= plen ->
    (Z.to_nat (len pending) < calls)%nat ->
    ReadAll calls (S (S fuel)) st plen = Ok (pending, readAllError e).
Proof.
  induction calls as [|calls IH];
    intros fuel st pending e plen Hd Hplen Hcalls; [lia|].
  destruct (Read_draining fuel st pending e plen Hd Hplen)
    as [n [e' [st' [Hread [Hn [Hd' Hcase]]]]]].
  cbn [ReadAll]. unfold bind at 1. rewrite Hread.
  destruct Hcase as [[-> Hnil]|[-> Hn1]].
  - assert (Hall : firstn (Z.to_nat n) pending = pending).
    { rewrite <- (firstn_skipn (Z.to_nat n) pending) at 2.
      rewrite Hnil, app_nil_r. reflexivity. }
    rewrite Hall. destruct e; reflexivity.
  - rewrite (IH fuel st' _ e plen Hd' Hplen).
    + cbn [bind fst snd]. rewrite firstn_skipn. reflexivity.
    + rewrite len_skipn_Z by lia. lia.
Qed.

End Draining.

(** X11.  Once the source is dry, everything the engine holds comes out.
    On an engine with no condition recorded, whose source has no byte left,
    [io.ReadAll] returns exactly the bytes held in [buf[0:buf1]], the
    retained tail included as it is (it is not scanned again), and reports
    the source's final condition ([EOF] as success). *)
Theorem ReadAll_gives_what_is_held_once_the_source_is_dry {T : Type}
    {br : BytesReplacer T} (calls fuel : nat)
    (st : @StreamReplacingReader ChunkReader T) (rd : ChunkReader)
    (plen : Z) :
  0 <= sr_buf0 st -> sr_buf0 st <= sr_buf1 st ->
  sr_buf1 st <= len (sr_buf st) ->
  sr_buf1 st - sr_buf0 st <= sr_max st -> sr_max st <= len (sr_buf st) ->
  sr_err st = None -> sr_r st = Some rd -> cr_data rd = [] ->
  1 <= plen -> (Z.to_nat (sr_buf1 st) < calls)%nat ->
  ReadAll calls (S (S fuel)) st plen =
    Ok (held st, readAllError (cr_final rd)).
Proof.
  intros H0 H01 H1 Htail Hmax Herr Hr Hdata Hplen Hcalls.
  apply ReadAll_draining; [|exact Hplen|].
  - unfold draining. split; [reflexivity|].
    split; [exact H0|]. split; [exact H01|]. split; [exact H1|].
    right. split; [|split; assumption].
    unfold sourceDry. split; [exact Herr|]. exists rd. auto.
  - rewrite len_held by lia. exact Hcalls.
Qed.

Lemma ReadAll_gives_what_is_held_once_the_source_is_dry_witness :
  let st := afterFill (engineOn testPairs (B "a zt z"%string) 4096) in
  ReadAll 20 2 st 4 =
    Ok (held st, readAllError (cr_final (dried (sourceOf [] 4096)))).
Proof.
  intro st.
  apply (ReadAll_gives_what_is_held_once_the_source_is_dry 20 0 st
           (dried (sourceOf [] 4096)) 4);
    try (vm_compute; discriminate); try (vm_compute; reflexivity).
  vm_compute. lia.
Defined.

(** ** A stream that arrives in one pull *)

Section OnePull.

Variable st : @StreamReplacingReader ChunkReader replacer.
Variable rep : replacer.
Variable rd : ChunkReader.

Hypothesis Hrep : sr_replacer st = Some rep.
Hypothesis Hne : nonEmptySearches rep.
Hypothesis Hm : 1 <= sr_maxSearchTokenLen st.
Hypothesis Hb0 : sr_buf0 st = 0.
Hypothesis Hb1 : sr_buf1 st = 0.
Hypothesis Herr : sr_err st = None.
Hypothesis Hr : sr_r st = Some rd.
Hypothesis Hdata : 1 <= len (cr_data rd).
Hypothesis Hchunk : len (cr_data rd) <= cr_chunk rd.
Hypothesis Hfits : len (cr_data rd) <= sr_max st.
Hypothesis Hmax : sr_max st <= len (sr_buf st).

Lemma fill_one_pull_eq (fuel : nat) :
  fill fuel st = scan fuel (loaded st (cr_data rd) (dried rd)).
Proof.
  unfold fill, bind. rewrite Hr. rewrite slice_ok by lia.
  rewrite len_slice by lia.
  cbn [ioRead ChunkReader_IoReader]. unfold ChunkReader_Read.
  assert (E : (len (cr_data rd) =? 0) = false) by (apply Z.eqb_neq; lia).
  rewrite E.
  replace (Z.min (sr_max st - sr_buf1 st)
             (Z.min (cr_chunk rd) (len (cr_data rd))))
    with (len (cr_data rd)) by lia.
  rewrite firstn_len.
  assert (Hskip : skipn (Z.to_nat (len (cr_data rd))) (cr_data rd) = []).
  { unfold len. rewrite Nat2Z.id. apply skipn_all. }
  rewrite Hskip. fold (dried rd).
  assert (Hall : firstn (Z.to_nat (sr_max st - sr_buf1 st)) (cr_data rd)
                 = cr_data rd).
  { apply firstn_all2. unfold len in *. lia. }
  rewrite Hall.
  assert (Eg : (len (cr_data rd) >? 0) = true) by (apply Z.gtb_lt; lia).
  rewrite Eg. fold (loaded st (cr_data rd) (dried rd)).
  cbn [sr_buf1 set_r_err set_buf].
  fold (loaded st (cr_data rd) (dried rd)).
  destruct (scan fuel (loaded st (cr_data rd) (dried rd)))
    as [st2| |] eqn:Es; try reflexivity.
  apply scan_inv in Es. destruct Es as [He _].
  cbn [sr_err loaded set_buf1 set_r_err] in He. rewrite He. reflexivity.
Qed.

Lemma loaded_unprocessed :
  unprocessed (loaded st (cr_data rd) (dried rd)) = cr_data rd.
Proof.
  unfold unprocessed, loaded.
  cbn [sr_buf0 sr_buf1 sr_buf set_buf1 set_r_err set_buf].
  rewrite Hb0, Hb1. cbn [Z.to_nat skipn]. rewrite Z.sub_0_r.
  rewrite firstn_copyAt_append by lia. reflexivity.
Qed.

Lemma fill_one_pull (fuel : nat)
    (st1 : @StreamReplacingReader ChunkReader replacer) :
  fill fuel st = Ok st1 ->
  draining st1 (canonicalReplace_from (replaces rep) (cr_data rd) 0)
    (cr_final rd).
Proof.
  rewrite fill_one_pull_eq. intro Hscan.
  pose proof (scan_canonical fuel (loaded st (cr_data rd) (dried rd)) st1 rep
                Hne Hrep Hscan) as Hcan.
  rewrite loaded_unprocessed in Hcan.
  assert (Hproc : processed (loaded st (cr_data rd) (dried rd)) = []).
  { unfold processed, loaded. cbn [sr_buf0 set_buf1 set_r_err set_buf].
    rewrite Hb0. reflexivity. }
  rewrite Hproc in Hcan. cbn [app] in Hcan.
  destruct (scan_keeps fuel _ _ Hscan)
    as [_ [_ [Kx [Kl [K0 [Kmono [K1 [Kord _]]]]]]]].
  pose proof (scan_shrinks fuel _ _ Hscan) as Kshrink.
  destruct (scan_inv fuel _ _ Hscan) as [Ke [Kr _]].
  cbn [sr_buf0 sr_buf1 sr_buf sr_max sr_err sr_r sr_maxSearchTokenLen
       loaded set_buf1 set_r_err set_buf] in *.
  rewrite len_copyAt in Kl by lia.
  unfold draining. split; [exact Hcan|].
  split; [lia|]. split; [apply Kord; exact Hm|]. split; [exact K1|].
  right. split; [|lia].
  unfold sourceDry. split; [exact Ke|].
  exists (dried rd). split; [exact Kr|]. split; reflexivity.
Qed.

Lemma ReadAll_one_pull (calls fuel : nat) (plen : Z)
    (st1 : @StreamReplacingReader ChunkReader replacer) :
  fill (S (S fuel)) st = Ok st1 ->
  1 <= plen ->
  (Z.to_nat (len (canonicalReplace_from (replaces rep) (cr_data rd) 0))
   < calls)%nat ->
  ReadAll calls (S (S (S fuel))) st plen =
    Ok (canonicalReplace_from (replaces rep) (cr_data rd) 0,
        readAllError (cr_final rd)).
Proof.
  intros Hfill Hplen Hcalls.
  pose proof (fill_one_pull (S (S fuel)) st1 Hfill) as Hd.
  destruct calls as [|calls]; [lia|].
  destruct (Read_draining fuel st1 _ (cr_final rd) plen Hd Hplen)
    as [n [e' [st' [Hread [Hn [Hd' Hcase]]]]]].
  assert (Hfirst : Read (S (S (S fuel))) st plen =
                   Read (S (S fuel)) st1 plen).
  { cbn [Read]. rewrite Hb0, Herr. cbn [Z.gtb Z.compare isSome].
    unfold bind. rewrite Hfill. reflexivity. }
  cbn [ReadAll]. unfold bind at 1. rewrite Hfirst, Hread.
  set (pending := canonicalReplace_from (replaces rep) (cr_data rd) 0) in *.
  destruct Hcase as [[-> Hnil]|[-> Hn1]].
  - assert (Hall : firstn (Z.to_nat n) pending = pending).
    { rewrite <- (firstn_skipn (Z.to_nat n) pending) at 2.
      rewrite Hnil, app_nil_r. reflexivity. }
    rewrite Hall. destruct (cr_final rd); reflexivity.
  - rewrite (ReadAll_draining calls (S fuel) st' _ (cr_final rd) plen Hd' Hplen).
    + cbn [bind fst snd]. rewrite firstn_skipn. reflexivity.
    + rewrite len_skipn_Z by lia. lia.
Qed.

End OnePull.

(** X12.  A stream that arrives in one pull is replaced canonically.  On
    an engine with an empty buffer, whose source delivers all its bytes in
    the first pull (they fit below the fill bound and in one chunk), if that
    pull and its scan return (no replacement overflows the buffer), then
    [io.ReadAll] yields exactly the whole-string left-to-right replace of
    the source's bytes, and the source's final condition ([EOF] as
    success). *)
Theorem stream_of_one_pull_is_the_whole_string_replace (calls fuel : nat)
    (st st1 : @StreamReplacingReader ChunkReader replacer) (rep : replacer)
    (rd : ChunkReader) (plen : Z) :
  sr_replacer st = Some rep -> nonEmptySearches rep ->
  1 <= sr_maxSearchTokenLen st ->
  sr_buf0 st = 0 -> sr_buf1 st = 0 -> sr_err st = None ->
  sr_r st = Some rd ->
  1 <= len (cr_data rd) -> len (cr_data rd) <= cr_chunk rd ->
  len (cr_data rd) <= sr_max st -> sr_max st <= len (sr_buf st) ->
  fill (S (S fuel)) st = Ok st1 ->
  1 <= plen ->
  (Z.to_nat (len (canonicalReplace_from (replaces rep) (cr_data rd) 0))
   < calls)%nat ->
  ReadAll calls (S (S (S fuel))) st plen =
    Ok (canonicalReplace_from (replaces rep) (cr_data rd) 0,
        readAllError (cr_final rd)).
Proof.
  intros. eapply ReadAll_one_pull; eassumption.
Qed.

Lemma stream_of_one_pull_is_the_whole_string_replace_witness :
  let rd := sourceOf (B "zt zt ztztzt2zzt"%string) 4096 in
  let st := engineOn testPairs (B "zt zt ztztzt2zzt"%string) 4096 in
  ReadAll 100 19 st 7 =
    Ok (canonicalReplace_from (replaces (setOf testPairs)) (cr_data rd) 0,
        readAllError (cr_final rd)).
Proof.
  intros rd st.
  apply (stream_of_one_pull_is_the_whole_string_replace 100 16 st
           (afterPull st) (setOf testPairs) rd 7);
    try (intros er Hin; vm_compute in Hin;
    destruct Hin as [<-|[<-|[]]]; vm_compute; discriminate);
    try (vm_compute; discriminate); try (vm_compute; reflexivity).
  vm_compute. lia.
Defined.

(** ** Streams through a set without a growing pair *)

Lemma Replace_without_growing_pair {R : Type} {io : IoReader R}
    (oldnews : list string) (rep : replacer) (rd : R) :
  NewReplacer oldnews = Ok rep -> keptPairs oldnews <> [] ->
  noGrowingPair rep ->
  exists st,
    Replace rep (Some rd) = Ok st /\
    sr_replacer st = Some rep /\ 1 <= sr_maxSearchTokenLen st /\
    sr_buf0 st = 0 /\ sr_buf1 st = 0 /\ sr_err st = None /\
    sr_r st = Some rd /\
    sr_max st = len (sr_buf st) /\ 4096 <= len (sr_buf st).
Proof.
  intros Hnew Hkept Hng.
  destruct (NewReplacer_Ok_inv oldnews rep Hnew) as [Hr [Hs [Hp Hq]]].
  assert (Hm : 1 <= maxSearchLen rep).
  { destruct (keptPairs oldnews) as [|er0 l] eqn:Ek; [contradiction|].
    assert (Hin0 : In er0 (keptPairs oldnews))
      by (rewrite Ek; left; reflexivity).
    pose proof (keptPairs_nonempty_search oldnews er0 Hin0) as H1.
    pose proof (len_le_maxLen search (keptPairs oldnews) er0 Hin0) as H2.
    rewrite Ek in H2. rewrite Hs. lia. }
  assert (Hratio : Qgtb (maxRatio rep) 0 = false).
  { apply Qgtb_false.
    destruct Hq as [[Hq _]|[_ [[er [Hin [Hg _]]] _]]].
    - rewrite Hq. discriminate.
    - exfalso. rewrite <- Hr in Hin. specialize (Hng er Hin).
      unfold growing in Hg. lia. }
  unfold Replace, ResetEx.
  cbn [GetSizingHints replacer_BytesReplacer replacer_GetSizingHints].
  assert (Hz : (maxSearchLen rep =? 0) = false) by (apply Z.eqb_neq; lia).
  rewrite Hz, Hratio. eexists. split; [reflexivity|].
  cbn [sr_buf sr_buf0 sr_buf1 sr_err sr_replacer sr_r sr_max
       sr_maxSearchTokenLen zeroReader].
  change (len (@nil byte)) with 0. cbn [Z.eqb orb].
  rewrite !max_Zmax. unfold defaultBufSize.
  rewrite len_make by lia.
  repeat split; try reflexivity; lia.
Qed.

Lemma stream_without_growing_pair (oldnews : list string) (rep : replacer)
    (input : ByteSlice) (chunk : Z) (e : error) (plen : Z) :
  NewReplacer oldnews = Ok rep -> keptPairs oldnews <> [] ->
  noGrowingPair rep ->
  len input <= 4096 -> len input <= chunk -> 1 <= plen ->
  exists st,
    Replace rep (Some {| cr_data := input; cr_chunk := chunk;
                         cr_final := e |}) = Ok st /\
    forall fuel calls,
      (Z.to_nat (len input) + 3 <= fuel)%nat ->
      (Z.to_nat (len (canonicalReplace oldnews input)) < calls)%nat ->
      ReadAll calls fuel st plen =
        Ok (canonicalReplace oldnews input, readAllError e).
Proof.
  intros Hnew Hkept Hng Hlen Hchunk Hplen.
  set (rd := {| cr_data := input; cr_chunk := chunk; cr_final := e |}).
  destruct (Replace_without_growing_pair oldnews rep rd Hnew Hkept Hng)
    as [st [HR [Hrep [Hm [Hb0 [Hb1 [Herr [Hr [Hmax Hcap]]]]]]]]].
  destruct (NewReplacer_Ok_inv oldnews rep Hnew) as [Hrs _].
  assert (Hne : nonEmptySearches rep).
  { intros er Hin. rewrite Hrs in Hin.
    apply (keptPairs_nonempty_search oldnews). exact Hin. }
  exists st. split; [exact HR|].
  intros fuel calls Hfuel Hcalls.
  unfold canonicalReplace in *. rewrite <- Hrs in *.
  destruct fuel as [|[|[|fuel]]]; try lia.
  destruct (Z.eq_dec (len input) 0) as [Hz|Hnz].
  - (* nothing to read *)
    apply len_nil_iff in Hz. subst input.
    change (canonicalReplace_from (replaces rep) [] 0) with (@nil byte).
    apply ReadAll_draining; [|exact Hplen|exact Hcalls].
    unfold draining.
    assert (Hh : held st = []).
    { unfold held. rewrite Hb1. reflexivity. }
    split; [exact Hh|]. split; [lia|]. split; [lia|]. split; [lia|].
    right. split; [|lia].
    unfold sourceDry. split; [exact Herr|]. exists rd. auto.
  - pose proof (len_nonneg input) as Hpos.
    assert (Hdata : 1 <= len (cr_data rd)) by (cbn; lia).
    assert (Hscan : exists st1,
               scan (S (S fuel)) (loaded st (cr_data rd) (dried rd))
               = Ok st1).
    { apply (scan_never_overflows (S (S fuel)) _ rep Hne Hng).
      - exact Hrep.
      - cbn [sr_buf0 loaded set_buf1 set_r_err set_buf]. lia.
      - cbn [sr_buf0 sr_buf1 loaded set_buf1 set_r_err set_buf cr_data rd].
        lia.
      - cbn [sr_buf sr_buf1 loaded set_buf1 set_r_err set_buf cr_data rd].
        rewrite len_copyAt by lia. lia.
      - cbn [sr_buf0 sr_buf1 loaded set_buf1 set_r_err set_buf cr_data rd].
        lia. }
    destruct Hscan as [st1 Hscan].
    apply (ReadAll_one_pull st rep rd Hrep Hne Hm Hb0 Hb1 Herr Hr Hdata)
      with (st1 := st1); try (cbn [cr_data cr_chunk rd]; lia);
      try exact Hcalls.
    rewrite (fill_one_pull_eq st rd); try assumption;
      try (cbn [cr_data cr_chunk rd]; lia).
Qed.

(** X13.  The stream equals the whole-string replace for every set
    without a growing pair and every input of at most 4096 bytes that the
    source hands over in one piece: [Replace] succeeds, and [io.ReadAll]
    over the engine returns, for any sufficient fuel and number of calls,
    the left-to-right, leftmost-match, first-registered-wins replacement of
    the input, with the source's final condition ([EOF] as success). *)
Theorem stream_without_growing_pair_is_the_whole_string_replace
    (oldnews : list string) (rep : replacer) (input : ByteSlice)
    (chunk : Z) (e : error) (plen : Z) :
  NewReplacer oldnews = Ok rep -> keptPairs oldnews <> [] ->
  noGrowingPair rep ->
  len input <= 4096 -> len input <= chunk -> 1 <= plen ->
  exists st,
    Replace rep (Some {| cr_data := input; cr_chunk := chunk;
                         cr_final := e |}) = Ok st /\
    forall fuel calls,
      (Z.to_nat (len input) + 3 <= fuel)%nat ->
      (Z.to_nat (len (canonicalReplace oldnews input)) < calls)%nat ->
      ReadAll calls fuel st plen =
        Ok (canonicalReplace oldnews input, readAllError e).
Proof. exact (stream_without_growing_pair oldnews rep input chunk e plen). Qed.

Lemma stream_without_growing_pair_is_the_whole_string_replace_witness :
  exists st,
    Replace (setOf nestedPairs)
      (Some {| cr_data := B "abc b abc"%string; cr_chunk := 4096;
               cr_final := ErrOther "closed"%string |}) = Ok st /\
    forall fuel calls,
      (Z.to_nat (len (B "abc b abc"%string)) + 3 <= fuel)%nat ->
      (Z.to_nat (len (canonicalReplace nestedPairs (B "abc b abc"%string)))
       < calls)%nat ->
      ReadAll calls fuel st 3 =
        Ok (canonicalReplace nestedPairs (B "abc b abc"%string),
            readAllError (ErrOther "closed"%string)).
Proof.
  apply (stream_without_growing_pair_is_the_whole_string_replace
           nestedPairs (setOf nestedPairs) (B "abc b abc"%string) 4096
           (ErrOther "closed"%string) 3).
  - vm_compute. reflexivity.
  - vm_compute. discriminate.
  - intros er Hin; vm_compute in Hin;
    destruct Hin as [<-|[<-|[]]]; vm_compute; discriminate.
  - vm_compute. discriminate.
  - vm_compute. discriminate.
  - lia.
Defined.

(** ** Sets that replace every token by itself *)

Lemma firstMatch_Some_inv (pairs : list byteReplace) (x : ByteSlice)
    (er : byteReplace) :
  firstMatch pairs x = Some er ->
  In er pairs /\ bytes.HasPrefix x (search er) = true.
Proof.
  induction pairs as [|a pairs IH]; intro H; [discriminate|].
  cbn [firstMatch] in H.
  destruct (bytes.HasPrefix x (search a)) eqn:E.
  - inversion H. subst. split; [left; reflexivity | exact E].
  - destruct (IH H) as [Hin Hp]. split; [right; exact Hin | exact Hp].
Qed.

Lemma HasPrefix_split (x sep : ByteSlice) :
  bytes.HasPrefix x sep = true -> x = sep ++ skipn (List.length sep) x.
Proof.
  revert x. induction sep as [|c sep IH]; intros x H; [reflexivity|].
  destruct x as [|d x]; [discriminate|].
  cbn [bytes.HasPrefix] in H. apply andb_true_iff in H.
  destruct H as [Hc Hrest]. apply byte_dec_bl in Hc. subst d.
  cbn [List.length skipn app]. f_equal. apply IH. exact Hrest.
Qed.

Lemma canonical_identity (pairs : list byteReplace) :
  (forall er, In er pairs -> replace er = search er) ->
  (forall er, In er pairs -> 1 <= len (search er)) ->
  forall s k, canonicalReplace_from pairs s k = skipn k s.
Proof.
  intros Hid Hne. induction s as [|c s IH]; intro k.
  - destruct k; reflexivity.
  - destruct k as [|k]; [|cbn [canonicalReplace_from skipn]; apply IH].
    cbn [canonicalReplace_from skipn].
    destruct (firstMatch pairs (c :: s)) as [er|] eqn:Efm.
    + destruct (firstMatch_Some_inv pairs (c :: s) er Efm) as [Hin Hp].
      rewrite (Hid er Hin), IH.
      pose proof (Hne er Hin) as Hs. unfold len in Hs.
      rewrite (HasPrefix_split (c :: s) (search er) Hp) at 1.
      f_equal.
      destruct (List.length (search er)) as [|n]; [lia|].
      cbn [skipn]. f_equal. lia.
    + rewrite IH. reflexivity.
Qed.

(** X14.  A set in which every replacement equals its search token
    changes nothing: for an input of at most 4096 bytes handed over in one
    piece, [io.ReadAll] over the stream returns the input itself. *)
Theorem stream_of_identity_pairs_is_the_input (oldnews : list string)
    (rep : replacer) (input : ByteSlice) (chunk : Z) (e : error)
    (plen : Z) :
  NewReplacer oldnews = Ok rep -> keptPairs oldnews <> [] ->
  identityPairs rep ->
  len input <= 4096 -> len input <= chunk -> 1 <= plen ->
  exists st,
    Replace rep (Some {| cr_data := input; cr_chunk := chunk;
                         cr_final := e |}) = Ok st /\
    forall fuel calls,
      (Z.to_nat (len input) + 3 <= fuel)%nat ->
      (Z.to_nat (len input) < calls)%nat ->
      ReadAll calls fuel st plen = Ok (input, readAllError e).
Proof.
  intros Hnew Hkept Hid Hlen Hchunk Hplen.
  assert (Hng : noGrowingPair rep).
  { intros er Hin. rewrite (Hid er Hin). lia. }
  destruct (NewReplacer_Ok_inv oldnews rep Hnew) as [Hrs _].
  assert (Hcan : canonicalReplace oldnews input = input).
  { unfold canonicalReplace. rewrite <- Hrs.
    rewrite canonical_identity; [reflexivity | exact Hid |].
    intros er Hin. rewrite Hrs in Hin.
    apply (keptPairs_nonempty_search oldnews). exact Hin. }
  destruct (stream_without_growing_pair oldnews rep input chunk e plen
              Hnew Hkept Hng Hlen Hchunk Hplen) as [st [HR Hall]].
  exists st. split; [exact HR|].
  intros fuel calls Hfuel Hcalls.
  pose proof (Hall fuel calls Hfuel) as H. rewrite Hcan in H.
  apply H. exact Hcalls.
Qed.

Lemma stream_of_identity_pairs_is_the_input_witness :
  exists st,
    Replace (setOf ["zt"%string; "zt"%string])
      (Some {| cr_data := B "a zt zzt"%string; cr_chunk := 4096;
               cr_final := EOF |}) = Ok st /\
    forall fuel calls,
      (Z.to_nat (len (B "a zt zzt"%string)) + 3 <= fuel)%nat ->
      (Z.to_nat (len (B "a zt zzt"%string)) < calls)%nat ->
      ReadAll calls fuel st 5 = Ok (B "a zt zzt"%string, readAllError EOF).
Proof.
  apply (stream_of_identity_pairs_is_the_input
           ["zt"%string; "zt"%string] (setOf ["zt"%string; "zt"%string])
           (B "a zt zzt"%string) 4096 EOF 5).
  - vm_compute. reflexivity.
  - vm_compute. discriminate.
  - intros er Hin. vm_compute in Hin. destruct Hin as [<-|[]]. reflexivity.
  - vm_compute. discriminate.
  - vm_compute. discriminate.
  - lia.
Defined.

(** ** What a scan leaves unprocessed, and what a pull rewrites *)



(** X16.  What one pull does.  When [Read] pulls with [buf0 = 0] and the
    underlying reader delivers at least one byte, then, if the pull and its
    scan return, the engine holds the whole-string replace of the bytes it
    held before (the retained tail) followed by the bytes just delivered;
    the reader's condition and new state are recorded as returned. *)
Theorem pull_rewrites_the_tail_and_the_new_bytes {R : Type}
    {io : IoReader R} (fuel : nat)
    (st st' : @StreamReplacingReader R replacer) (rep : replacer)
    (rd rd' : R) (got : ByteSlice) (e : option error) :
  sr_replacer st = Some rep -> nonEmptySearches rep ->
  sr_buf0 st = 0 -> 0 <= sr_buf1 st ->
  sr_r st = Some rd ->
  ioRead rd (sr_max st - sr_buf1 st) = (got, e, rd') ->
  1 <= len (firstn (Z.to_nat (sr_max st - sr_buf1 st)) got) ->
  fill fuel st = Ok st' ->
  held st' =
    canonicalReplace_from (replaces rep)
      (held st ++ firstn (Z.to_nat (sr_max st - sr_buf1 st)) got) 0 /\
  sr_err st' = e /\ sr_r st' = Some rd'.
Proof.
  intros Hrep Hne Hb0 Hb1 Hr Hio Hgot H.
  unfold fill, bind in H. rewrite Hr in H.
  destruct (slice (sr_buf st) (sr_buf1 st) (sr_max st)) as [dst| |] eqn:Es;
    try discriminate.
  apply slice_inv in Es. destruct Es as [_ [Hs1 [Hs2 Hdst]]].
  assert (Hld : len dst = sr_max st - sr_buf1 st).
  { rewrite Hdst. apply len_slice; assumption. }
  rewrite Hld, Hio in H.
  set (got' := firstn (Z.to_nat (sr_max st - sr_buf1 st)) got) in *.
  assert (Hlg : len got' <= sr_max st - sr_buf1 st).
  { unfold got', len. rewrite length_firstn. lia. }
  assert (Eg : (len got' >? 0) = true) by (apply Z.gtb_lt; lia).
  rewrite Eg in H.
  set (sA := set_buf1 _ _) in H.
  destruct (scan fuel sA) as [st2| |] eqn:Esc; try discriminate.
  pose proof (scan_canonical fuel sA st2 rep Hne Hrep Esc) as Hcan.
  destruct (scan_inv fuel sA st2 Esc) as [Ke [Kr _]].
  assert (Hproc : processed sA = []).
  { unfold processed, sA. cbn [sr_buf0 set_buf1 set_r_err set_buf].
    rewrite Hb0. reflexivity. }
  assert (Hun : unprocessed sA = held st ++ got').
  { unfold unprocessed, sA, held.
    cbn [sr_buf0 sr_buf1 sr_buf set_buf1 set_r_err set_buf].
    rewrite Hb0. cbn [Z.to_nat skipn]. rewrite Z.sub_0_r.
    apply firstn_copyAt_append; lia. }
  rewrite Hproc, Hun in Hcan. cbn [app] in Hcan.
  change (sr_err sA) with e in Ke. change (sr_r sA) with (Some rd') in Kr.
  inversion H as [H']. clear H.
  destruct (isSome (sr_err st2)).
  - change (held (set_buf0 st2 (sr_buf1 st2))) with (held st2).
    cbn [sr_err sr_r set_buf0]. auto.
  - auto.
Qed.

Lemma pull_rewrites_the_tail_and_the_new_bytes_witness :
  let st := afterFill (engineOn testPairs (B "tzzzzzt"%string) 5) in
  let rd := sourceOf (B "zt"%string) 5 in
  let st' := afterFill st in
  held st' =
    canonicalReplace_from (replaces (setOf testPairs))
      (held st ++ firstn (Z.to_nat (sr_max st - sr_buf1 st)) (B "zt"%string))
      0 /\
  sr_err st' = None /\ sr_r st' = Some (dried rd).
Proof.
  intros st rd st'.
  apply (pull_rewrites_the_tail_and_the_new_bytes 16 st st'
           (setOf testPairs) rd (dried rd) (B "zt"%string) None).
  - vm_compute. reflexivity.
  - intros er Hin. vm_compute in Hin.
    destruct Hin as [<-|[<-|[]]]; vm_compute; discriminate.
  - vm_compute. reflexivity.
  - vm_compute. discriminate.
  - vm_compute. reflexivity.
  - vm_compute. reflexivity.
  - vm_compute. discriminate.
  - vm_compute. reflexivity.
Defined.

(** ** When the fill bound leaves no room *)

(** X18.  [Read] never returns once the buffer is filled up to the fill
    bound with no processed byte: with [buf0 = 0], [buf1 = max], no
    condition recorded and a source that still has bytes (and therefore
    answers an empty buffer with zero bytes and no error), every pull brings
    nothing and the loop goes on, whatever the fuel. *)
Theorem Read_never_returns_when_the_fill_bound_is_reached {T : Type}
    {br : BytesReplacer T} (fuel : nat) :
  forall (st : @StreamReplacingReader ChunkReader T) (rd : ChunkReader)
         (plen : Z),
    sr_buf0 st = 0 -> sr_err st = None ->
    sr_buf1 st = sr_max st -> 0 <= sr_max st ->
    sr_max st <= len (sr_buf st) ->
    sr_r st = Some rd -> cr_data rd <> [] ->
    Read fuel st plen = OutOfFuel.
Proof.
  induction fuel as [|fuel IH];
    intros st rd plen Hb0 Herr Hb1 Hmax0 Hmax Hr Hdata; [reflexivity|].
  cbn [Read]. rewrite Hb0, Herr. cbn [Z.gtb Z.compare isSome].
  unfold fill, bind. rewrite Hr. rewrite slice_ok by lia.
  rewrite len_slice by lia. rewrite Hb1, Z.sub_diag.
  cbn [ioRead ChunkReader_IoReader]. unfold ChunkReader_Read.
  assert (E : (len (cr_data rd) =? 0) = false).
  { apply Z.eqb_neq. intro Hz. apply len_nil_iff in Hz. contradiction. }
  rewrite E.
  pose proof (len_nonneg (cr_data rd)) as Hl. apply Z.eqb_neq in E.
  replace (Z.min 0 (Z.min (cr_chunk rd) (len (cr_data rd))))
    with (Z.min 0 (cr_chunk rd)) by lia.
  assert (Hk : Z.to_nat (Z.min 0 (cr_chunk rd)) = 0%nat) by lia.
  rewrite Hk. cbn [firstn skipn Z.to_nat].
  change (len (@nil byte)) with 0. cbn [Z.gtb Z.compare].
  cbn [sr_err set_r_err isSome].
  apply (IH _ {| cr_data := cr_data rd; cr_chunk := cr_chunk rd;
                 cr_final := cr_final rd |});
    cbn [sr_buf0 sr_buf1 sr_err sr_max sr_buf sr_r set_r_err set_buf cr_data];
    try assumption; try reflexivity.
  rewrite copyAt_nil by lia. exact Hmax.
Qed.

Lemma Read_never_returns_when_the_fill_bound_is_reached_witness :
  Read 50 (afterFill (engineOn tightPairs (B "bbb"%string) 4096)) 512
  = OutOfFuel.
Proof.
  apply (Read_never_returns_when_the_fill_bound_is_reached 50 _
           (sourceOf (B "bb"%string) 4096) 512);
    try (vm_compute; reflexivity); vm_compute; discriminate.
Defined.

(** ** Streams that contain no token *)

Lemma HasPrefix_app (l more sep : ByteSlice) :
  bytes.HasPrefix l sep = true -> bytes.HasPrefix (l ++ more) sep = true.
Proof.
  revert l. induction sep as [|c sep IH]; intros l H; [reflexivity|].
  destruct l as [|d l]; [discriminate|].
  simpl in H |- *. apply andb_true_iff in H. destruct H as [H1 H2].
  rewrite H1. cbn [andb]. apply IH. exact H2.
Qed.

Lemma tokenFree_prefix (rep : replacer) (x more : ByteSlice) :
  tokenFree rep (x ++ more) -> tokenFree rep x.
Proof.
  intros H er k Hin Hocc. apply (H er k Hin).
  unfold occursAt in *. rewrite skipn_app. apply HasPrefix_app. exact Hocc.
Qed.

Lemma tokenFree_suffix (rep : replacer) (x : ByteSlice) (n : nat) :
  tokenFree rep x -> tokenFree rep (skipn n x).
Proof.
  intros H er k Hin Hocc. apply (H er (n + k)%nat Hin).
  unfold occursAt in *. rewrite skipn_skipn in Hocc.
  replace (n + k)%nat with (k + n)%nat by lia. exact Hocc.
Qed.

Lemma tokenFree_Index (rep : replacer) (x : ByteSlice) :
  tokenFree rep x -> fst (fst (replacer_Index rep x)) < 0.
Proof.
  intro H. destruct (replacer_Index rep x) as [[i s] p] eqn:E. cbn [fst].
  destruct (Z.lt_ge_cases i 0) as [Hneg|Hpos]; [exact Hneg|].
  destruct (replacer_Index_sound rep x i s p E Hpos)
    as [er [Hin [Hs [_ Hocc]]]].
  exfalso. subst s. exact (H er _ Hin Hocc).
Qed.

Lemma Replace_Ok_inv {R : Type} {io : IoReader R} (oldnews : list string)
    (rep : replacer) (rd : R) (st : @StreamReplacingReader R replacer) :
  NewReplacer oldnews = Ok rep -> Replace rep (Some rd) = Ok st ->
  sr_replacer st = Some rep /\
  sr_maxSearchTokenLen st = maxSearchLen rep /\ 1 <= maxSearchLen rep /\
  sr_buf0 st = 0 /\ sr_buf1 st = 0 /\ sr_err st = None /\
  sr_r st = Some rd.
Proof.
  intros Hnew H.
  destruct (NewReplacer_Ok_inv oldnews rep Hnew) as [Hr [Hs [Hp Hq]]].
  assert (Hm0 : 0 <= maxSearchLen rep).
  { rewrite Hs. unfold maxLen.
    induction (map (fun er => len (search er)) (keptPairs oldnews));
      cbn [fold_right]; lia. }
  unfold Replace, ResetEx in H.
  cbn [GetSizingHints replacer_BytesReplacer replacer_GetSizingHints] in H.
  destruct (maxSearchLen rep =? 0) eqn:Ez; [discriminate|].
  apply Z.eqb_neq in Ez.
  inversion H as [Hst]. clear H.
  cbn [sr_buf sr_buf0 sr_buf1 sr_err sr_replacer sr_r sr_max
       sr_maxSearchTokenLen zeroReader].
  repeat split; try reflexivity; lia.
Qed.

Section Passing.

Variable rep : replacer.
Variable m : Z.
Variable e : error.

Let engine := @StreamReplacingReader ChunkReader replacer.

(** A pull in the middle of a token-free stream: the bytes the source hands
    over join the tail, nothing is replaced, and only the last [m - 1] bytes
    stay unprocessed. *)
Lemma fill_passing (fuel : nat) (st : engine) (P : ByteSlice) :
  passing rep m st P e -> tokenFree rep P -> sr_buf0 st = 0 ->
  (forall rd, sr_r st = Some rd -> cr_data rd <> []) ->
  exists st1,
    fill (S fuel) st = Ok st1 /\ passing rep m st1 P e /\
    sr_buf1 st + 1 <= sr_buf1 st1.
Proof.
  intros [Herr [Hrep [Hm [Hm1 [H0 [H01 [H1 [Htail [Hmax [Hcap
            [rd [Hr [Hchunk [Hfin HP]]]]]]]]]]]]]] Hfree Hb0 Hdata.
  specialize (Hdata rd Hr).
  assert (Hlen : 1 <= len (cr_data rd)).
  { pose proof (len_nonneg (cr_data rd)) as Hl.
    destruct (Z.eq_dec (len (cr_data rd)) 0) as [Hz|Hz]; [|lia].
    apply len_nil_iff in Hz. contradiction. }
  set (k := Z.min (sr_max st - sr_buf1 st)
              (Z.min (cr_chunk rd) (len (cr_data rd)))).
  assert (Hk : 1 <= k <= len (cr_data rd)) by (unfold k; lia).
  set (got := firstn (Z.to_nat k) (cr_data rd)).
  assert (Hgot : len got = k).
  { unfold got, len in *. rewrite length_firstn. lia. }
  unfold fill, bind. rewrite Hr. rewrite slice_ok by lia.
  rewrite len_slice by lia.
  cbn [ioRead ChunkReader_IoReader]. unfold ChunkReader_Read.
  assert (E : (len (cr_data rd) =? 0) = false) by (apply Z.eqb_neq; lia).
  rewrite E. fold k. fold got. fold (advanced rd k).
  assert (Hall : firstn (Z.to_nat (sr_max st - sr_buf1 st)) got = got).
  { apply firstn_all2. unfold len in *. unfold k in Hgot. lia. }
  rewrite Hall, Hgot.
  assert (Eg : (k >? 0) = true) by (apply Z.gtb_lt; lia).
  rewrite Eg. cbn [sr_buf1 set_r_err set_buf].
  pose (sA := loaded st got (advanced rd k)).
  assert (HsA : set_buf1
                  (set_r_err
                     (set_buf st
                        (copyAt (sr_buf st) (sr_buf1 st) (sr_max st) got))
                     (advanced rd k) None)
                  (sr_buf1 st + k) = sA).
  { unfold sA, loaded. rewrite Hgot. reflexivity. }
  rewrite HsA.
  assert (Hheld : held sA = held st ++ got).
  { unfold held, sA, loaded.
    cbn [sr_buf1 sr_buf set_buf1 set_r_err set_buf].
    apply firstn_copyAt_append; lia. }
  assert (Hun : unprocessed sA = held st ++ got).
  { rewrite <- Hheld. unfold unprocessed, held, sA, loaded.
    cbn [sr_buf0 sr_buf1 sr_buf set_buf1 set_r_err set_buf].
    rewrite Hb0. cbn [Z.to_nat skipn]. rewrite Z.sub_0_r. reflexivity. }
  assert (HP' : P = (held st ++ got) ++ cr_data (advanced rd k)).
  { rewrite HP. unfold got, advanced. cbn [cr_data].
    rewrite <- app_assoc, firstn_skipn. reflexivity. }
  assert (Hneg : fst (fst (replacer_Index rep (unprocessed sA))) < 0).
  { apply tokenFree_Index. rewrite Hun.
    apply (tokenFree_prefix rep _ (cr_data (advanced rd k))).
    rewrite <- HP'. exact Hfree. }
  destruct (replacer_Index rep (unprocessed sA)) as [[i s] p] eqn:Ei.
  cbn [fst] in Hneg.
  assert (HlA : len (sr_buf sA) = len (sr_buf st)).
  { unfold sA, loaded. cbn [sr_buf set_buf1 set_r_err set_buf].
    apply len_copyAt; lia. }
  rewrite (scan_S_nomatch sA rep i s p); try exact Hneg; try exact Ei;
    try (unfold sA, loaded;
         cbn [sr_replacer sr_buf0 sr_buf1 set_buf1 set_r_err set_buf];
         first [exact Hrep | lia]);
    try (rewrite HlA; unfold sA, loaded;
         cbn [sr_buf1 set_buf1 set_r_err set_buf]; lia).
  cbn [sr_err set_buf0 sA loaded set_buf1 set_r_err isSome].
  eexists. split; [reflexivity|].
  fold (loaded st got (advanced rd k)). fold sA.
  split.
  - unfold passing.
    change (held (set_buf0 sA _)) with (held sA).
    cbn [sr_err sr_replacer sr_maxSearchTokenLen sr_buf0 sr_buf1 sr_buf
         sr_max sr_r set_buf0].
    rewrite HlA. unfold sA, loaded.
    cbn [sr_err sr_replacer sr_maxSearchTokenLen sr_buf0 sr_buf1 sr_buf
         sr_max sr_r set_buf1 set_r_err set_buf].
    fold (loaded st got (advanced rd k)). fold sA.
    split; [reflexivity|]. split; [exact Hrep|]. split; [exact Hm|].
    split; [exact Hm1|]. split; [lia|]. split; [lia|]. split; [lia|].
    split; [lia|]. split; [exact Hmax|]. split; [exact Hcap|].
    exists (advanced rd k). split; [reflexivity|].
    split; [exact Hchunk|]. split; [exact Hfin|].
    rewrite Hheld. exact HP'.
  - cbn [sr_buf1 set_buf0 sA loaded set_buf1 set_r_err set_buf]. lia.
Qed.

Lemma Read_passing (fuel : nat) :
  forall (st : engine) (P : ByteSlice) (plen : Z),
    passing rep m st P e -> tokenFree rep P -> 1 <= plen ->
    (if sr_buf0 st >? 0 then 1 else m - sr_buf1 st + 2) <= Z.of_nat fuel ->
    exists n e' st',
      Read fuel st plen = Ok (n, firstn (Z.to_nat n) P, e', st') /\
      0 <= n <= len P /\
      ((e' = Some e /\ skipn (Z.to_nat n) P = []) \/
       (e' = None /\ 1 <= n /\
        (passing rep m st' (skipn (Z.to_nat n) P) e \/
         draining st' (skipn (Z.to_nat n) P) e))).
Proof.
  induction fuel as [|fuel IH]; intros st P plen Hp Hfree Hplen Hfuel.
  { exfalso.
    destruct Hp as [_ [_ [_ [Hm1 [H0 [H01 [_ [Htail _]]]]]]]].
    destruct (sr_buf0 st >? 0) eqn:E0; [lia|].
    rewrite Z.gtb_ltb in E0. apply Z.ltb_ge in E0. lia. }
  pose proof Hp as Hp0.
  destruct Hp as [Herr [Hrep [Hm [Hm1 [H0 [H01 [H1 [Htail [Hmax [Hcap
                   [rd [Hr [Hchunk [Hfin HP]]]]]]]]]]]]]].
  assert (Hlh : len (held st) = sr_buf1 st) by (apply len_held; lia).
  destruct (sr_buf0 st >? 0) eqn:E0.
  - (* processed bytes go out first *)
    apply Z.gtb_lt in E0.
    destruct (drain_spec st plen H0 H01 H1 ltac:(lia))
      as [st1 [Hd [D0 [D1 [Dl [Dh [Dr [De [Dp [Dm Dx]]]]]]]]]].
    set (n := Z.min plen (sr_buf0 st)) in *.
    assert (Hn : 1 <= n <= sr_buf0 st) by (unfold n; lia).
    pose proof (len_nonneg (cr_data rd)) as Hld.
    assert (HlP : len P = sr_buf1 st + len (cr_data rd)).
    { rewrite HP. unfold len in *. rewrite length_app. lia. }
    exists n, None, st1. split; [|split; [lia|right]].
    + cbn [Read].
      assert (E0' : (sr_buf0 st >? 0) = true) by (apply Z.gtb_lt; lia).
      rewrite E0', Hd, Herr.
      rewrite (processed_of_held st H0 H01), firstn_firstn.
      replace (Nat.min (Z.to_nat n) (Z.to_nat (sr_buf0 st)))
        with (Z.to_nat n) by lia.
      rewrite HP, firstn_app.
      replace (Z.to_nat n - List.length (held st))%nat with 0%nat
        by (unfold len in *; lia).
      cbn [firstn]. rewrite app_nil_r.
      destruct (sr_buf1 st - n =? 0); reflexivity.
    + split; [reflexivity|]. split; [lia|]. left.
      unfold passing. rewrite De, Dp, Dm, D0, D1, Dl, Dx, Dr, Dh.
      split; [exact Herr|]. split; [exact Hrep|]. split; [exact Hm|].
      split; [exact Hm1|]. split; [lia|]. split; [lia|]. split; [lia|].
      split; [lia|]. split; [exact Hmax|]. split; [exact Hcap|].
      exists rd. split; [exact Hr|]. split; [exact Hchunk|].
      split; [exact Hfin|].
      rewrite HP, skipn_app.
      replace (Z.to_nat n - List.length (held st))%nat with 0%nat
        by (unfold len in *; lia).
      reflexivity.
  - rewrite Z.gtb_ltb in E0. apply Z.ltb_ge in E0.
    assert (Hb0 : sr_buf0 st = 0) by lia.
    destruct (cr_data rd) as [|c data] eqn:Edata.
    + (* the source is dry *)
      assert (Hd : draining st P e).
      { unfold draining. rewrite HP, app_nil_r.
        split; [reflexivity|]. split; [lia|]. split; [lia|].
        split; [lia|]. right. split; [|lia].
        unfold sourceDry. split; [exact Herr|].
        exists rd. split; [exact Hr|]. split; [exact Edata | exact Hfin]. }
      destruct fuel as [|fuel]; [lia|].
      destruct (Read_draining fuel st P e plen Hd Hplen)
        as [n [e' [st' [Hread [Hn [Hd' Hcase]]]]]].
      exists n, e', st'. split; [exact Hread|]. split; [exact Hn|].
      destruct Hcase as [[He' Hnil]|[He' Hn1]].
      * left. split; assumption.
      * right. split; [exact He'|]. split; [exact Hn1|]. right. exact Hd'.
    + (* one more pull *)
      destruct fuel as [|fuel]; [lia|].
      destruct (fill_passing fuel st P Hp0 Hfree Hb0) as [st1 [Hfill [Hp1 Hgrow]]].
      { intros rd0 Hr0. rewrite Hr in Hr0. inversion Hr0. subst rd0.
        rewrite Edata. discriminate. }
      destruct (IH st1 P plen Hp1 Hfree Hplen) as [n [e' [st' [Hread Hrest]]]].
      { destruct (sr_buf0 st1 >? 0); lia. }
      exists n, e', st'. split; [|exact Hrest].
      cbn [Read].
      assert (E0' : (sr_buf0 st >? 0) = false).
      { rewrite Z.gtb_ltb. apply Z.ltb_ge. lia. }
      rewrite E0', Herr. cbn [isSome]. unfold bind. rewrite Hfill.
      exact Hread.
Qed.

Lemma ReadAll_passing (calls : nat) :
  forall (fuel : nat) (st : engine) (P : ByteSlice) (plen : Z),
    passing rep m st P e \/ draining st P e ->
    tokenFree rep P -> 1 <= plen -> 1 <= m ->
    m + 2 <= Z.of_nat fuel ->
    (Z.to_nat (len P) < calls)%nat ->
    ReadAll calls fuel st plen = Ok (P, readAllError e).
Proof.
  induction calls as [|calls IH];
    intros fuel st P plen Hk Hfree Hplen Hm1 Hfuel Hcalls; [lia|].
  destruct Hk as [Hp|Hd].
  - destruct (Read_passing fuel st P plen Hp Hfree Hplen)
      as [n [e' [st' [Hread [Hn Hcase]]]]].
    { destruct Hp as [_ [_ [_ [_ [H0 [H01 _]]]]]].
      destruct (sr_buf0 st >? 0); lia. }
    cbn [ReadAll]. unfold bind at 1. rewrite Hread.
    destruct Hcase as [[-> Hnil]|[-> [Hn1 Hk']]].
    + assert (Hall : firstn (Z.to_nat n) P = P).
      { rewrite <- (firstn_skipn (Z.to_nat n) P) at 2.
        rewrite Hnil, app_nil_r. reflexivity. }
      rewrite Hall. destruct e; reflexivity.
    + rewrite (IH fuel st' _ plen Hk').
      * cbn [bind fst snd]. rewrite firstn_skipn. reflexivity.
      * apply tokenFree_suffix. exact Hfree.
      * exact Hplen.
      * exact Hm1.
      * exact Hfuel.
      * rewrite len_skipn_Z by lia. lia.
  - destruct fuel as [|[|fuel]]; try lia.
    apply ReadAll_draining; assumption.
Qed.

End Passing.

(** X19.  A stream that contains no token passes through unchanged,
    however the source cuts it up.  For a set built by [NewReplacer] and an
    engine made by [Replace] whose fill bound is at least the longest search
    token and at most the buffer length, if no search token of the set
    occurs anywhere in the input, then for every chunk size of the source of
    at least one byte, every caller's buffer of at least one byte and every
    input length, [io.ReadAll] returns exactly the input, with the source's
    final condition ([EOF] as success). *)
Theorem stream_without_token_passes_unchanged (oldnews : list string)
    (rep : replacer) (input : ByteSlice) (chunk : Z) (e : error) (plen : Z)
    (st : @StreamReplacingReader ChunkReader replacer) (fuel calls : nat) :
  NewReplacer oldnews = Ok rep ->
  Replace rep (Some {| cr_data := input; cr_chunk := chunk;
                       cr_final := e |}) = Ok st ->
  maxSearchLen rep <= sr_max st -> sr_max st <= len (sr_buf st) ->
  tokenFree rep input -> 1 <= chunk -> 1 <= plen ->
  maxSearchLen rep + 2 <= Z.of_nat fuel ->
  (Z.to_nat (len input) < calls)%nat ->
  ReadAll calls fuel st plen = Ok (input, readAllError e).
Proof.
  intros Hnew HR Hroom Hcap Hfree Hchunk Hplen Hfuel Hcalls.
  destruct (Replace_Ok_inv oldnews rep _ st Hnew HR)
    as [Hrep [Hm [Hm1 [Hb0 [Hb1 [Herr Hr]]]]]].
  apply (ReadAll_passing rep (maxSearchLen rep) e); try assumption.
  left. unfold passing. rewrite Hb0, Hb1.
  split; [exact Herr|]. split; [exact Hrep|]. split; [exact Hm|].
  split; [exact Hm1|]. split; [lia|]. split; [lia|].
  split; [lia|]. split; [lia|]. split; [exact Hroom|]. split; [exact Hcap|].
  eexists. split; [exact Hr|]. cbn [cr_chunk cr_final cr_data].
  split; [exact Hchunk|]. split; [reflexivity|].
  unfold held. rewrite Hb1. reflexivity.
Qed.

Lemma stream_without_token_passes_unchanged_witness :
  ReadAll 6 16 (engineOn testPairs (B "tzzzz"%string) 2) 3
  = Ok (B "tzzzz"%string, None).
Proof.
  apply (stream_without_token_passes_unchanged testPairs (setOf testPairs)
           (B "tzzzz"%string) 2 EOF 3 _ 16 6);
    try (vm_compute; reflexivity); try (vm_compute; discriminate);
    try (vm_compute; lia).
  intros er k Hin Hocc.
  assert (Hs : 1 <= len (search er)).
  { vm_compute in Hin. destruct Hin as [<-|[<-|[]]]; vm_compute; discriminate. }
  pose proof (occursAt_bound _ _ _ Hocc Hs) as Hb.
  vm_compute in Hin. destruct Hin as [<-|[<-|[]]].
  - do 5 (destruct k as [|k]; [vm_compute in Hocc; discriminate|]).
    set (a := len (B _)) in Hb. set (b := len (search _)) in Hb.
    vm_compute in a, b. subst a b. lia.
  - set (a := len (B _)) in Hb. set (b := len (search _)) in Hb.
    vm_compute in a, b. subst a b. lia.
Defined.

(** ** A condition from the source *)

Section Condition.

Context {R T : Type} {io : IoReader R} {br : BytesReplacer T}.

(** X20.  A condition that comes without bytes is recorded for good.  When
    the pull of [Read] (here [fill]) on an engine whose [buf1] lies below the
    fill bound, itself inside the buffer, gets no byte and a condition from
    the underlying reader, be it [EOF] or any other error, the pull returns:
    the condition is recorded, processed is set to filled, the bytes held
    stay as they are.  From then on, whatever the buffer lengths of the later
    [Read] calls, the calls succeed and follow [drainSpec]: the buffered
    bytes are handed out in order, without the condition while some remain
    and with it from the call that empties the buffer; the condition stays
    recorded and the underlying reader is left as it was, never read
    again. *)
Theorem terminal_condition_is_sticky (fuel0 : nat)
    (st0 : @StreamReplacingReader R T) (rd rd' : R) (got : ByteSlice)
    (e : error) :
  sr_r st0 = Some rd ->
  0 <= sr_buf1 st0 -> sr_buf1 st0 <= sr_max st0 ->
  sr_max st0 <= len (sr_buf st0) ->
  ioRead rd (sr_max st0 - sr_buf1 st0) = (got, Some e, rd') ->
  firstn (Z.to_nat (sr_max st0 - sr_buf1 st0)) got = [] ->
  exists st,
    fill fuel0 st0 = Ok st /\
    sr_err st = Some e /\ sr_r st = Some rd' /\
    sr_buf0 st = sr_buf1 st /\ sr_buf1 st = sr_buf1 st0 /\
    held st = held st0 /\
    forall fuel plens, Forall (fun plen => 0 <= plen) plens ->
      exists st',
        ReadN (S fuel) st plens = Ok (drainSpec e (held st0) plens, st') /\
        sr_r st' = Some rd' /\ sr_err st' = Some e.
Proof.
  intros Hr H0 H1 Hmax Hio Hnone.
  unfold fill, bind. rewrite Hr. rewrite slice_ok by lia.
  rewrite len_slice by lia. rewrite Hio, Hnone.
  change (len (@nil byte)) with 0. cbn [Z.gtb Z.compare].
  rewrite copyAt_nil by lia.
  cbn [sr_err set_r_err isSome sr_buf1 set_buf].
  eexists. split; [reflexivity|].
  cbn [sr_err sr_r sr_buf0 sr_buf1 set_buf0 set_r_err set_buf].
  split; [reflexivity|]. split; [reflexivity|].
  split; [reflexivity|]. split; [reflexivity|].
  split; [reflexivity|].
  intros fuel plens Hplens.
  apply (ReadN_flushed fuel e plens Hplens).
  unfold flushed.
  cbn [sr_err sr_r sr_buf0 sr_buf1 sr_buf set_buf0 set_r_err set_buf].
  split; [reflexivity|]. split; [reflexivity|]. split; [lia|].
  reflexivity.
Qed.

End Condition.

Local Open Scope string_scope.

Lemma terminal_condition_is_sticky_witness :
  let st0 := afterFill (engineOn ["zt"; "zhangtian"] (B "z") 1) in
  exists st,
    fill 0 st0 = Ok st /\
    sr_err st = Some EOF /\ sr_r st = Some (sourceOf [] 1) /\
    sr_buf0 st = sr_buf1 st /\ sr_buf1 st = sr_buf1 st0 /\
    held st = held st0 /\
    forall fuel plens, Forall (fun plen => 0 <= plen) plens ->
      exists st',
        ReadN (S fuel) st plens = Ok (drainSpec EOF (held st0) plens, st') /\
        sr_r st' = Some (sourceOf [] 1) /\ sr_err st' = Some EOF.
Proof.
  intro st0.
  apply (terminal_condition_is_sticky 0 st0 (sourceOf [] 1) (sourceOf [] 1)
           [] EOF); vm_compute; first [reflexivity | discriminate].
Defined.

Local Close Scope string_scope.

(** X21.  A condition that comes together with bytes is recorded after
    they are replaced.  For a set without a growing pair, when the pull on an
    engine with [buf0 = 0] gets at least one byte and a condition from the
    underlying reader, the pull returns: the bytes held before and the new
    ones are replaced as one string, left to right, the condition is
    recorded and processed is set to filled, so that the later [Read] calls
    hand out exactly that replaced string and then repeat the condition,
    without reading the underlying reader again. *)
Theorem condition_with_bytes_is_recorded_after_the_scan {R : Type}
    {io : IoReader R} (fuel0 : nat)
    (st0 : @StreamReplacingReader R replacer) (rep : replacer) (rd rd' : R)
    (got : ByteSlice) (e : error) :
  sr_replacer st0 = Some rep -> nonEmptySearches rep -> noGrowingPair rep ->
  sr_r st0 = Some rd -> sr_buf0 st0 = 0 ->
  0 <= sr_buf1 st0 -> sr_buf1 st0 <= sr_max st0 ->
  sr_max st0 <= len (sr_buf st0) ->
  ioRead rd (sr_max st0 - sr_buf1 st0) = (got, Some e, rd') ->
  1 <= len (firstn (Z.to_nat (sr_max st0 - sr_buf1 st0)) got) ->
  (Z.to_nat (sr_max st0) < fuel0)%nat ->
  exists st,
    fill fuel0 st0 = Ok st /\
    sr_err st = Some e /\ sr_r st = Some rd' /\
    sr_buf0 st = sr_buf1 st /\
    held st =
      canonicalReplace_from (replaces rep)
        (held st0 ++ firstn (Z.to_nat (sr_max st0 - sr_buf1 st0)) got) 0 /\
    forall fuel plens, Forall (fun plen => 0 <= plen) plens ->
      exists st',
        ReadN (S fuel) st plens = Ok (drainSpec e (held st) plens, st') /\
        sr_r st' = Some rd' /\ sr_err st' = Some e.
Proof.
  intros Hrep Hne Hng Hr Hb0 H0 H1 Hmax Hio Hgot Hfuel.
  set (got' := firstn (Z.to_nat (sr_max st0 - sr_buf1 st0)) got) in *.
  assert (Hlg : len got' <= sr_max st0 - sr_buf1 st0).
  { unfold got', len. rewrite length_firstn. lia. }
  set (sA := set_buf1
               (set_r_err
                  (set_buf st0
                     (copyAt (sr_buf st0) (sr_buf1 st0) (sr_max st0) got'))
                  rd' (Some e))
               (sr_buf1 st0 + len got')).
  assert (HlA : len (sr_buf sA) = len (sr_buf st0)).
  { unfold sA. cbn [sr_buf set_buf1 set_r_err set_buf].
    apply len_copyAt; lia. }
  destruct (scan_never_overflows fuel0 sA rep Hne Hng) as [st2 Hscan].
  { exact Hrep. }
  { unfold sA. cbn [sr_buf0 set_buf1 set_r_err set_buf]. lia. }
  { unfold sA. cbn [sr_buf0 sr_buf1 set_buf1 set_r_err set_buf]. lia. }
  { rewrite HlA. unfold sA. cbn [sr_buf1 set_buf1 set_r_err set_buf]. lia. }
  { unfold sA. cbn [sr_buf0 sr_buf1 set_buf1 set_r_err set_buf]. lia. }
  pose proof (scan_canonical fuel0 sA st2 rep Hne Hrep Hscan) as Hcan.
  destruct (scan_inv fuel0 sA st2 Hscan) as [Ke [Kr [K0 K1]]].
  assert (Hproc : processed sA = []).
  { unfold processed, sA. cbn [sr_buf0 set_buf1 set_r_err set_buf].
    rewrite Hb0. reflexivity. }
  assert (Hun : unprocessed sA = held st0 ++ got').
  { unfold unprocessed, sA, held.
    cbn [sr_buf0 sr_buf1 sr_buf set_buf1 set_r_err set_buf].
    rewrite Hb0. cbn [Z.to_nat skipn]. rewrite Z.sub_0_r.
    apply firstn_copyAt_append; lia. }
  rewrite Hproc, Hun in Hcan. cbn [app] in Hcan.
  change (sr_err sA) with (Some e) in Ke.
  change (sr_r sA) with (Some rd') in Kr.
  assert (Hfill : fill fuel0 st0 = Ok (set_buf0 st2 (sr_buf1 st2))).
  { unfold fill, bind. rewrite Hr. rewrite slice_ok by lia.
    rewrite len_slice by lia. rewrite Hio. fold got'.
    assert (Eg : (len got' >? 0) = true) by (apply Z.gtb_lt; lia).
    rewrite Eg. cbn [sr_buf1 set_r_err set_buf]. fold sA.
    rewrite Hscan, Ke. reflexivity. }
  exists (set_buf0 st2 (sr_buf1 st2)).
  split; [exact Hfill|].
  change (held (set_buf0 st2 (sr_buf1 st2))) with (held st2).
  cbn [sr_err sr_r sr_buf0 sr_buf1 set_buf0].
  split; [exact Ke|]. split; [exact Kr|]. split; [reflexivity|].
  split; [exact Hcan|].
  intros fuel plens Hplens.
  destruct (ReadN_flushed fuel e plens Hplens (set_buf0 st2 (sr_buf1 st2))
              (held st2)) as [st' [HR [Hr' He']]].
  { unfold flushed. cbn [sr_err sr_buf0 sr_buf1 sr_buf set_buf0].
    split; [exact Ke|]. split; [reflexivity|]. split; [lia|]. reflexivity. }
  exists st'. split; [exact HR|]. split; [|exact He'].
  rewrite Hr'. exact Kr.
Qed.

Lemma condition_with_bytes_is_recorded_after_the_scan_witness :
  let rep := setOf nestedPairs in
  let src := {| de_data := B "abcb"%string; de_final := EOF |} in
  let st0 := match Replace rep (Some src) with
             | Ok st => st
             | _ => zeroReader
             end in
  exists st,
    fill 4097 st0 = Ok st /\
    sr_err st = Some EOF /\
    sr_r st = Some {| de_data := []; de_final := EOF |} /\
    sr_buf0 st = sr_buf1 st /\
    held st =
      canonicalReplace_from (replaces rep)
        (held st0 ++ firstn (Z.to_nat (sr_max st0 - sr_buf1 st0))
                       (B "abcb"%string)) 0 /\
    forall fuel plens, Forall (fun plen => 0 <= plen) plens ->
      exists st',
        ReadN (S fuel) st plens = Ok (drainSpec EOF (held st) plens, st') /\
        sr_r st' = Some {| de_data := []; de_final := EOF |} /\
        sr_err st' = Some EOF.
Proof.
  intros rep src st0.
  apply (condition_with_bytes_is_recorded_after_the_scan 4097 st0 rep src
           {| de_data := []; de_final := EOF |} (B "abcb"%string) EOF);
    try (vm_compute; reflexivity); try (vm_compute; discriminate);
    try (vm_compute; lia).
  - intros er Hin. vm_compute in Hin.
    destruct Hin as [<-|[<-|[]]]; vm_compute; discriminate.
  - intros er Hin. vm_compute in Hin.
    destruct Hin as [<-|[<-|[]]]; vm_compute; discriminate.
Defined.
